(** * WebSocketStore: the connection supervisor of mgsmu-react-websocket

    A shallow embedding of [src/WebSocketStore.tsx].

    The module keeps three process-wide tables ([state], [listeners],
    [latestMessages]); the hook [useWebSocketConnect] adds, per mounted
    instance, the closure variables [socket] and [reconnectTimeout], the
    React state [lastMessageTime] and the watchdog [timer].  All of it is
    gathered in one record [World], together with what the platform owns:
    the clock, the sockets with their ready state, the pending timers and
    the console/wire output.  Code that runs in the program is written in
    a state-and-exception monad [M] over [World]; what reaches the program
    from outside is an [Input] of the event loop [step].

    Conventions.
    - Plain objects used as tables ([Record<string, T>]) are finite maps
      over their own keys.  A plain object also has what it inherits from
      [Object.prototype]: [inherited] lists those names and [lookup_plain]
      says what [table[name]] finds.  The program is modelled for the
      other names, and a statement about a name that a caller passes in
      is made for those.
    - A JS [Set] is its list of entries in insertion order; [delete]
      leaves an empty slot and [forEach] walks the live list by index, as
      ECMA-262 describes it.  The walk gets an iteration budget [fuel]: a
      listener that keeps subscribing new listeners makes it endless.
    - Numbers that the code only uses as integers (milliseconds, counts,
      timer ids) are in [Z] or [nat]; the clock never runs backwards.  The
      platform keeps a timer delay as a 32-bit integer and a number as a
      double: a statement that gives a due time, or the digits of a
      number, is made for an [int32_delay], or a [safe_integer].
    - [JSON.parse], [JSON.stringify] and the bodies of the registered
      listeners are parameters of the development.  The only listener the
      module registers itself is [update] of [useWebSocketStore], which
      reads the store and sets a component's state.
    - A mounted [useWebSocketConnect] keeps the options it was mounted
      with, and its URL is one the [WebSocket] constructor accepts.
    - React runs an effect after the handler that changed its dependency
      has returned; the model runs it in place (see [setLastMessageTime]).
    - [Invoked] and [Expired] in the log are book-keeping of the model:
      they record that a listener, or a watchdog callback, was called. *)

From Stdlib Require Import ZArith String Ascii List Lia.
From stdpp Require Import base option list gmap strings pretty.

(** ** Values, messages, connection records *)

#[warnings="-register-all"]
Inductive JsValue : Type :=
| VNull
| VBool (b : bool)
| VNum (mantissa exponent : Z)       (* mantissa * 10 ^ exponent *)
| VStr (s : string)
| VArr (items : list JsValue)
| VObj (fields : list (string * JsValue))
| VBinary (bytes : list Byte.byte). (* Blob / ArrayBuffer frames *)

(** [typeof data === "string"] *)
Definition is_string (v : JsValue) : option string :=
  match v with VStr s => Some s | _ => None end.

Inductive Exn : Type :=
| SyntaxError
| TypeError
| InvalidStateError
| Thrown (v : JsValue).

Inductive Result (A : Type) : Type :=
| Ok (a : A)
| Threw (e : Exn).
Arguments Ok {A} a.
Arguments Threw {A} e.

Abbreviation SocketId := nat.
Abbreviation TimerId := nat.
Abbreviation HookId := nat.
Abbreviation Listener := nat.

Record WebSocketMessage : Type := mkMessage {
  message : JsValue;
  updatedAt : Z
}.

Module WebSocketState.
Record t : Type := mk {
  name : option string;
  socket : option SocketId;
  connected : bool;
  connecting : bool;
  messages : list WebSocketMessage;
  storeHistory : bool
}.
End WebSocketState.
Abbreviation WebSocketState := WebSocketState.t.

(** [Partial<WebSocketState>]: a field is either absent or carries a value. *)
Module Partial.
Record t : Type := mk {
  name : option (option string);
  socket : option (option SocketId);
  connected : option bool;
  connecting : option bool;
  messages : option (list WebSocketMessage);
  storeHistory : option bool
}.
Definition empty : t := mk None None None None None None.
End Partial.

(** [{ ...cur, ...partial }] *)
Definition spread (cur : WebSocketState) (partial : Partial.t) : WebSocketState :=
  WebSocketState.mk
    (default (WebSocketState.name cur) (Partial.name partial))
    (default (WebSocketState.socket cur) (Partial.socket partial))
    (default (WebSocketState.connected cur) (Partial.connected partial))
    (default (WebSocketState.connecting cur) (Partial.connecting partial))
    (default (WebSocketState.messages cur) (Partial.messages partial))
    (default (WebSocketState.storeHistory cur) (Partial.storeHistory partial)).

(** The literal of line 24. *)
Definition defaultState : WebSocketState :=
  WebSocketState.mk None None false false [] false.

(** ** The platform: sockets, timers, console *)

Inductive ReadyState : Type := CONNECTING | OPEN | CLOSING | CLOSED.

Record Socket : Type := mkSocket {
  sockUrl : string;
  readyState : ReadyState;
  handlers : HookId       (* the effect closure whose on* handlers it carries *)
}.

Inductive TimerTask : Type :=
| Reconnect (h : HookId)            (* setTimeout(connect, reconnectDelay) *)
| Heartbeat (h : HookId).           (* the callback of lines 160-165 *)

Global Instance TimerTask_eq_dec : EqDecision TimerTask.
Proof. solve_decision. Defined.

Record Timer : Type := mkTimer {
  timerId : TimerId;
  due : Z;
  task : TimerTask
}.

Inductive Event : Type :=
| ConsoleError (text : string) (arg : option Exn)
| ConsoleWarn (text : string) (arg : option string)
| Sent (s : SocketId) (payload : string)      (* a frame handed to the wire *)
| Invoked (name : string) (l : Listener)      (* book-keeping: a listener was called *)
| Expired (h : HookId).                       (* book-keeping: a watchdog callback ran *)

(** ** One mounted [useWebSocketConnect] *)

Module Options.
Record t : Type := mk {
  name : string;
  url : string;
  autoReconnect : option bool;
  reconnectDelay : option Z;
  storeHistory : option bool;
  maxMessages : option Z;
  heartbeatInterval : option Z
}.
End Options.

Module Hook.
Record t : Type := mk {
  (* the destructured arguments, defaults applied *)
  name : string;
  url : string;
  autoReconnect : bool;
  reconnectDelay : Z;
  storeHistory : bool;
  maxMessages : Z;
  heartbeatInterval : Z;
  (* closure variables of the first effect *)
  socket : option SocketId;
  reconnectTimeout : option TimerId;
  (* useState / second effect *)
  lastMessageTime : option Z;
  timer : option TimerId;
  mounted : bool
}.

Definition with_socket (s : option SocketId) (h : t) : t :=
  mk (name h) (url h) (autoReconnect h) (reconnectDelay h) (storeHistory h)
     (maxMessages h) (heartbeatInterval h)
     s (reconnectTimeout h) (lastMessageTime h) (timer h) (mounted h).
Definition with_reconnectTimeout (r : option TimerId) (h : t) : t :=
  mk (name h) (url h) (autoReconnect h) (reconnectDelay h) (storeHistory h)
     (maxMessages h) (heartbeatInterval h)
     (socket h) r (lastMessageTime h) (timer h) (mounted h).
Definition with_lastMessageTime (l : option Z) (h : t) : t :=
  mk (name h) (url h) (autoReconnect h) (reconnectDelay h) (storeHistory h)
     (maxMessages h) (heartbeatInterval h)
     (socket h) (reconnectTimeout h) l (timer h) (mounted h).
Definition with_timer (x : option TimerId) (h : t) : t :=
  mk (name h) (url h) (autoReconnect h) (reconnectDelay h) (storeHistory h)
     (maxMessages h) (heartbeatInterval h)
     (socket h) (reconnectTimeout h) (lastMessageTime h) x (mounted h).
Definition with_mounted (b : bool) (h : t) : t :=
  mk (name h) (url h) (autoReconnect h) (reconnectDelay h) (storeHistory h)
     (maxMessages h) (heartbeatInterval h)
     (socket h) (reconnectTimeout h) (lastMessageTime h) (timer h) b.

(** The parameter list of lines 73-89 with its defaults. *)
Definition create (o : Options.t) : t :=
  mk (Options.name o) (Options.url o)
     (default false (Options.autoReconnect o))
     (default 5000%Z (Options.reconnectDelay o))
     (default false (Options.storeHistory o))
     (default 2%Z (Options.maxMessages o))
     (default 15000%Z (Options.heartbeatInterval o))
     None None None None true.
End Hook.

(** ** The world *)

Record World : Type := mkWorld {
  state : gmap string WebSocketState;
  listeners : gmap string (list (option Listener));
  latestMessages : gmap string WebSocketMessage;
  now : Z;                               (* Date.now() *)
  sockets : list Socket;                 (* every WebSocket created so far *)
  timers : list Timer;                   (* pending timeouts *)
  nextTimer : TimerId;
  hooks : list Hook.t;
  log : list Event
}.

Definition set_state (f : gmap string WebSocketState → gmap string WebSocketState)
    (w : World) : World :=
  mkWorld (f (state w)) (listeners w) (latestMessages w) (now w) (sockets w)
          (timers w) (nextTimer w) (hooks w) (log w).
Definition set_listeners
    (f : gmap string (list (option Listener)) → gmap string (list (option Listener)))
    (w : World) : World :=
  mkWorld (state w) (f (listeners w)) (latestMessages w) (now w) (sockets w)
          (timers w) (nextTimer w) (hooks w) (log w).
Definition set_latestMessages
    (f : gmap string WebSocketMessage → gmap string WebSocketMessage)
    (w : World) : World :=
  mkWorld (state w) (listeners w) (f (latestMessages w)) (now w) (sockets w)
          (timers w) (nextTimer w) (hooks w) (log w).
Definition set_now (f : Z → Z) (w : World) : World :=
  mkWorld (state w) (listeners w) (latestMessages w) (f (now w)) (sockets w)
          (timers w) (nextTimer w) (hooks w) (log w).
Definition set_sockets (f : list Socket → list Socket) (w : World) : World :=
  mkWorld (state w) (listeners w) (latestMessages w) (now w) (f (sockets w))
          (timers w) (nextTimer w) (hooks w) (log w).
Definition set_timers (f : list Timer → list Timer) (w : World) : World :=
  mkWorld (state w) (listeners w) (latestMessages w) (now w) (sockets w)
          (f (timers w)) (nextTimer w) (hooks w) (log w).
Definition set_nextTimer (f : TimerId → TimerId) (w : World) : World :=
  mkWorld (state w) (listeners w) (latestMessages w) (now w) (sockets w)
          (timers w) (f (nextTimer w)) (hooks w) (log w).
Definition set_hooks (f : list Hook.t → list Hook.t) (w : World) : World :=
  mkWorld (state w) (listeners w) (latestMessages w) (now w) (sockets w)
          (timers w) (nextTimer w) (f (hooks w)) (log w).
Definition set_log (f : list Event → list Event) (w : World) : World :=
  mkWorld (state w) (listeners w) (latestMessages w) (now w) (sockets w)
          (timers w) (nextTimer w) (hooks w) (f (log w)).

(** The module as loaded: empty tables, no socket, no timer; timer ids
    start at 1, as in browsers. *)
Definition initial (t0 : Z) : World :=
  mkWorld ∅ ∅ ∅ t0 [] [] 1%nat [] [].

(** *** Where the tables and the timers are what the model says

    [state], [listeners] and [latestMessages] are plain objects, and
    [table[name]] also finds what their prototype, [Object.prototype],
    defines.  Under each of the names below it yields a built-in (a
    function, or the prototype itself) where the module expects a record,
    a [Set] or a message: line 24 returns that built-in, and line 29 too,
    so that [forEach] (line 34) and [add] (line 56) are missing and the
    call throws a TypeError.  The maps of [World] are the tables at every
    other name. *)
Definition inherited (name : string) : bool :=
  bool_decide (name ∈ (["constructor"; "hasOwnProperty"; "isPrototypeOf";
                        "propertyIsEnumerable"; "toLocaleString"; "toString";
                        "valueOf"; "__proto__"; "__defineGetter__";
                        "__defineSetter__"; "__lookupGetter__";
                        "__lookupSetter__"] : list string)).

(** What [table[name]] finds in a plain object whose own keys are those
    of [table]. *)
Inductive Found (A : Type) : Type :=
| Own (a : A)         (* the value stored under the name *)
| BuiltIn             (* what [Object.prototype] defines under the name *)
| Undefined.
Arguments Own {A} a.
Arguments BuiltIn {A}.
Arguments Undefined {A}.

Definition lookup_plain {A} (table : gmap string A) (name : string) : Found A :=
  match table !! name with
  | Some a => Own a
  | None => if inherited name then BuiltIn else Undefined
  end.

(** What line 24 hands to its caller: [state[name] || { ... }], where a
    record and a built-in are both truthy. *)
Definition returned_state (name : string) (w : World) : Found WebSocketState :=
  match lookup_plain (state w) name with
  | Undefined => Own defaultState
  | found => found
  end.



(** ** The monad

    A computation either runs out of iteration budget ([None]), or ends in
    a world with a value or a thrown exception. *)

Definition M (A : Type) : Type := World → option (Result A * World).

Definition ret {A} (a : A) : M A := fun w => Some (Ok a, w).
Definition throw {A} (e : Exn) : M A := fun w => Some (Threw e, w).
Definition bind {A B} (m : M A) (k : A → M B) : M B := fun w =>
  match m w with
  | None => None
  | Some (Ok a, w') => k a w'
  | Some (Threw e, w') => Some (Threw e, w')
  end.
(** [try { m } catch (e) { handler e }] *)
Definition try_catch {A} (m : M A) (handler : Exn → M A) : M A := fun w =>
  match m w with
  | Some (Threw e, w') => handler e w'
  | r => r
  end.
Definition get : M World := fun w => Some (Ok w, w).
Definition modify (f : World → World) : M unit := fun w => Some (Ok tt, f w).
Definition emit (e : Event) : M unit := modify (set_log (fun l => l ++ [e])).
Definition when (b : bool) (m : M unit) : M unit := if b then m else ret tt.

Notation "'do' x <~ m ; k" := (bind m (fun x => k))
  (at level 10, x name, m at level 100, k at level 200).

Definition console_error (text : string) (arg : option Exn) : M unit :=
  emit (ConsoleError text arg).
Definition console_warn (text : string) (arg : option string) : M unit :=
  emit (ConsoleWarn text arg).

(** ** JS [Set] of listeners *)

Abbreviation SetRef := string.   (* the Set object stored at [listeners[name]] *)

Definition entries (ref : SetRef) (w : World) : list (option Listener) :=
  default [] (listeners w !! ref).

(** The callbacks a fan-out starting now would find registered. *)
Definition registered (name : string) (w : World) : list Listener :=
  omap id (entries name w).

Definition set_add_entries (l : Listener) (es : list (option Listener)) :
    list (option Listener) :=
  if bool_decide (Some l ∈ es) then es else es ++ [Some l].

Definition set_delete_entries (l : Listener) (es : list (option Listener)) :
    list (option Listener) :=
  (fun e => if bool_decide (e = Some l) then None else e) <$> es.

Definition Set_add (ref : SetRef) (l : Listener) : M unit :=
  modify (set_listeners (fun ls => <[ref := set_add_entries l (default [] (ls !! ref))]> ls)).

Definition Set_delete (ref : SetRef) (l : Listener) : M bool := fun w =>
  Some (Ok (bool_decide (Some l ∈ entries ref w)),
        set_listeners (fun ls => <[ref := set_delete_entries l (default [] (ls !! ref))]> ls) w).

(** [Set.prototype.forEach]: visit the entries by index, skipping empty
    slots, re-reading the list at every step. *)
Fixpoint Set_forEach (fuel : nat) (ref : SetRef) (callback : Listener → M unit)
    (index : nat) : M unit := fun w =>
  match fuel with
  | O => None
  | S fuel' =>
    match entries ref w !! index with
    | None => Some (Ok tt, w)
    | Some None => Set_forEach fuel' ref callback (S index) w
    | Some (Some l) =>
        bind (callback l) (fun _ => Set_forEach fuel' ref callback (S index)) w
    end
  end.

Definition dquote : string := String (ascii_of_nat 34) EmptyString.

(** Array.prototype.slice(start) with one integer argument. *)
Definition slice {A} (start : Z) (xs : list A) : list A :=
  let len := Z.of_nat (length xs) in
  let k := if (start <? 0)%Z then Z.max (len + start) 0 else Z.min start len in
  drop (Z.to_nat k) xs.

(** ** The program *)

Section Program.

(** Iteration budget of a fan-out, the bodies of the listeners, and the
    two JSON built-ins. *)
Variable fuel : nat.
Variable listener_body : Listener → World → Result unit * World.
Variable JSON_parse : string → Result JsValue.
Variable JSON_stringify : JsValue → Result string.

(** [listener()] *)
Definition call (l : Listener) : M unit := fun w => Some (listener_body l w).

(** *** Connection record store and notifier (lines 19-58) *)

(** Line 24, for a name outside [inherited]; what the caller gets for any
    name is [returned_state]. *)
Definition getWebSocketState (name : string) : M WebSocketState :=
  do w <~ get;
  ret (match state w !! name with
       | Some st => st
       | None => defaultState
       end).

(** Lines 27-30, for a name outside [inherited]: there [listeners[name]]
    is a [Set] or undefined. *)
Definition getListeners (name : string) : M SetRef :=
  do w <~ get;
  do _ <~ when (bool_decide (listeners w !! name = None))
               (modify (set_listeners <[name := []]>));
  ret name.

(** The arrow function handed to [forEach] (lines 34-40). *)
Definition invoke_listener (name : string) (listener : Listener) : M unit :=
  try_catch
    (do _ <~ emit (Invoked name listener);
     call listener)
    (fun err =>
       console_error ("WebSocket listener for " +:+ dquote +:+ name +:+ dquote
                      +:+ " threw an error:") (Some err)).

Definition notifyListeners (name : string) : M unit :=
  do subs <~ getListeners name;
  Set_forEach fuel subs (invoke_listener name) 0.

Definition setWebSocketState (name : string) (partial : Partial.t) : M unit :=
  do cur <~ getWebSocketState name;
  do _ <~ modify (set_state <[name := spread cur partial]>);
  notifyListeners name.

Definition addMessage (name : string) (msg : WebSocketMessage) : M unit :=
  do _ <~ modify (set_latestMessages <[name := msg]>);
  notifyListeners name.

(** The returned closure [() => ls.delete(listener)] is the pair it
    captures. *)
Definition subscribeWebSocket (name : string) (listener : Listener) :
    M (SetRef * Listener) :=
  do ls <~ getListeners name;
  do _ <~ Set_add ls listener;
  ret (ls, listener).

Definition unsubscribe (handle : SetRef * Listener) : M bool :=
  Set_delete (fst handle) (snd handle).

(** *** Platform operations *)

Definition new_WebSocket (url : string) (h : HookId) : M SocketId :=
  do w <~ get;
  do _ <~ modify (set_sockets (fun ss => ss ++ [mkSocket url CONNECTING h]));
  ret (length (sockets w)).

Definition set_readyState (r : ReadyState) (sk : Socket) : Socket :=
  mkSocket (sockUrl sk) r (handlers sk).

(** [socket.close()] starts the closing handshake; the close event comes
    later, as an input. *)
Definition socket_close (s : SocketId) : M unit :=
  modify (set_sockets (fun ss =>
    match ss !! s with
    | Some sk =>
        match readyState sk with
        | CONNECTING | OPEN => <[s := set_readyState CLOSING sk]> ss
        | CLOSING | CLOSED => ss
        end
    | None => ss
    end)).

(** [socket.send(payload)] *)
Definition socket_send (s : SocketId) (payload : string) : M unit :=
  do w <~ get;
  match readyState <$> sockets w !! s with
  | Some CONNECTING => throw InvalidStateError
  | Some OPEN => emit (Sent s payload)
  | _ => ret tt
  end.

(** [setTimeout(callback, delay)] for an [int32_delay]; a negative delay
    counts as 0. *)
Definition setTimeout (t : TimerTask) (delay : Z) : M TimerId :=
  do w <~ get;
  do _ <~ modify (set_timers (fun ts =>
            ts ++ [mkTimer (nextTimer w) (now w + Z.max delay 0) t]));
  do _ <~ modify (set_nextTimer S);
  ret (nextTimer w).

Definition clearTimeout (id : TimerId) : M unit :=
  modify (set_timers (filter (fun t => timerId t ≠ id))).

Definition update_hook (h : HookId) (f : Hook.t → Hook.t) : M unit :=
  modify (set_hooks (fun hs =>
    match hs !! h with
    | Some hk => <[h := f hk]> hs
    | None => hs
    end)).

(** Run [body] in the closure of hook [h]. *)
Definition in_hook {A} (h : HookId) (dflt : A) (body : Hook.t → M A) : M A :=
  do w <~ get;
  match hooks w !! h with
  | Some hk => body hk
  | None => ret dflt
  end.

(** *** The second effect (lines 158-167) and [setLastMessageTime]

    React applies the state update and re-runs the effect once the
    running handler has returned; nothing in the handler reads the
    watchdog timer, so the re-run is done in place. *)

(** The message of lines 161-164; [pretty] gives the digits that the
    template literal prints for a [safe_integer]. *)
Definition heartbeat_message (heartbeatInterval now_ : Z) : WebSocketMessage :=
  mkMessage
    (VObj [("info"%string,
            VStr ("end of transfer after " +:+ pretty heartbeatInterval +:+ "ms"))])
    now_.

Definition heartbeat_fired (h : HookId) : M unit :=
  do _ <~ emit (Expired h);
  in_hook h tt (fun hk =>
    do w <~ get;
    addMessage (Hook.name hk) (heartbeat_message (Hook.heartbeatInterval hk) (now w))).

Definition heartbeat_effect (h : HookId) : M unit :=
  in_hook h tt (fun hk =>
    if bool_decide (Hook.heartbeatInterval hk = 0%Z) then ret tt else
    match Hook.lastMessageTime hk with
    | None => ret tt
    | Some _ =>
        do id <~ setTimeout (Heartbeat h) (Hook.heartbeatInterval hk);
        update_hook h (Hook.with_timer (Some id))
    end).

Definition heartbeat_cleanup (h : HookId) : M unit :=
  in_hook h tt (fun hk =>
    match Hook.timer hk with
    | Some id =>
        do _ <~ clearTimeout id;
        update_hook h (Hook.with_timer None)
    | None => ret tt
    end).

Definition setLastMessageTime (h : HookId) (t : Z) : M unit :=
  in_hook h tt (fun hk =>
    if negb (Hook.mounted hk) then ret tt else
    if bool_decide (Hook.lastMessageTime hk = Some t) then ret tt else
    do _ <~ update_hook h (Hook.with_lastMessageTime (Some t));
    do _ <~ heartbeat_cleanup h;
    heartbeat_effect h).

(** *** The first effect (lines 93-156) *)

Definition connect (h : HookId) : M unit :=
  in_hook h tt (fun hk =>
    do current <~ getWebSocketState (Hook.name hk);
    if WebSocketState.connected current || WebSocketState.connecting current
    then ret tt
    else
      do _ <~ setWebSocketState (Hook.name hk)
                (Partial.mk (Some (Some (Hook.name hk))) None None (Some true) None
                            (Some (Hook.storeHistory hk)));
      do s <~ new_WebSocket (Hook.url hk) h;
      update_hook h (Hook.with_socket (Some s))).

Definition onopen (h : HookId) : M unit :=
  in_hook h tt (fun hk =>
    setWebSocketState (Hook.name hk)
      (Partial.mk None (Some (Hook.socket hk)) (Some true) (Some false) None None)).

(** Lines 111-118. *)
Definition decode (data : JsValue) : M JsValue :=
  match is_string data with
  | Some text =>
      try_catch
        (match JSON_parse text with
         | Ok v => ret v
         | Threw e => throw e
         end)
        (fun parseError =>
           do _ <~ console_warn "no json message" None;
           ret data)
  | None => ret data
  end.

Definition onmessage (h : HookId) (event_data : JsValue) : M unit :=
  in_hook h tt (fun hk =>
    try_catch
      (do data <~ decode event_data;
       do w <~ get;
       let msg := mkMessage data (now w) in
       do _ <~ addMessage (Hook.name hk) msg;
       do w1 <~ get;
       do _ <~ when (negb (bool_decide (Hook.heartbeatInterval hk = 0%Z)))
                    (setLastMessageTime h (now w1));
       when (Hook.storeHistory hk)
         (do cur <~ getWebSocketState (Hook.name hk);
          let updatedMessages := WebSocketState.messages cur ++ [msg] in
          let limitedMessages := slice (- Hook.maxMessages hk) updatedMessages in
          setWebSocketState (Hook.name hk)
            (Partial.mk None None None None (Some limitedMessages) None)))
      (fun error => console_error "Error processing WebSocket message:" (Some error))).

Definition idle : Partial.t :=
  Partial.mk None (Some None) (Some false) (Some false) None None.

Definition onclose (h : HookId) : M unit :=
  in_hook h tt (fun hk =>
    do _ <~ setWebSocketState (Hook.name hk) idle;
    when (Hook.autoReconnect hk)
      (do id <~ setTimeout (Reconnect h) (Hook.reconnectDelay hk);
       update_hook h (Hook.with_reconnectTimeout (Some id)))).

Definition onerror (h : HookId) : M unit :=
  in_hook h tt (fun hk =>
    do _ <~ console_error "WebSocket error" None;
    do _ <~ setWebSocketState (Hook.name hk)
              (Partial.mk None None (Some false) (Some false) None None);
    match Hook.socket hk with
    | Some s => socket_close s
    | None => ret tt
    end).

(** The cleanup of lines 151-155; a timer id is truthy unless it is 0. *)
Definition connect_cleanup (h : HookId) : M unit :=
  in_hook h tt (fun hk =>
    do _ <~ match Hook.socket hk with
            | Some s => socket_close s
            | None => ret tt
            end;
    do _ <~ match Hook.reconnectTimeout hk with
            | Some id => when (negb (bool_decide (id = 0%nat))) (clearTimeout id)
            | None => ret tt
            end;
    setWebSocketState (Hook.name hk) idle).

(** Mounting a component that calls [useWebSocketConnect(options)]: the
    first effect calls [connect]; the second returns at once, since
    [lastMessageTime] is still [null]. *)
Definition useWebSocketConnect (options : Options.t) : M HookId :=
  do w <~ get;
  let h := length (hooks w) in
  do _ <~ modify (set_hooks (fun hs => hs ++ [Hook.create options]));
  do _ <~ connect h;
  do _ <~ heartbeat_effect h;
  ret h.

Definition unmount (h : HookId) : M unit :=
  in_hook h tt (fun hk =>
    if negb (Hook.mounted hk) then ret tt else
    do _ <~ connect_cleanup h;
    do _ <~ heartbeat_cleanup h;
    update_hook h (Hook.with_mounted false)).

(** *** Façade (lines 171-198) *)

Definition disconnectWebSocket (name : string) : M unit :=
  do cur <~ getWebSocketState name;
  do _ <~ match WebSocketState.socket cur with
          | Some s => socket_close s
          | None => ret tt
          end;
  setWebSocketState name idle.

Definition sendWebSocketMessage (name : string) (msg : JsValue) : M unit :=
  do st <~ getWebSocketState name;
  match WebSocketState.connected st, WebSocketState.socket st with
  | true, Some socket =>
      try_catch
        (do payload <~ match is_string msg with
                       | Some s => ret s
                       | None =>
                           match JSON_stringify msg with
                           | Ok s => ret s
                           | Threw e => throw e
                           end
                       end;
         socket_send socket payload)
        (fun err => console_error "Failed to send WebSocket message:" (Some err))
  | _, _ =>
      console_warn "WebSocket is not connected. Cannot send message:" (Some name)
  end.

Definition clearWebSocketMessage (name : string) : M unit :=
  do w <~ get;
  match latestMessages w !! name with
  | Some _ =>
      do _ <~ modify (set_latestMessages (delete name));
      notifyListeners name
  | None => ret tt
  end.

End Program.

(** ** The event loop

    What reaches the program from outside: components mounting and
    unmounting, socket events, the server starting to close a socket,
    timers coming due, time passing, and calls to the exported functions.
    An input the platform cannot deliver (an open event on a socket that
    is not connecting, a timer that is not due) leaves the world as it
    is. *)

Inductive Input : Type :=
| Mount (options : Options.t)
| Unmount (h : HookId)
| SocketOpen (s : SocketId)
| SocketMessage (s : SocketId) (data : JsValue)
| SocketError (s : SocketId)
| SocketClose (s : SocketId)
| TimerFires (id : TimerId)
| Elapse (ms : Z)
| Disconnect (name : string)
| Send (name : string) (msg : JsValue)
| ClearMessage (name : string)
| Subscribe (name : string) (l : Listener)
| Unsubscribe (name : string) (l : Listener)
| PeerCloses (s : SocketId).   (* the server starts the closing handshake *)

Definition find_timer (id : TimerId) (ts : list Timer) : option Timer :=
  List.find (fun t => bool_decide (timerId t = id)) ts.

Section EventLoop.

Variable fuel : nat.
Variable listener_body : Listener → World → Result unit * World.
Variable JSON_parse : string → Result JsValue.
Variable JSON_stringify : JsValue → Result string.

Definition set_socket_state (s : SocketId) (r : ReadyState) : M unit :=
  modify (set_sockets (fun ss =>
    match ss !! s with
    | Some sk => <[s := set_readyState r sk]> ss
    | None => ss
    end)).

Definition run_task (t : TimerTask) : M unit :=
  match t with
  | Reconnect h => connect fuel listener_body h
  | Heartbeat h => heartbeat_fired fuel listener_body h
  end.

Definition step (i : Input) : M unit :=
  do w <~ get;
  match i with
  | Mount options =>
      do _ <~ useWebSocketConnect fuel listener_body options; ret tt
  | Unmount h => unmount fuel listener_body h
  | SocketOpen s =>
      match sockets w !! s with
      | Some (mkSocket _ CONNECTING h) =>
          do _ <~ set_socket_state s OPEN;
          onopen fuel listener_body h
      | _ => ret tt
      end
  | SocketMessage s data =>
      match sockets w !! s with
      | Some (mkSocket _ OPEN h) => onmessage fuel listener_body JSON_parse h data
      | _ => ret tt
      end
  | SocketError s =>
      match sockets w !! s with
      | Some (mkSocket _ CLOSED _) | None => ret tt
      | Some (mkSocket _ _ h) => onerror fuel listener_body h
      end
  | SocketClose s =>
      match sockets w !! s with
      | Some (mkSocket _ CLOSED _) | None => ret tt
      | Some (mkSocket _ _ h) =>
          do _ <~ set_socket_state s CLOSED;
          onclose fuel listener_body h
      end
  | TimerFires id =>
      match find_timer id (timers w) with
      | Some t =>
          if bool_decide (due t ≤ now w)%Z
          then do _ <~ clearTimeout id; run_task (task t)
          else ret tt
      | None => ret tt
      end
  | Elapse ms => modify (set_now (fun t => (t + Z.max ms 0)%Z))
  | Disconnect name => disconnectWebSocket fuel listener_body name
  | Send name msg => sendWebSocketMessage JSON_stringify name msg
  | ClearMessage name => clearWebSocketMessage fuel listener_body name
  | Subscribe name l => do _ <~ subscribeWebSocket name l; ret tt
  | Unsubscribe name l => do _ <~ unsubscribe (name, l); ret tt
  | PeerCloses s =>
      (* the platform sets [readyState] to CLOSING; no handler runs before
         the close event *)
      match sockets w !! s with
      | Some (mkSocket _ OPEN _) => set_socket_state s CLOSING
      | _ => ret tt
      end
  end.

(** An exception that escapes a handler is reported by the platform and
    the loop goes on. *)
Fixpoint run (inputs : list Input) (w : World) : option World :=
  match inputs with
  | [] => Some w
  | i :: rest =>
      match step i w with
      | Some (_, w') => run rest w'
      | None => None
      end
  end.

End EventLoop.

(** ** A reference for the JSON built-ins

    [Json.parse] and [Json.stringify] follow RFC 8259 on byte strings and
    are what the examples plug in for [JSON.parse] and [JSON.stringify].
    A number keeps its decimal literal; a [\u] escape above 7F is stored
    in UTF-8. *)

Module Json.

Definition codes (s : string) : list N := N_of_ascii <$> list_ascii_of_string s.
Definition text (cs : list N) : string := string_of_list_ascii (ascii_of_N <$> cs).

Fixpoint skip_ws (cs : list N) : list N :=
  match cs with
  | (32 | 9 | 10 | 13)%N :: rest => skip_ws rest
  | _ => cs
  end.

Definition digit (c : N) : option Z :=
  if ((48 <=? c) && (c <=? 57))%N then Some (Z.of_N c - 48)%Z else None.

Definition hex (c : N) : option N :=
  if ((48 <=? c) && (c <=? 57))%N then Some (c - 48)%N
  else if ((65 <=? c) && (c <=? 70))%N then Some (c - 55)%N
  else if ((97 <=? c) && (c <=? 102))%N then Some (c - 87)%N
  else None.

(** digits*, accumulated into [acc]; also returns how many were read *)
Fixpoint digits (cs : list N) (acc : Z) (n : nat) : Z * nat * list N :=
  match cs with
  | c :: rest =>
      match digit c with
      | Some d => digits rest (10 * acc + d)%Z (S n)
      | None => (acc, n, cs)
      end
  | [] => (acc, n, cs)
  end.

Definition utf8 (u : N) : list N :=
  if (u <? 128)%N then [u]
  else if (u <? 2048)%N then [192 + u / 64; 128 + u mod 64]%N
  else [224 + u / 4096; 128 + (u / 64) mod 64; 128 + u mod 64]%N.

(** the characters of a string literal, after the opening quote *)
Fixpoint chars (cs : list N) (acc : list N) : option (string * list N) :=
  match cs with
  | 34%N :: rest => Some (text (rev acc), rest)
  | 92%N :: 117%N :: a :: b :: c :: d :: rest =>
      match hex a, hex b, hex c, hex d with
      | Some x, Some y, Some z, Some t =>
          chars rest (rev (utf8 (((x * 16 + y) * 16 + z) * 16 + t)%N) ++ acc)
      | _, _, _, _ => None
      end
  | 92%N :: e :: rest =>
      match e with
      | (34 | 92 | 47)%N => chars rest (e :: acc)
      | 98%N => chars rest (8%N :: acc)
      | 102%N => chars rest (12%N :: acc)
      | 110%N => chars rest (10%N :: acc)
      | 114%N => chars rest (13%N :: acc)
      | 116%N => chars rest (9%N :: acc)
      | _ => None
      end
  | c :: rest => if (c <? 32)%N then None else chars rest (c :: acc)
  | [] => None
  end.

Definition number (cs : list N) : option (JsValue * list N) :=
  let '(neg, cs1) := match cs with 45%N :: r => (true, r) | _ => (false, cs) end in
  let '(int, n, cs2) := digits cs1 0%Z 0 in
  if bool_decide (n = 0%nat) then None
  else if bool_decide (1 < n)%nat && bool_decide (head cs1 = Some 48%N) then None
  else
    let '(mant, nfrac, cs3, okf) :=
      match cs2 with
      | 46%N :: r =>
          let '(m, k, r') := digits r int 0 in (m, k, r', negb (bool_decide (k = 0%nat)))
      | _ => (int, 0%nat, cs2, true)
      end in
    let '(ex, cs4, oke) :=
      match cs3 with
      | (101 | 69)%N :: r =>
          let '(sgn, r1) := match r with
                            | 45%N :: r' => ((-1)%Z, r')
                            | 43%N :: r' => (1%Z, r')
                            | _ => (1%Z, r)
                            end in
          let '(e, k, r2) := digits r1 0%Z 0 in
          ((sgn * e)%Z, r2, negb (bool_decide (k = 0%nat)))
      | _ => (0%Z, cs3, true)
      end in
    if okf && oke
    then Some (VNum (if neg then - mant else mant)%Z (ex - Z.of_nat nfrac)%Z, cs4)
    else None.

(** an own property is written in place when the key is already there *)
Fixpoint put (k : string) (v : JsValue) (fields : list (string * JsValue)) :
    list (string * JsValue) :=
  match fields with
  | [] => [(k, v)]
  | (k', v') :: rest =>
      if bool_decide (k' = k) then (k, v) :: rest else (k', v') :: put k v rest
  end.

Section Compound.
Variable value : list N → option (JsValue * list N).

(** after an element has been announced: [value ws (, value ws)* ]] *)
Fixpoint elements (n : nat) (cs : list N) (acc : list JsValue) :
    option (JsValue * list N) :=
  match n with
  | O => None
  | S n' =>
      match value cs with
      | Some (v, rest) =>
          match skip_ws rest with
          | 44%N :: rest' => elements n' rest' (v :: acc)
          | 93%N :: rest' => Some (VArr (rev (v :: acc)), rest')
          | _ => None
          end
      | None => None
      end
  end.

Fixpoint members (n : nat) (cs : list N) (acc : list (string * JsValue)) :
    option (JsValue * list N) :=
  match n with
  | O => None
  | S n' =>
      match skip_ws cs with
      | 34%N :: rest =>
          match chars rest [] with
          | Some (k, rest1) =>
              match skip_ws rest1 with
              | 58%N :: rest2 =>
                  match value rest2 with
                  | Some (v, rest3) =>
                      match skip_ws rest3 with
                      | 44%N :: rest4 => members n' rest4 (put k v acc)
                      | 125%N :: rest4 => Some (VObj (put k v acc), rest4)
                      | _ => None
                      end
                  | None => None
                  end
              | _ => None
              end
          | None => None
          end
      | _ => None
      end
  end.
End Compound.

Fixpoint value (fuel : nat) (cs : list N) : option (JsValue * list N) :=
  match fuel with
  | O => None
  | S fuel' =>
      match skip_ws cs with
      | 123%N :: rest =>
          match skip_ws rest with
          | 125%N :: rest' => Some (VObj [], rest')
          | _ => members (value fuel') (length rest) rest []
          end
      | 91%N :: rest =>
          match skip_ws rest with
          | 93%N :: rest' => Some (VArr [], rest')
          | _ => elements (value fuel') (length rest) rest []
          end
      | 34%N :: rest =>
          match chars rest [] with
          | Some (s, rest') => Some (VStr s, rest')
          | None => None
          end
      | 116%N :: 114%N :: 117%N :: 101%N :: rest => Some (VBool true, rest)
      | 102%N :: 97%N :: 108%N :: 115%N :: 101%N :: rest => Some (VBool false, rest)
      | 110%N :: 117%N :: 108%N :: 108%N :: rest => Some (VNull, rest)
      | other => number other
      end
  end.

Definition parse (s : string) : Result JsValue :=
  let cs := codes s in
  match value (S (length cs)) cs with
  | Some (v, rest) =>
      match skip_ws rest with
      | [] => Ok v
      | _ => Threw SyntaxError
      end
  | None => Threw SyntaxError
  end.

Definition hexdigit (n : N) : N := if (n <? 10)%N then (48 + n)%N else (87 + n)%N.

Definition escape (c : N) : list N :=
  match c with
  | 34%N => [92; 34]%N
  | 92%N => [92; 92]%N
  | 8%N => [92; 98]%N
  | 12%N => [92; 102]%N
  | 10%N => [92; 110]%N
  | 13%N => [92; 114]%N
  | 9%N => [92; 116]%N
  | _ => if (c <? 32)%N
         then [92; 117; 48; 48; hexdigit (c / 16); hexdigit (c mod 16)]%N
         else [c]
  end.

Definition quote (s : string) : string :=
  text ([34%N] ++ concat (escape <$> codes s) ++ [34%N]).

Fixpoint serialize (v : JsValue) : string :=
  match v with
  | VNull => "null"
  | VBool true => "true"
  | VBool false => "false"
  | VNum m e => if bool_decide (e = 0%Z) then pretty m else pretty m +:+ "e" +:+ pretty e
  | VStr s => quote s
  | VArr items =>
      "[" +:+
      (fix go (xs : list JsValue) : string :=
         match xs with
         | [] => ""
         | [x] => serialize x
         | x :: rest => serialize x +:+ "," +:+ go rest
         end) items
      +:+ "]"
  | VObj fields =>
      "{" +:+
      (fix go (xs : list (string * JsValue)) : string :=
         match xs with
         | [] => ""
         | [(k, x)] => quote k +:+ ":" +:+ serialize x
         | (k, x) :: rest => quote k +:+ ":" +:+ serialize x +:+ "," +:+ go rest
         end) fields
      +:+ "}"
  | VBinary _ => "{}"
  end.

(** A value that is a tree has no cycle to trip over. *)
Definition stringify (v : JsValue) : Result string := Ok (serialize v).

End Json.

(** Sockets of [name] that are connecting or open. *)
Definition live (sk : Socket) : bool :=
  match readyState sk with CONNECTING | OPEN => true | _ => false end.

Definition live_sockets (name : string) (w : World) : list Socket :=
  filter (fun sk => live sk = true ∧
                    (Hook.name <$> hooks w !! handlers sk) = Some name)
         (sockets w).

(** Listeners that only look: the listener the module itself registers
    ([update], line 65) reads the store and sets a component's state. *)
Definition quiet : Listener → World → Result unit * World :=
  fun _ w => (Ok tt, w).

(** [JSON.stringify] on a value it rejects (a cycle, a BigInt). *)
Definition no_stringify : JsValue → Result string := fun _ => Threw TypeError.

Definition opts (name : string) : Options.t :=
  Options.mk name "wss://example.test" None None None None None.

(** The world the inputs lead to from the freshly loaded module, with
    listeners that only look. *)
Definition after (inputs : list Input) : World :=
  default (initial 0) (run 8 quiet Json.parse Json.stringify inputs (initial 0)).

(** One component has mounted [useWebSocketConnect] for "x" with the
    default options and its socket has opened. *)
Definition connected_world : World := after [Mount (opts "x"); SocketOpen 0].

(** ** Vocabulary of the statements *)

(** Calling [f] on each element of a fixed list, in order. *)
Fixpoint for_each_of {A} (f : A → M unit) (xs : list A) : M unit :=
  match xs with
  | [] => ret tt
  | x :: rest => do _ <~ f x; for_each_of f rest
  end.

(** [delete] called for each of [ls]. *)
Definition set_delete_all (ls : list Listener) (es : list (option Listener)) :
    list (option Listener) :=
  foldr set_delete_entries es ls.

(** The callbacks a walk over the entries [es] calls, when the call of
    [l] unsubscribes the callbacks [drops l] and [gone] have been
    unsubscribed so far. *)
Fixpoint visited (drops : Listener → list Listener) (gone : list Listener)
    (es : list (option Listener)) : list Listener :=
  match es with
  | [] => []
  | None :: rest => visited drops gone rest
  | Some l :: rest =>
      if bool_decide (l ∈ gone) then visited drops gone rest
      else l :: visited drops (drops l ++ gone) rest
  end.

(** What [getListeners] leaves behind: an empty Set where there was none. *)
Definition with_set (name : string) (w : World) : World :=
  if bool_decide (listeners w !! name = None)
  then set_listeners <[name := []]> w
  else w.

Definition add_log (evs : list Event) (w : World) : World :=
  set_log (fun l => l ++ evs) w.

(** The world after a fan-out whose listeners only looked. *)
Definition notified (name : string) (evs : list Event) (w : World) : World :=
  add_log evs (with_set name w).

(** What a fan-out itself writes to the log. *)
Definition fanout_event (e : Event) : Prop :=
  match e with
  | Invoked _ _ | ConsoleError _ _ => True
  | _ => False
  end.

(** The listeners of [name] that the log records as called, in order. *)
Definition invoked_in (name : string) (evs : list Event) : list Listener :=
  omap (fun e => match e with
                 | Invoked n l => if bool_decide (n = name) then Some l else None
                 | _ => None
                 end) evs.

(** The entries from [index] on are still those of [es0]. *)
Definition agree (index : nat) (es0 es : list (option Listener)) : Prop :=
  length es = length es0 ∧ ∀ j, index ≤ j → es !! j = es0 !! j.

(** [state[name] || { ... }] as a function of the world. *)
Definition read (name : string) (w : World) : WebSocketState :=
  match state w !! name with
  | Some st => st
  | None => defaultState
  end.

(** The payload [onmessage] builds from a frame, and what decoding logs. *)
Definition decoded (parse : string → Result JsValue) (data : JsValue) : JsValue :=
  match is_string data with
  | Some text =>
      match parse text with
      | Ok v => v
      | Threw _ => data
      end
  | None => data
  end.

Definition decode_events (parse : string → Result JsValue) (data : JsValue) : list Event :=
  match is_string data with
  | Some text =>
      match parse text with
      | Ok _ => []
      | Threw _ => [ConsoleWarn "no json message" None]
      end
  | None => []
  end.

(** The world after the cleanup of the second effect, after its body, and
    after [setLastMessageTime], for a hook [h] whose record is [hk]. *)
Definition disarmed (h : HookId) (hk : Hook.t) (w : World) : World :=
  match Hook.timer hk with
  | Some id => set_hooks <[h := Hook.with_timer None hk]>
                 (set_timers (filter (fun t => timerId t ≠ id)) w)
  | None => w
  end.

Definition armed (h : HookId) (hk : Hook.t) (w : World) : World :=
  if bool_decide (Hook.heartbeatInterval hk = 0%Z) then w else
  match Hook.lastMessageTime hk with
  | None => w
  | Some _ =>
      set_hooks <[h := Hook.with_timer (Some (nextTimer w)) hk]>
        (set_nextTimer S
           (set_timers (fun ts => ts ++ [mkTimer (nextTimer w)
                (now w + Z.max (Hook.heartbeatInterval hk) 0) (Heartbeat h)]) w))
  end.

Definition touched (h : HookId) (hk : Hook.t) (t : Z) (w : World) : World :=
  if negb (Hook.mounted hk) then w else
  if bool_decide (Hook.lastMessageTime hk = Some t) then w else
  let hk1 := Hook.with_lastMessageTime (Some t) hk in
  armed h (Hook.with_timer None hk1) (disarmed h hk1 (set_hooks <[h := hk1]> w)).

(** The world after [onmessage] of hook [h] (record [hk]) on a frame, for
    listeners that only look; [evs1] and [evs2] are what the two fan-outs
    logged. *)
Definition after_message (parse : string → Result JsValue) (h : HookId) (hk : Hook.t)
    (data : JsValue) (evs1 evs2 : list Event) (w : World) : World :=
  let name := Hook.name hk in
  let msg := mkMessage (decoded parse data) (now w) in
  let w1 := notified name evs1
              (set_latestMessages <[name := msg]>
                 (add_log (decode_events parse data) w)) in
  let w2 := if bool_decide (Hook.heartbeatInterval hk = 0%Z) then w1
            else touched h hk (now w) w1 in
  if Hook.storeHistory hk
  then notified name evs2
         (set_state <[name := spread (read name w2)
             (Partial.mk None None None None
                (Some (slice (- Hook.maxMessages hk)
                         (WebSocketState.messages (read name w2) ++ [msg])))
                None)]> w2)
  else w2.


(** The watchdog timers of hook [h] that are pending. *)
Definition hb_timers (h : HookId) (w : World) : list Timer :=
  filter (fun t => task t = Heartbeat h) (timers w).

(** *** The watchdog's view of the world

    What the timers depend on: the pending timers, the next timer id, the
    clock, the hooks (the socket variable aside) and the watchdogs that
    have expired so far.  [tick] is the part of an input that this view
    can see and [astep] is what the input does to the view. *)

Record View : Type := mkView {
  v_timers : list Timer;
  v_next : TimerId;
  v_now : Z;
  v_hooks : list Hook.t;
  v_expired : list HookId
}.

Definition expired_of (evs : list Event) : list HookId :=
  omap (fun e => match e with Expired h => Some h | _ => None end) evs.

Definition view (w : World) : View :=
  mkView (timers w) (nextTimer w) (now w) (Hook.with_socket None <$> hooks w)
         (expired_of (log w)).

Inductive Tick : Type :=
| Quiet
| Elapsed (ms : Z)
| Closed (h : HookId)
| Received (h : HookId)
| Fired (id : TimerId)
| Mounted (options : Options.t)
| Unmounted (h : HookId).

Definition tick (i : Input) (w : World) : Tick :=
  match i with
  | Mount options => Mounted options
  | Unmount h => Unmounted h
  | SocketMessage s _ =>
      match sockets w !! s with
      | Some (mkSocket _ OPEN h) => Received h
      | _ => Quiet
      end
  | SocketClose s =>
      match sockets w !! s with
      | Some (mkSocket _ CLOSED _) | None => Quiet
      | Some (mkSocket _ _ h) => Closed h
      end
  | TimerFires id => Fired id
  | Elapse ms => Elapsed ms
  | _ => Quiet
  end.

Definition without (id : TimerId) (ts : list Timer) : list Timer :=
  filter (fun t => timerId t ≠ id) ts.

Definition v_touch (h : HookId) (t : Z) (v : View) : View :=
  match v_hooks v !! h with
  | None => v
  | Some hk =>
      if negb (Hook.mounted hk) then v else
      if bool_decide (Hook.lastMessageTime hk = Some t) then v else
      let hk1 := Hook.with_lastMessageTime (Some t) hk in
      let ts := match Hook.timer hk with
                | Some id => without id (v_timers v)
                | None => v_timers v
                end in
      if bool_decide (Hook.heartbeatInterval hk = 0%Z)
      then mkView ts (v_next v) (v_now v)
                  (<[h := Hook.with_timer None hk1]> (v_hooks v)) (v_expired v)
      else mkView (ts ++ [mkTimer (v_next v)
                            (v_now v + Z.max (Hook.heartbeatInterval hk) 0) (Heartbeat h)])
                  (S (v_next v)) (v_now v)
                  (<[h := Hook.with_timer (Some (v_next v)) hk1]> (v_hooks v))
                  (v_expired v)
  end.

Definition astep (k : Tick) (v : View) : View :=
  match k with
  | Quiet => v
  | Elapsed ms =>
      mkView (v_timers v) (v_next v) (v_now v + Z.max ms 0) (v_hooks v) (v_expired v)
  | Closed h =>
      match v_hooks v !! h with
      | Some hk =>
          if Hook.autoReconnect hk
          then mkView (v_timers v ++ [mkTimer (v_next v)
                                        (v_now v + Z.max (Hook.reconnectDelay hk) 0)
                                        (Reconnect h)])
                      (S (v_next v)) (v_now v)
                      (<[h := Hook.with_reconnectTimeout (Some (v_next v)) hk]> (v_hooks v))
                      (v_expired v)
          else v
      | None => v
      end
  | Received h =>
      match v_hooks v !! h with
      | Some hk =>
          if bool_decide (Hook.heartbeatInterval hk = 0%Z) then v
          else v_touch h (v_now v) v
      | None => v
      end
  | Fired id =>
      match find_timer id (v_timers v) with
      | Some t =>
          if bool_decide (due t ≤ v_now v)%Z
          then mkView (without id (v_timers v)) (v_next v) (v_now v) (v_hooks v)
                      (match task t with
                       | Reconnect _ => v_expired v
                       | Heartbeat h => v_expired v ++ [h]
                       end)
          else v
      | None => v
      end
  | Mounted options =>
      mkView (v_timers v) (v_next v) (v_now v) (v_hooks v ++ [Hook.create options])
             (v_expired v)
  | Unmounted h =>
      match v_hooks v !! h with
      | Some hk =>
          if negb (Hook.mounted hk) then v else
          let ts1 := match Hook.reconnectTimeout hk with
                     | Some id => if bool_decide (id = 0) then v_timers v
                                  else without id (v_timers v)
                     | None => v_timers v
                     end in
          let ts2 := match Hook.timer hk with
                     | Some id => without id ts1
                     | None => ts1
                     end in
          mkView ts2 (v_next v) (v_now v)
                 (<[h := Hook.with_mounted false (Hook.with_timer None hk)]> (v_hooks v))
                 (v_expired v)
      | None => v
      end
  end.


(** How often the watchdog of [h] has expired. *)
Definition expirations (h : HookId) (hs : list HookId) : nat :=
  length (filter (fun h' => h' = h) hs).

(** What holds of every view the program can reach. *)
Record sound (v : View) : Prop := mkSound {
  ids_below : ∀ t, t ∈ v_timers v → timerId t < v_next v;
  ids_once : NoDup (timerId <$> v_timers v);
  timer_owned : ∀ h hk id, v_hooks v !! h = Some hk → Hook.timer hk = Some id →
      id < v_next v ∧ ∀ t, t ∈ v_timers v → timerId t = id → task t = Heartbeat h;
  reconnect_owned : ∀ h hk id, v_hooks v !! h = Some hk →
      Hook.reconnectTimeout hk = Some id →
      id < v_next v ∧ ∀ t, t ∈ v_timers v → timerId t = id → task t = Reconnect h;
  armed_by_message : ∀ t h, t ∈ v_timers v → task t = Heartbeat h →
      ∃ hk l, v_hooks v !! h = Some hk ∧ Hook.timer hk = Some (timerId t)
              ∧ Hook.lastMessageTime hk = Some l
              ∧ Hook.heartbeatInterval hk ≠ 0%Z
              ∧ due t = (l + Z.max (Hook.heartbeatInterval hk) 0)%Z;
  expired_after_message : ∀ h, h ∈ v_expired v →
      ∃ hk, v_hooks v !! h = Some hk ∧ Hook.lastMessageTime hk ≠ None
            ∧ Hook.heartbeatInterval hk ≠ 0%Z;
  still_armed : ∀ h hk l, v_hooks v !! h = Some hk → Hook.mounted hk = true →
      Hook.lastMessageTime hk = Some l → (0 < Hook.heartbeatInterval hk)%Z →
      (v_now v < l + Hook.heartbeatInterval hk)%Z →
      ∃ t, t ∈ v_timers v ∧ task t = Heartbeat h
}.


(** A computation the view cannot see. *)
Definition transparent {A} (m : M A) : Prop :=
  ∀ w r w', m w = Some (r, w') → view w' = view w.

(** How many synthetic messages the watchdog of hook [h] has emitted. *)
Definition synthetic_count (h : HookId) (w : World) : nat :=
  expirations h (expired_of (log w)).

(** *** Histories *)

(** The last [n] elements. *)
Definition lastn {A} (n : nat) (xs : list A) : list A := drop (length xs - n) xs.

(** Frames arriving on socket [s], each after a delay. *)
Definition arrivals (s : SocketId) (frames : list (Z * JsValue)) : list Input :=
  flat_map (fun f => [Elapse (fst f); SocketMessage s (snd f)]) frames.

(** The messages [onmessage] builds from these frames, the clock starting
    at [t]. *)
Fixpoint stamped (parse : string → Result JsValue) (t : Z) (frames : list (Z * JsValue)) :
    list WebSocketMessage :=
  match frames with
  | [] => []
  | f :: rest =>
      let t' := (t + Z.max (fst f) 0)%Z in
      mkMessage (decoded parse (snd f)) t' :: stamped parse t' rest
  end.

(** A hook with the same options. *)
Definition same_options (hk hk' : Hook.t) : Prop :=
  Hook.name hk' = Hook.name hk ∧ Hook.storeHistory hk' = Hook.storeHistory hk
  ∧ Hook.maxMessages hk' = Hook.maxMessages hk
  ∧ Hook.heartbeatInterval hk' = Hook.heartbeatInterval hk.

(** *** Listeners and worlds used in the examples *)

(** Listener 1 throws; the others only look. *)
Definition first_throws : Listener → World → Result unit * World :=
  fun l w => if bool_decide (l = 1) then (Threw (Thrown (VStr "boom")), w) else (Ok tt, w).

(** Calling the handle that [subscribeWebSocket name l] returned. *)
Definition call_handle (name : string) (l : Listener) (w : World) : World :=
  match unsubscribe (name, l) w with
  | Some (_, w') => w'
  | None => w
  end.

(** Listener 1 unsubscribes listener 2 of "x"; the others only look. *)
Definition drops_next : Listener → World → Result unit * World :=
  fun l w => if bool_decide (l = 1) then (Ok tt, call_handle "x" 2 w) else (Ok tt, w).

(** What the call of a listener unsubscribes under [drops_next]. *)
Definition dropped_by_first : Listener → list Listener :=
  fun l => if bool_decide (l = 1) then [2] else [].

(** Listener 1 unsubscribes listener 2 of "x" and then throws; the others
    only look. *)
Definition drops_next_and_throws : Listener → World → Result unit * World :=
  fun l w => if bool_decide (l = 1)
             then (Threw (Thrown (VStr "boom")), call_handle "x" 2 w)
             else (Ok tt, w).

(** Every listener unsubscribes itself from "x" when called. *)
Definition drops_itself : Listener → World → Result unit * World :=
  fun l w => (Ok tt, call_handle "x" l w).

(** Listeners 1 and 2 subscribed to "x", in that order. *)
Definition two_listeners : World :=
  set_listeners (fun _ => {[ "x"%string := [Some 1; Some 2] ]}) (initial 0).

(** *** Vocabulary of the further properties *)

(** What a fan-out for [name], started in [w], logs when the listeners
    only look: each callback registered for [name] is called once, in
    registration order, and no callback of another name is called. *)
Definition fanout_of (name : string) (w : World) (evs : list Event) : Prop :=
  Forall fanout_event evs
  ∧ invoked_in name evs = registered name w
  ∧ ∀ name', name' ≠ name → invoked_in name' evs = [].

(** *** Worlds after the handlers of the first effect *)


(** The world after [setWebSocketState(name, partial)];
    [evs] is what the fan-out logged. *)
Definition written (name : string) (partial : Partial.t) (evs : list Event) (w : World) :
    World :=
  notified name evs (set_state <[name := spread (read name w) partial]> w).

(** The partial records of lines 101, 105 and 144. *)
Definition connecting_partial (hk : Hook.t) : Partial.t :=
  Partial.mk (Some (Some (Hook.name hk))) None None (Some true) None
             (Some (Hook.storeHistory hk)).
Definition open_partial (hk : Hook.t) : Partial.t :=
  Partial.mk None (Some (Hook.socket hk)) (Some true) (Some false) None None.
Definition error_partial : Partial.t :=
  Partial.mk None None (Some false) (Some false) None None.

(** [if (socket) socket.close()] *)
Definition closing (s : option SocketId) (w : World) : World :=
  match s with
  | Some s =>
      set_sockets (fun ss =>
        match ss !! s with
        | Some sk =>
            match readyState sk with
            | CONNECTING | OPEN => <[s := set_readyState CLOSING sk]> ss
            | CLOSING | CLOSED => ss
            end
        | None => ss
        end) w
  | None => w
  end.

(** [if (reconnectTimeout) clearTimeout(reconnectTimeout)] *)
Definition cancelled (id : option TimerId) (w : World) : World :=
  match id with
  | Some id => if bool_decide (id = 0) then w
               else set_timers (filter (fun t => timerId t ≠ id)) w
  | None => w
  end.

Definition after_connect (h : HookId) (hk : Hook.t) (evs : list Event) (w : World) : World :=
  set_hooks <[h := Hook.with_socket (Some (length (sockets w))) hk]>
    (set_sockets (fun ss => ss ++ [mkSocket (Hook.url hk) CONNECTING h])
       (written (Hook.name hk) (connecting_partial hk) evs w)).

Definition after_close (h : HookId) (hk : Hook.t) (evs : list Event) (w : World) : World :=
  let w1 := written (Hook.name hk) idle evs w in
  if Hook.autoReconnect hk
  then set_hooks <[h := Hook.with_reconnectTimeout (Some (nextTimer w)) hk]>
         (set_nextTimer S
            (set_timers (fun ts => ts ++ [mkTimer (nextTimer w)
                 (now w + Z.max (Hook.reconnectDelay hk) 0) (Reconnect h)]) w1))
  else w1.

Definition after_error (h : HookId) (hk : Hook.t) (evs : list Event) (w : World) : World :=
  closing (Hook.socket hk)
    (written (Hook.name hk) error_partial evs
       (add_log [ConsoleError "WebSocket error" None] w)).

Definition after_cleanup (h : HookId) (hk : Hook.t) (evs : list Event) (w : World) : World :=
  written (Hook.name hk) idle evs
    (cancelled (Hook.reconnectTimeout hk) (closing (Hook.socket hk) w)).

Definition after_unmount (h : HookId) (hk : Hook.t) (evs : list Event) (w : World) : World :=
  set_hooks <[h := Hook.with_mounted false (Hook.with_timer None hk)]>
    (disarmed h hk (after_cleanup h hk evs w)).

Definition after_disconnect (name : string) (evs : list Event) (w : World) : World :=
  written name idle evs (closing (WebSocketState.socket (read name w)) w).

(** The frames handed to the wire, in order. *)
Definition wire (evs : list Event) : list (SocketId * string) :=
  omap (fun e => match e with Sent s payload => Some (s, payload) | _ => None end) evs.

(** Every run of [m] takes a world to one that [R] relates to it. *)
Definition moves {A} (R : World → World → Prop) (m : M A) : Prop :=
  ∀ w r w', m w = Some (r, w') → R w w'.

Definition same_wire (w w' : World) : Prop := wire (log w') = wire (log w).

(** What [sendWebSocketMessage] hands to [socket.send] for [msg], if
    [JSON.stringify] accepts it. *)
Definition payload_of (stringify : JsValue → Result string) (msg : JsValue) : option string :=
  match is_string msg with
  | Some text => Some text
  | None => match stringify msg with
            | Ok text => Some text
            | Threw _ => None
            end
  end.

(** The payloads that the calls of [sendWebSocketMessage] among the inputs
    ask to send, in order. *)
Definition requested (stringify : JsValue → Result string) (inputs : list Input) :
    list string :=
  omap (fun i => match i with
                 | Send _ msg => payload_of stringify msg
                 | _ => None
                 end) inputs.

(** *** How records, sockets, hooks and reconnect timers hang together *)

(** What holds of every world the program can reach, for listeners that
    only look. *)
Record wired (w : World) : Prop := mkWired {
  one_phase : ∀ name st, state w !! name = Some st →
      WebSocketState.connected st = true → WebSocketState.connecting st = false;
  name_is_key : ∀ name st n, state w !! name = Some st →
      WebSocketState.name st = Some n → n = name;
  connected_is_open : ∀ name st, state w !! name = Some st →
      WebSocketState.connected st = true →
      ∃ s sk, WebSocketState.socket st = Some s ∧ sockets w !! s = Some sk
              ∧ (readyState sk = OPEN ∨ readyState sk = CLOSING);
  handle_of_name : ∀ name st s, state w !! name = Some st →
      WebSocketState.socket st = Some s →
      ∃ sk hk, sockets w !! s = Some sk ∧ hooks w !! handlers sk = Some hk
               ∧ Hook.name hk = name;
  socket_of_hook : ∀ s sk, sockets w !! s = Some sk → readyState sk ≠ CLOSED →
      ∃ hk, hooks w !! handlers sk = Some hk ∧ Hook.socket hk = Some s;
  hook_of_socket : ∀ h hk s, hooks w !! h = Some hk → Hook.socket hk = Some s →
      ∃ sk, sockets w !! s = Some sk ∧ handlers sk = h;
  reconnect_after_close : ∀ t h, t ∈ timers w → task t = Reconnect h →
      h < length (hooks w)
      ∧ ∀ s sk, sockets w !! s = Some sk → handlers sk = h → readyState sk = CLOSED;
  reconnect_once : ∀ h, length (filter (fun t => task t = Reconnect h) (timers w)) ≤ 1;
  reconnect_known : ∀ t h hk, t ∈ timers w → task t = Reconnect h →
      hooks w !! h = Some hk →
      Hook.reconnectTimeout hk = Some (timerId t) ∧ timerId t ≠ 0;
  timer_ids_positive : 0 < nextTimer w
}.

(** The part of a hook that [wired] looks at. *)
Definition wiring_of (hk : Hook.t) : string * option SocketId * option TimerId :=
  (Hook.name hk, Hook.socket hk, Hook.reconnectTimeout hk).

Definition is_reconnect (t : Timer) : Prop :=
  match task t with Reconnect _ => True | Heartbeat _ => False end.

Global Instance is_reconnect_dec t : Decision (is_reconnect t).
Proof. unfold is_reconnect. destruct (task t); apply _. Defined.

(** [w'] has the records, sockets and hook wiring of [w], and no
    reconnect timer that [w] has not. *)
Definition settles (w w' : World) : Prop :=
  state w' = state w ∧ sockets w' = sockets w
  ∧ (wiring_of <$> hooks w') = (wiring_of <$> hooks w)
  ∧ filter is_reconnect (timers w') `sublist_of` filter is_reconnect (timers w)
  ∧ nextTimer w ≤ nextTimer w'.

Definition keeps (I : World → Prop) (w w' : World) : Prop := I w → I w'.

(** A partial record that neither claims a phase nor a socket. *)
Definition harmless (p : Partial.t) : Prop :=
  Partial.name p = None
  ∧ Partial.connected p ≠ Some true ∧ Partial.connecting p ≠ Some true
  ∧ (Partial.socket p = None
     ∨ (Partial.socket p = Some None ∧ Partial.connected p = Some false)).

(** [socket.close()] and the close event, as changes of one socket. *)
Definition close_called (sk : Socket) : Socket :=
  match readyState sk with
  | CONNECTING | OPEN => set_readyState CLOSING sk
  | CLOSING | CLOSED => sk
  end.

(** Options with [autoReconnect] on. *)
Definition reconnecting (name : string) : Options.t :=
  Options.mk name "wss://example.test" (Some true) None None None None.

(** Listeners that throw when called before anything is known of "x". *)
Definition needs_x : Listener → World → Result unit * World :=
  fun _ w =>
    match state w !! "x", latestMessages w !! "x" with
    | None, None => (Threw (Thrown (VStr "nothing yet")), w)
    | _, _ => (Ok tt, w)
    end.

(** A hook that is no longer mounted holds no watchdog timer. *)
Definition unmounted_unarmed (v : View) : Prop :=
  ∀ h hk, v_hooks v !! h = Some hk → Hook.mounted hk = false → Hook.timer hk = None.

(** ** The notifier *)

Section Notifier.

Variable fuel : nat.
Variable listener_body : Listener → World → Result unit * World.

Local Abbreviation invoke := (invoke_listener listener_body).
Local Abbreviation notify := (notifyListeners fuel listener_body).

Lemma bind_ext {A B} (m : M A) (k1 k2 : A → M B) w :
  (∀ a w', m w = Some (Ok a, w') → k1 a w' = k2 a w') →
  bind m k1 w = bind m k2 w.
Proof.
  intros H. unfold bind. destruct (m w) as [[[a|e] w']|]; auto.
Qed.

(** A listener call never escapes the [try]: it ends normally, with the
    error reported when the body threw. *)
Lemma invoke_listener_eq name l w :
  invoke name l w =
  Some (Ok tt,
        match listener_body l (add_log [Invoked name l] w) with
        | (Ok _, w') => w'
        | (Threw e, w') =>
            add_log [ConsoleError ("WebSocket listener for " +:+ dquote +:+ name
                                   +:+ dquote +:+ " threw an error:") (Some e)] w'
        end).
Proof.
  unfold invoke_listener, try_catch, bind, emit, modify, call, console_error,
    add_log; simpl.
  destruct (listener_body l _) as [[[]|e] w']; reflexivity.
Qed.

Lemma for_each_of_invoke_total name ls w :
  ∃ w', for_each_of (invoke name) ls w = Some (Ok tt, w').
Proof.
  revert w. induction ls as [|l ls IH]; intros w; simpl.
  - eexists; reflexivity.
  - unfold bind. rewrite invoke_listener_eq. apply IH.
Qed.

Lemma drop_lookup_cons {A} (xs : list A) i x :
  xs !! i = Some x → drop i xs = x :: drop (S i) xs.
Proof.
  revert i. induction xs as [|y xs IH]; intros [|i] H; simpl in *; try done.
  - by inversion H.
  - by apply IH.
Qed.

(** The walk by index over the live Set is a walk over the entries that
    were there at the start, as long as no call disturbs the entries
    that are still to come. *)
Lemma Set_forEach_fold name es0 :
  (∀ i l w0 w1 r, es0 !! i = Some (Some l) → agree i es0 (entries name w0) →
     invoke name l w0 = Some (r, w1) → agree (S i) es0 (entries name w1)) →
  ∀ n i w,
    agree i es0 (entries name w) →
    (length es0 - i < n ∨ Set_forEach n name (invoke name) i w ≠ None) →
    Set_forEach n name (invoke name) i w
    = for_each_of (invoke name) (omap id (drop i es0)) w.
Proof.
  intros Hkeep. induction n as [|n IH]; intros i w Hag Hn.
  - destruct Hn as [Hn|Hn]; [lia|done].
  - simpl. pose proof Hag as [Hlen Hsame].
    rewrite (Hsame i) by lia.
    destruct (es0 !! i) as [[l|]|] eqn:Hi.
    + pose proof (lookup_lt_Some _ _ _ Hi).
      rewrite (drop_lookup_cons _ _ _ Hi). simpl.
      apply bind_ext. intros [] w' Hw'.
      apply IH.
      * eapply Hkeep; eauto.
      * destruct Hn as [Hn|Hn]; [left; lia|right].
        simpl in Hn. rewrite (Hsame i), Hi in Hn by lia.
        unfold bind in Hn. rewrite Hw' in Hn. done.
    + pose proof (lookup_lt_Some _ _ _ Hi).
      rewrite (drop_lookup_cons _ _ _ Hi). simpl.
      apply IH.
      * split; [done|]. intros j Hj. apply Hsame. lia.
      * destruct Hn as [Hn|Hn]; [left; lia|right].
        simpl in Hn. by rewrite (Hsame i), Hi in Hn by lia.
    + apply lookup_ge_None in Hi. by rewrite drop_ge.
Qed.

Lemma entries_with_set name name' w :
  entries name' (with_set name w) = entries name' w.
Proof.
  unfold with_set, entries. case_bool_decide as H; [|done]. simpl.
  destruct (decide (name = name')) as [->|Hne].
  - by rewrite lookup_insert_eq, H.
  - by rewrite lookup_insert_ne.
Qed.

Lemma getListeners_eq name w :
  getListeners name w = Some (Ok name, with_set name w).
Proof.
  unfold getListeners, with_set, bind, get, when, ret, modify. simpl.
  by case_bool_decide.
Qed.

Lemma notifyListeners_fold name w :
  (∀ i l w0 w1 r, entries name w !! i = Some (Some l) →
     agree i (entries name w) (entries name w0) →
     invoke name l w0 = Some (r, w1) →
     agree (S i) (entries name w) (entries name w1)) →
  (length (entries name w) < fuel ∨ notify name w ≠ None) →
  notify name w = for_each_of (invoke name) (registered name w) (with_set name w).
Proof.
  intros Hkeep Hn. unfold notifyListeners in *.
  unfold bind in *. rewrite getListeners_eq in *.
  rewrite (Set_forEach_fold name (entries name w)); auto.
  - split; [|intros]; by rewrite entries_with_set.
  - destruct Hn; [left; lia|by right].
Qed.

End Notifier.

(** ** Fan-out to listeners that only look *)
Section Observers.

Variable fuel : nat.
Variable listener_body : Listener → World → Result unit * World.
Hypothesis observers : ∀ l w, snd (listener_body l w) = w.

Local Abbreviation invoke := (invoke_listener listener_body).
Local Abbreviation notify := (notifyListeners fuel listener_body).

Lemma add_log_app evs1 evs2 w : add_log evs2 (add_log evs1 w) = add_log (evs1 ++ evs2) w.
Proof. unfold add_log, set_log. simpl. by rewrite app_assoc. Qed.

Lemma add_log_nil w : add_log [] w = w.
Proof. destruct w. unfold add_log, set_log. simpl. by rewrite app_nil_r. Qed.

Lemma invoke_observer name l w :
  ∃ evs, Forall fanout_event evs ∧ invoke name l w = Some (Ok tt, add_log evs w).
Proof.
  rewrite invoke_listener_eq.
  pose proof (observers l (add_log [Invoked name l] w)) as Hw.
  destruct (listener_body l _) as [[[]|e] w']; simpl in Hw; subst w'.
  - exists [Invoked name l]. split; [by repeat constructor|done].
  - eexists [Invoked name l; ConsoleError _ (Some e)].
    split; [by repeat constructor|]. by rewrite add_log_app.
Qed.

Lemma for_each_of_observers name ls w :
  ∃ evs, Forall fanout_event evs ∧
         for_each_of (invoke name) ls w = Some (Ok tt, add_log evs w).
Proof.
  revert w. induction ls as [|l ls IH]; intros w; simpl.
  - exists []. split; [done|]. by rewrite add_log_nil.
  - destruct (invoke_observer name l w) as (evs1 & H1 & E1).
    destruct (IH (add_log evs1 w)) as (evs2 & H2 & E2).
    exists (evs1 ++ evs2). split; [by apply Forall_app|].
    unfold bind. by rewrite E1, E2, add_log_app.
Qed.

Lemma for_each_of_observers_order name ls w :
  ∃ evs, invoked_in name evs = ls ∧
         for_each_of (invoke name) ls w = Some (Ok tt, add_log evs w).
Proof.
  revert w. induction ls as [|l ls IH]; intros w; simpl.
  - exists []. split; [done|]. by rewrite add_log_nil.
  - assert (H1 : ∃ evs1, invoked_in name evs1 = [l]
                         ∧ invoke name l w = Some (Ok tt, add_log evs1 w)).
    { rewrite invoke_listener_eq.
      pose proof (observers l (add_log [Invoked name l] w)) as Hw.
      destruct (listener_body l _) as [[[]|e] w']; simpl in Hw; subst w'.
      - exists [Invoked name l]. split; [|done].
        unfold invoked_in. simpl. by rewrite bool_decide_eq_true_2.
      - eexists [Invoked name l; ConsoleError _ (Some e)]. split.
        + unfold invoked_in. simpl. by rewrite bool_decide_eq_true_2.
        + by rewrite add_log_app. }
    destruct H1 as (evs1 & I1 & E1).
    destruct (IH (add_log evs1 w)) as (evs2 & I2 & E2).
    exists (evs1 ++ evs2). split.
    + unfold invoked_in in *. by rewrite omap_app, I1, I2.
    + unfold bind. by rewrite E1, E2, add_log_app.
Qed.

(** A fan-out either exhausts the budget or appends what it reports to
    the log, and it does not exhaust a budget that exceeds the number of
    entries. *)
Lemma notify_observers name w :
  length (entries name w) < fuel ∨ notify name w ≠ None →
  ∃ evs, Forall fanout_event evs ∧ notify name w = Some (Ok tt, notified name evs w).
Proof.
  intros Hn.
  rewrite notifyListeners_fold; [apply for_each_of_observers| |done].
  intros i l w0 w1 r _ Hag Hinv.
  destruct (invoke_observer name l w0) as (evs & _ & E).
  rewrite E in Hinv. inversion Hinv; subst.
  destruct Hag as [Hlen Hsame]. split; [done|]. intros j Hj. apply Hsame. lia.
Qed.

Lemma notify_cases name w :
  notify name w = None ∨
  ∃ evs, Forall fanout_event evs ∧ notify name w = Some (Ok tt, notified name evs w).
Proof.
  destruct (notify name w) as [r|] eqn:E; [right|by left].
  rewrite <- E. apply notify_observers. right. by rewrite E.
Qed.

Lemma setWebSocketState_observers name partial w :
  length (entries name w) < fuel ∨
    setWebSocketState fuel listener_body name partial w ≠ None →
  ∃ evs, Forall fanout_event evs ∧
    setWebSocketState fuel listener_body name partial w
    = Some (Ok tt, notified name evs (set_state <[name := spread (read name w) partial]> w)).
Proof.
  intros Hn. unfold setWebSocketState, getWebSocketState, bind, get, ret, modify in *.
  simpl in *. apply notify_observers. exact Hn.
Qed.

Lemma setWebSocketState_cases name partial w :
  setWebSocketState fuel listener_body name partial w = None ∨
  ∃ evs, Forall fanout_event evs ∧
    setWebSocketState fuel listener_body name partial w
    = Some (Ok tt, notified name evs (set_state <[name := spread (read name w) partial]> w)).
Proof.
  destruct (setWebSocketState _ _ name partial w) as [r|] eqn:E; [right|by left].
  rewrite <- E. apply setWebSocketState_observers. right. by rewrite E.
Qed.

Lemma addMessage_observers name msg w :
  length (entries name w) < fuel ∨ addMessage fuel listener_body name msg w ≠ None →
  ∃ evs, Forall fanout_event evs ∧
    addMessage fuel listener_body name msg w
    = Some (Ok tt, notified name evs (set_latestMessages <[name := msg]> w)).
Proof.
  intros Hn. unfold addMessage, bind, modify in *. simpl in *.
  apply notify_observers. exact Hn.
Qed.

Lemma addMessage_cases name msg w :
  addMessage fuel listener_body name msg w = None ∨
  ∃ evs, Forall fanout_event evs ∧
    addMessage fuel listener_body name msg w
    = Some (Ok tt, notified name evs (set_latestMessages <[name := msg]> w)).
Proof.
  destruct (addMessage _ _ name msg w) as [r|] eqn:E; [right|by left].
  rewrite <- E. apply addMessage_observers. right. by rewrite E.
Qed.

End Observers.

(** ** The notifier: order, isolation, and unsubscribing during a fan-out *)

Lemma slot_unique (es : list (option Listener)) i j l :
  NoDup (omap id es) → es !! i = Some (Some l) → es !! j = Some (Some l) → i = j.
Proof.
  revert i j. induction es as [|e es IH]; intros i j Hnd Hi Hj; [done|].
  assert (Hin : ∀ k, es !! k = Some (Some l) → l ∈ omap id es).
  { intros k Hk. apply list_elem_of_omap. exists (Some l). split; [|done].
    by eapply list_elem_of_lookup_2. }
  destruct i as [|i], j as [|j]; simpl in *; try done.
  - inversion Hi; subst. simpl in Hnd. apply NoDup_cons in Hnd as [Hnot _].
    destruct Hnot. by eapply Hin.
  - inversion Hj; subst. simpl in Hnd. apply NoDup_cons in Hnd as [Hnot _].
    destruct Hnot. by eapply Hin.
  - f_equal. apply IH; [|done|done].
    destruct e; simpl in Hnd; [by apply NoDup_cons in Hnd as [_ ?]|done].
Qed.

Lemma set_delete_entries_lookup l (es : list (option Listener)) j :
  es !! j ≠ Some (Some l) → set_delete_entries l es !! j = es !! j.
Proof.
  intros H. unfold set_delete_entries. rewrite list_lookup_fmap.
  destruct (es !! j) as [e|]; [simpl|done].
  case_bool_decide; [by subst|done].
Qed.

Lemma entries_add_log name evs w : entries name (add_log evs w) = entries name w.
Proof. done. Qed.

(** The entries a call leaves are those its body leaves. *)
Lemma invoke_entries lb name l w0 w1 r :
  invoke_listener lb name l w0 = Some (r, w1) →
  entries name w1 = entries name (snd (lb l (add_log [Invoked name l] w0))).
Proof.
  rewrite invoke_listener_eq. intros H. inversion H; subst.
  by destruct (lb l _) as [[[]|e] w'].
Qed.

(** Fan-out when each listener leaves the Set alone or removes only
    itself: every callback registered at the start is called, in order. *)
Lemma fanout_self_removal fuel lb name w :
  NoDup (registered name w) →
  (∀ l w0, l ∈ registered name w →
     entries name (snd (lb l w0)) = entries name w0 ∨
     entries name (snd (lb l w0)) = set_delete_entries l (entries name w0)) →
  length (entries name w) < fuel →
  notifyListeners fuel lb name w
  = for_each_of (invoke_listener lb name) (registered name w) (with_set name w).
Proof.
  intros Hnd Hself Hfuel.
  apply notifyListeners_fold; [|by left].
  intros i l w0 w1 r Hi [Hlen Hsame] Hinv.
  apply invoke_entries in Hinv. rewrite Hinv.
  assert (Hl : l ∈ registered name w).
  { apply list_elem_of_omap. exists (Some l). split; [|done].
    by eapply list_elem_of_lookup_2. }
  destruct (Hself l (add_log [Invoked name l] w0) Hl) as [-> | ->];
    rewrite entries_add_log.
  - split; [done|]. intros j Hj. apply Hsame. lia.
  - split; [unfold set_delete_entries; by rewrite length_fmap|].
    intros j Hj. rewrite set_delete_entries_lookup; [apply Hsame; lia|].
    rewrite Hsame by lia. intros Hjl.
    pose proof (slot_unique _ _ _ _ Hnd Hi Hjl). lia.
Qed.

(** C7, amended: for a name that [Object.prototype] does not define and
    callbacks that leave the listener Set of [name] alone, a fan-out calls
    every registered callback in registration order; a callback that
    throws is reported on the console and neither stops the callbacks
    after it nor reaches the caller of [notifyListeners]. *)
Theorem C7_listener_isolation fuel lb (name : string) (w : World) :
  inherited name = false →
  (∀ l w0, l ∈ registered name w → entries name (snd (lb l w0)) = entries name w0) →
  length (entries name w) < fuel →
  notifyListeners fuel lb name w
  = for_each_of (invoke_listener lb name) (registered name w) (with_set name w)
  ∧ (∃ w', notifyListeners fuel lb name w = Some (Ok tt, w'))
  ∧ (∀ l w0,
       match lb l (add_log [Invoked name l] w0) with
       | (Ok _, w1) => invoke_listener lb name l w0 = Some (Ok tt, w1)
       | (Threw e, w1) =>
           invoke_listener lb name l w0
           = Some (Ok tt,
                   add_log [ConsoleError ("WebSocket listener for " +:+ dquote +:+ name
                                          +:+ dquote +:+ " threw an error:") (Some e)] w1)
       end)
  ∧ ((∀ l w0, snd (lb l w0) = w0) →
     ∃ evs, notifyListeners fuel lb name w = Some (Ok tt, notified name evs w)
            ∧ invoked_in name evs = registered name w).
Proof.
  intros _ Hkeep Hfuel.
  assert (E : notifyListeners fuel lb name w
              = for_each_of (invoke_listener lb name) (registered name w)
                  (with_set name w)).
  { apply notifyListeners_fold; [|by left].
    intros i l w0 w1 r Hi [Hlen Hsame] Hinv.
    apply invoke_entries in Hinv. rewrite Hinv, Hkeep, entries_add_log.
    - split; [done|]. intros j Hj. apply Hsame. lia.
    - apply list_elem_of_omap. exists (Some l). split; [|done].
      by eapply list_elem_of_lookup_2. }
  split; [exact E|]. split; [|split].
  - rewrite E. apply for_each_of_invoke_total.
  - intros l w0. rewrite invoke_listener_eq.
    by destruct (lb l _) as [[[]|e] w1].
  - intros Hobs. rewrite E.
    destruct (for_each_of_observers_order lb Hobs name (registered name w)
                (with_set name w)) as (evs & Hin & Hrun).
    exists evs. by split.
Qed.

(** Two listeners on "x", the first throws: both are called, the error of
    the first is reported, and the fan-out ends normally. *)
Lemma C7_first_throws_second_runs :
  notifyListeners 3 first_throws "x" two_listeners
  = for_each_of (invoke_listener first_throws "x") (registered "x" two_listeners)
      (with_set "x" two_listeners)
  ∧ (∃ w', notifyListeners 3 first_throws "x" two_listeners = Some (Ok tt, w'))
  ∧ (∀ l w0,
       match first_throws l (add_log [Invoked "x" l] w0) with
       | (Ok _, w1) => invoke_listener first_throws "x" l w0 = Some (Ok tt, w1)
       | (Threw e, w1) =>
           invoke_listener first_throws "x" l w0
           = Some (Ok tt,
                   add_log [ConsoleError ("WebSocket listener for " +:+ dquote +:+ "x"
                                          +:+ dquote +:+ " threw an error:") (Some e)] w1)
       end)
  ∧ ((∀ l w0, snd (first_throws l w0) = w0) →
     ∃ evs, notifyListeners 3 first_throws "x" two_listeners
            = Some (Ok tt, notified "x" evs two_listeners)
            ∧ invoked_in "x" evs = registered "x" two_listeners).
Proof.
  apply (C7_listener_isolation 3 first_throws "x" two_listeners).
  - reflexivity.
  - intros l w0 _. unfold first_throws. by case_bool_decide.
  - vm_compute. lia.
Defined.

(** C7, as it fails: listener 1 of "x" unsubscribes listener 2 and then
    throws.  The error is reported; listener 2, which was registered when
    the fan-out began, is never called. *)
Lemma C7_unsubscribed_listener_is_not_called :
  ∃ w', notifyListeners 3 drops_next_and_throws "x" two_listeners = Some (Ok tt, w')
        ∧ registered "x" two_listeners = [1; 2]
        ∧ log w'
          = [Invoked "x" 1;
             ConsoleError ("WebSocket listener for " +:+ dquote +:+ "x" +:+ dquote
                           +:+ " threw an error:") (Some (Thrown (VStr "boom")))]
        ∧ Invoked "x" 2 ∉ log w'.
Proof.
  eexists. split; [vm_compute; reflexivity|]. split; [reflexivity|].
  split; [reflexivity|].
  simpl. intros H. apply list_elem_of_In in H. simpl in H.
  destruct H as [E|[E|[]]]; discriminate E.
Qed.

Example two_listeners_by_subscription :
  listeners (after [Subscribe "x" 1; Subscribe "x" 2]) = listeners two_listeners.
Proof. vm_compute. reflexivity. Qed.

Example first_throws_log :
  (fun r => log (snd r)) <$> notifyListeners 3 first_throws "x" two_listeners
  = Some [Invoked "x" 1;
          ConsoleError ("WebSocket listener for " +:+ dquote +:+ "x" +:+ dquote
                        +:+ " threw an error:") (Some (Thrown (VStr "boom")));
          Invoked "x" 2].
Proof. vm_compute. reflexivity. Qed.

Lemma entries_call_handle name l w :
  entries name (call_handle name l w) = set_delete_entries l (entries name w).
Proof.
  unfold call_handle, unsubscribe, Set_delete, entries. simpl.
  by rewrite lookup_insert_eq.
Qed.

(** C6, as it fails: listener 1 of "x" unsubscribes listener 2 while the
    fan-out is at listener 1; listener 2 was registered when the fan-out
    began and is never called. *)
Lemma C6_unsubscribed_before_its_turn_is_skipped :
  ∃ w', notifyListeners 3 drops_next "x" two_listeners = Some (Ok tt, w')
        ∧ 2 ∈ registered "x" two_listeners
        ∧ Invoked "x" 2 ∉ log w'.
Proof.
  eexists. split; [vm_compute; reflexivity|]. split.
  - change (registered "x" two_listeners) with [1; 2]. set_solver.
  - simpl. intros H. apply list_elem_of_In in H. simpl in H.
    destruct H as [E|[]]. discriminate E.
Qed.

Lemma set_delete_all_lookup gone (es : list (option Listener)) j :
  set_delete_all gone es !! j
  = (fun e => match e with
              | Some l => if bool_decide (l ∈ gone) then None else Some l
              | None => None
              end) <$> es !! j.
Proof.
  induction gone as [|g gone IH]; simpl.
  - by destruct (es !! j) as [[l|]|].
  - unfold set_delete_entries at 1. rewrite list_lookup_fmap, IH.
    destruct (es !! j) as [[l|]|]; simpl; try done.
    destruct (decide (l ∈ gone)) as [Hin|Hout].
    + rewrite (bool_decide_eq_true_2 (l ∈ gone)) by done.
      rewrite (bool_decide_eq_true_2 (l ∈ g :: gone)) by (apply elem_of_cons; by right).
      by rewrite bool_decide_eq_false_2.
    + rewrite (bool_decide_eq_false_2 (l ∈ gone)) by done.
      destruct (decide (l = g)) as [->|Hne].
      * rewrite (bool_decide_eq_true_2 (g ∈ g :: gone)) by (apply elem_of_cons; by left).
        by rewrite bool_decide_eq_true_2.
      * rewrite (bool_decide_eq_false_2 (l ∈ g :: gone))
          by (intros [?|?]%elem_of_cons; done).
        rewrite bool_decide_eq_false_2; [done|]. intros [= ?]. done.
Qed.

Lemma set_delete_all_app gone1 gone2 (es : list (option Listener)) :
  set_delete_all gone1 (set_delete_all gone2 es) = set_delete_all (gone1 ++ gone2) es.
Proof. unfold set_delete_all. by rewrite foldr_app. Qed.

(** The walk by index over the live Set, when the callbacks only
    unsubscribe: it calls what [visited] lists. *)
Lemma Set_forEach_visited lb name drops es0 :
  (∀ l w0, entries name (snd (lb l w0)) = set_delete_all (drops l) (entries name w0)) →
  ∀ n i gone w,
    entries name w = set_delete_all gone es0 →
    length es0 - i < n →
    Set_forEach n name (invoke_listener lb name) i w
    = for_each_of (invoke_listener lb name) (visited drops gone (drop i es0)) w.
Proof.
  intros Hdrops. induction n as [|n IH]; intros i gone w Hes Hn; [lia|].
  simpl. rewrite Hes, set_delete_all_lookup.
  destruct (es0 !! i) as [[l|]|] eqn:Hi; simpl.
  - pose proof (lookup_lt_Some _ _ _ Hi).
    rewrite (drop_lookup_cons _ _ _ Hi). simpl.
    case_bool_decide as Hg.
    + apply IH; [done|lia].
    + apply bind_ext. intros [] w' Hw'. apply IH; [|lia].
      apply invoke_entries in Hw'.
      by rewrite Hw', Hdrops, entries_add_log, Hes, set_delete_all_app.
  - pose proof (lookup_lt_Some _ _ _ Hi).
    rewrite (drop_lookup_cons _ _ _ Hi). simpl. apply IH; [done|lia].
  - apply lookup_ge_None in Hi. by rewrite drop_ge.
Qed.

Lemma visited_not_gone drops gone es x :
  x ∈ visited drops gone es → x ∉ gone.
Proof.
  revert gone. induction es as [|[l|] es IH]; intros gone; simpl.
  - by intros ?%elem_of_nil.
  - case_bool_decide as Hg; [apply IH|].
    intros [->|Hx]%elem_of_cons; [done|].
    apply IH in Hx. intros Hin. apply Hx, elem_of_app. by right.
  - apply IH.
Qed.

Lemma visited_dropped drops gone es pre a post b :
  visited drops gone es = pre ++ a :: post → b ∈ drops a → b ∉ post.
Proof.
  revert gone pre. induction es as [|[l|] es IH]; intros gone pre; simpl.
  - by destruct pre.
  - case_bool_decide as Hg; [apply IH|].
    destruct pre as [|p pre]; simpl; intros [= <- E] Hb.
    + rewrite <- E. intros Hin%visited_not_gone.
      apply Hin, elem_of_app. by left.
    + by eapply IH.
  - apply IH.
Qed.

Lemma visited_complete drops gone es l :
  l ∈ omap id es → l ∉ gone → l ∉ visited drops gone es →
  ∃ a, a ∈ visited drops gone es ∧ l ∈ drops a.
Proof.
  revert gone. induction es as [|[x|] es IH]; intros gone; simpl.
  - by intros ?%elem_of_nil.
  - intros Hin Hg. case_bool_decide as Hx.
    + apply elem_of_cons in Hin as [->|Hin]; [done|]. by apply IH.
    + intros Hv. apply not_elem_of_cons in Hv as [Hne Hv].
      apply elem_of_cons in Hin as [->|Hin]; [done|].
      destruct (decide (l ∈ drops x)) as [Hd|Hd].
      * exists x. split; [|done]. apply elem_of_cons. by left.
      * destruct (IH (drops x ++ gone) Hin) as (a & Ha & Hl); [|done|].
        -- intros [?|?]%elem_of_app; done.
        -- exists a. split; [|done]. apply elem_of_cons. by right.
  - apply IH.
Qed.

Lemma visited_sublist drops gone es :
  visited drops gone es `sublist_of` omap id es.
Proof.
  revert gone. induction es as [|[l|] es IH]; intros gone; simpl.
  - done.
  - case_bool_decide; [by apply sublist_cons|by apply sublist_skip].
  - apply IH.
Qed.

(** C6, amended: the fan-out walks the live listener Set, here for a
    name that [Object.prototype] does not define.
    - When the callbacks leave the Set alone or unsubscribe only
      themselves, every callback that was registered when the fan-out
      began is called, in registration order, and the fan-out ends
      normally.
    - When the call of [l] unsubscribes the callbacks [drops l], the
      fan-out calls what [visited] lists and ends normally: these are
      callbacks that were registered when it began, in registration
      order; a callback that one called before it has unsubscribed is not
      called, and only such a callback is left out. *)
Theorem C6_fanout_walks_the_live_set fuel lb (name : string) (w : World) :
  inherited name = false →
  length (entries name w) < fuel →
  (NoDup (registered name w) →
   (∀ l w0, l ∈ registered name w →
      entries name (snd (lb l w0)) = entries name w0 ∨
      entries name (snd (lb l w0)) = set_delete_entries l (entries name w0)) →
   notifyListeners fuel lb name w
   = for_each_of (invoke_listener lb name) (registered name w) (with_set name w)
   ∧ ∃ w', notifyListeners fuel lb name w = Some (Ok tt, w'))
  ∧ (∀ drops,
       (∀ l w0, entries name (snd (lb l w0))
                = set_delete_all (drops l) (entries name w0)) →
       notifyListeners fuel lb name w
       = for_each_of (invoke_listener lb name) (visited drops [] (entries name w))
           (with_set name w)
       ∧ (∃ w', notifyListeners fuel lb name w = Some (Ok tt, w'))
       ∧ visited drops [] (entries name w) `sublist_of` registered name w
       ∧ (∀ pre a post b,
            visited drops [] (entries name w) = pre ++ a :: post →
            b ∈ drops a → b ∉ post)
       ∧ ∀ l, l ∈ registered name w → l ∉ visited drops [] (entries name w) →
              ∃ a, a ∈ visited drops [] (entries name w) ∧ l ∈ drops a).
Proof.
  intros _ Hfuel. split.
  - intros Hnd Hself.
    rewrite (fanout_self_removal fuel lb name w Hnd Hself Hfuel).
    split; [done|]. apply for_each_of_invoke_total.
  - intros drops Hdrops.
    assert (E : notifyListeners fuel lb name w
                = for_each_of (invoke_listener lb name)
                    (visited drops [] (entries name w)) (with_set name w)).
    { unfold notifyListeners, bind. rewrite getListeners_eq.
      rewrite (Set_forEach_visited lb name drops (entries name w) Hdrops fuel 0 []);
        [done| |lia].
      by rewrite entries_with_set. }
    split; [exact E|]. split; [|split; [|split]].
    + rewrite E. apply for_each_of_invoke_total.
    + apply visited_sublist.
    + intros pre a post b. apply visited_dropped.
    + intros l Hl. apply visited_complete; [exact Hl|apply not_elem_of_nil].
Qed.

Lemma C6_fanout_witness :
  notifyListeners 3 drops_itself "x" two_listeners
  = for_each_of (invoke_listener drops_itself "x") [1; 2] (with_set "x" two_listeners)
  ∧ notifyListeners 3 drops_next "x" two_listeners
    = for_each_of (invoke_listener drops_next "x") [1] (with_set "x" two_listeners).
Proof.
  split.
  - destruct (C6_fanout_walks_the_live_set 3 drops_itself "x" two_listeners)
      as [H _]; [reflexivity|vm_compute; lia|].
    destruct H as [E _]; [| |exact E].
    + change (registered "x" two_listeners) with [1; 2].
      apply NoDup_cons. split; [|apply NoDup_singleton].
      intros E%list_elem_of_singleton. discriminate E.
    + intros l w0 _. right. apply entries_call_handle.
  - destruct (C6_fanout_walks_the_live_set 3 drops_next "x" two_listeners)
      as [_ H]; [reflexivity|vm_compute; lia|].
    destruct (H dropped_by_first) as [E _]; [|exact E].
    intros l w0. unfold drops_next, dropped_by_first.
    case_bool_decide; [apply entries_call_handle|done].
Defined.

Example drops_itself_log :
  (fun r => (log (snd r), entries "x" (snd r)))
    <$> notifyListeners 3 drops_itself "x" two_listeners
  = Some ([Invoked "x" 1; Invoked "x" 2], [None; None]).
Proof. vm_compute. reflexivity. Qed.

(** ** Reading the store *)

(** C10, for the names that [Object.prototype] does not define: for such
    a name without an entry, [getWebSocketState] returns the default
    record, whose [name] is null, and leaves the store as it was: the
    name still has no entry. *)
Theorem unknown_name_reads_default (name : string) (w : World) :
  inherited name = false →
  state w !! name = None →
  ∃ st w',
    getWebSocketState name w = Some (Ok st, w')
    ∧ WebSocketState.name st = None
    ∧ WebSocketState.socket st = None
    ∧ WebSocketState.connected st = false
    ∧ WebSocketState.connecting st = false
    ∧ WebSocketState.messages st = []
    ∧ WebSocketState.storeHistory st = false
    ∧ w' = w
    ∧ state w' !! name = None.
Proof.
  intros _ H. exists defaultState, w.
  unfold getWebSocketState, bind, get, ret. simpl. rewrite H. by repeat split.
Qed.

Lemma never_seen_reads_default :
  ∃ st w',
    getWebSocketState "never-seen" (initial 0) = Some (Ok st, w')
    ∧ WebSocketState.name st = None
    ∧ WebSocketState.socket st = None
    ∧ WebSocketState.connected st = false
    ∧ WebSocketState.connecting st = false
    ∧ WebSocketState.messages st = []
    ∧ WebSocketState.storeHistory st = false
    ∧ w' = initial 0
    ∧ state w' !! "never-seen" = None.
Proof.
  apply (unknown_name_reads_default "never-seen" (initial 0)); reflexivity.
Defined.

(** Outside the inherited names, the caller of [getWebSocketState] gets
    what the program's own reads get. *)
Lemma returned_state_read (name : string) (w : World) :
  inherited name = false → returned_state name w = Own (read name w).
Proof.
  intros H. unfold returned_state, lookup_plain, read. rewrite H.
  by destruct (state w !! name).
Qed.

(** C10, evaluated at the failing input: nothing was ever stored under
    "constructor", and [getWebSocketState("constructor")] returns what
    every plain object inherits under that name, the function [Object],
    instead of the default record. *)
Lemma C10_inherited_name_reads_a_builtin :
  state (initial 0) !! "constructor" = None
  ∧ returned_state "constructor" (initial 0) = BuiltIn
  ∧ returned_state "constructor" (initial 0) ≠ Own defaultState.
Proof. repeat split. discriminate. Qed.

(** ** Connecting *)

Lemma getWebSocketState_eq name w : getWebSocketState name w = Some (Ok (read name w), w).
Proof. done. Qed.

(** The guard of line 99: [connect] for a name whose record says
    connecting or connected returns at once; no socket is created, the
    record is not written and no listener is notified: the world is
    unchanged. *)
Theorem C3_connect_is_noop_when_busy fuel lb (h : HookId) (hk : Hook.t) (w : World) :
  hooks w !! h = Some hk →
  WebSocketState.connected (read (Hook.name hk) w)
    || WebSocketState.connecting (read (Hook.name hk) w) = true →
  connect fuel lb h w = Some (Ok tt, w).
Proof.
  intros Hh Hbusy. unfold read in Hbusy.
  unfold connect, in_hook, bind, get, getWebSocketState, ret. simpl.
  rewrite Hh. simpl. by rewrite Hbusy.
Qed.

(** C3, on the code: a component mounts [useWebSocketConnect] for "x";
    [disconnectWebSocket("x")] is called while the socket is still
    connecting (the record holds no socket handle before the open event,
    so line 173 closes nothing, and the phase goes back to idle); a
    second component mounts for "x".  Two sockets of "x" are now
    connecting. *)
Lemma C3_two_live_sockets_for_one_name :
  ∃ w, run 3 quiet Json.parse Json.stringify
         [Mount (opts "x"); Disconnect "x"; Mount (opts "x")] (initial 0) = Some w
       ∧ ¬ (length (live_sockets "x" w) ≤ 1).
Proof.
  eexists. split; [vm_compute; reflexivity|].
  vm_compute. lia.
Qed.

Lemma C3_connect_twice :
  ∃ w, run 3 quiet Json.parse Json.stringify [Mount (opts "x")] (initial 0)
       = Some w
       ∧ connect 3 quiet 0 w = Some (Ok tt, w).
Proof.
  eexists. split; [vm_compute; reflexivity|].
  eapply C3_connect_is_noop_when_busy; vm_compute; reflexivity.
Defined.

(** ** Sending *)

Lemma add_log_eq evs w : set_log (fun l => l ++ evs) w = add_log evs w.
Proof. done. Qed.

(** C9: [sendWebSocketMessage] always returns normally.  Without a
    connected record it only warns; with one, a string goes out as it is
    and any other payload as its JSON text; a failure of
    [JSON.stringify] or of [socket.send] is reported on the console. *)
Theorem C9_send stringify (name : string) (msg : JsValue) (w : World) :
  (∃ w', sendWebSocketMessage stringify name msg w = Some (Ok tt, w'))
  ∧ (WebSocketState.connected (read name w) = false
       ∨ WebSocketState.socket (read name w) = None →
     sendWebSocketMessage stringify name msg w
     = Some (Ok tt, add_log [ConsoleWarn "WebSocket is not connected. Cannot send message:"
                                         (Some name)] w))
  ∧ (∀ s payload,
       WebSocketState.connected (read name w) = true →
       WebSocketState.socket (read name w) = Some s →
       (msg = VStr payload ∨ (is_string msg = None ∧ stringify msg = Ok payload)) →
       sendWebSocketMessage stringify name msg w
       = match readyState <$> sockets w !! s with
         | Some OPEN => Some (Ok tt, add_log [Sent s payload] w)
         | Some CONNECTING =>
             Some (Ok tt, add_log [ConsoleError "Failed to send WebSocket message:"
                                                (Some InvalidStateError)] w)
         | _ => Some (Ok tt, w)
         end)
  ∧ (∀ s e,
       WebSocketState.connected (read name w) = true →
       WebSocketState.socket (read name w) = Some s →
       is_string msg = None → stringify msg = Threw e →
       sendWebSocketMessage stringify name msg w
       = Some (Ok tt, add_log [ConsoleError "Failed to send WebSocket message:" (Some e)] w)).
Proof.
  unfold sendWebSocketMessage, bind. rewrite getWebSocketState_eq.
  destruct (WebSocketState.connected (read name w)) eqn:Hc;
    destruct (WebSocketState.socket (read name w)) as [s|] eqn:Hs.
  2-4: repeat split; try (intros; congruence); try (intros; reflexivity);
       try (eexists; reflexivity); intros [?|?]; congruence.
  assert (Hsend : ∀ payload,
            try_catch (socket_send s payload)
              (fun err => console_error "Failed to send WebSocket message:" (Some err)) w
            = match readyState <$> sockets w !! s with
              | Some OPEN => Some (Ok tt, add_log [Sent s payload] w)
              | Some CONNECTING =>
                  Some (Ok tt, add_log [ConsoleError "Failed to send WebSocket message:"
                                                     (Some InvalidStateError)] w)
              | _ => Some (Ok tt, w)
              end).
  { intros payload. unfold try_catch, socket_send, bind, get. simpl.
    destruct (sockets w !! s) as [[u [] hh]|]; reflexivity. }
  repeat split.
  - destruct (is_string msg) as [text|] eqn:Hstr.
    + unfold try_catch, bind, ret in *. specialize (Hsend text).
      destruct (socket_send s text w) as [[[[]|e] w']|] eqn:E;
        simpl in *; rewrite ?E in *; simpl in *;
        destruct (readyState <$> sockets w !! s) as [[]|]; eauto; try discriminate.
    + destruct (stringify msg) as [payload|e] eqn:Hj.
      * unfold try_catch, bind, ret in *. specialize (Hsend payload).
        destruct (socket_send s payload w) as [[[[]|e] w']|] eqn:E;
          simpl in *; rewrite ?E in *; simpl in *;
          destruct (readyState <$> sockets w !! s) as [[]|]; eauto; try discriminate.
      * eexists. reflexivity.
  - intros [?|?]; congruence.
  - intros s' payload _ [= <-] [-> | [Hn Hj]].
    + simpl. apply Hsend.
    + rewrite Hn, Hj. apply Hsend.
  - intros s' e _ [= <-] Hn Hj. rewrite Hn, Hj. reflexivity.
Qed.

Lemma C9_send_witness :
  sendWebSocketMessage Json.stringify "x" (VObj [("data"%string, VBool true)]) connected_world
  = Some (Ok tt,
          add_log [Sent 0 (Json.serialize (VObj [("data"%string, VBool true)]))]
                  connected_world)
  ∧ sendWebSocketMessage Json.stringify "y" (VStr "hello") connected_world
    = Some (Ok tt, add_log [ConsoleWarn "WebSocket is not connected. Cannot send message:"
                                        (Some "y"%string)] connected_world)
  ∧ sendWebSocketMessage no_stringify "x" VNull connected_world
    = Some (Ok tt, add_log [ConsoleError "Failed to send WebSocket message:"
                                         (Some TypeError)] connected_world).
Proof.
  split; [|split].
  - destruct (C9_send Json.stringify "x" (VObj [("data"%string, VBool true)]) connected_world)
      as (_ & _ & H & _).
    apply (H 0 (Json.serialize (VObj [("data"%string, VBool true)]))).
    + reflexivity.
    + reflexivity.
    + right. split; reflexivity.
  - destruct (C9_send Json.stringify "y" (VStr "hello") connected_world) as (_ & H & _).
    apply H. left. reflexivity.
  - destruct (C9_send no_stringify "x" VNull connected_world)
      as (_ & _ & _ & H).
    apply (H 0 TypeError); reflexivity.
Defined.

(** ** Symbolic execution of the hook *)

Ltac wsimpl :=
  cbn [hooks timers nextTimer now state listeners latestMessages sockets log
       set_hooks set_timers set_nextTimer set_state set_listeners set_latestMessages
       set_sockets set_log set_now add_log notified negb andb orb fst snd
       Hook.name Hook.url Hook.autoReconnect Hook.reconnectDelay Hook.storeHistory
       Hook.maxMessages Hook.heartbeatInterval Hook.socket Hook.reconnectTimeout
       Hook.lastMessageTime Hook.timer Hook.mounted
       Hook.with_socket Hook.with_reconnectTimeout Hook.with_lastMessageTime
       Hook.with_timer Hook.with_mounted].

Lemma in_hook_eq {A} h (d : A) body w hk :
  hooks w !! h = Some hk → in_hook h d body w = body hk w.
Proof. intros H. unfold in_hook, bind, get. by rewrite H. Qed.

Lemma in_hook_none {A} h (d : A) body w :
  hooks w !! h = None → in_hook h d body w = Some (Ok d, w).
Proof. intros H. unfold in_hook, bind, get. by rewrite H. Qed.

Lemma update_hook_eq h f w hk :
  hooks w !! h = Some hk →
  update_hook h f w = Some (Ok tt, set_hooks <[h := f hk]> w).
Proof. intros H. unfold update_hook, modify, set_hooks. by rewrite H. Qed.

Lemma hooks_insert_lookup h hk' w hk :
  hooks w !! h = Some hk → hooks (set_hooks <[h := hk']> w) !! h = Some hk'.
Proof. intros H. wsimpl. apply list_lookup_insert_eq. by eapply lookup_lt_Some. Qed.

Lemma with_timer_None_id hk : Hook.timer hk = None → Hook.with_timer None hk = hk.
Proof. destruct hk. simpl. by intros ->. Qed.

Lemma heartbeat_cleanup_eq h hk w :
  hooks w !! h = Some hk →
  heartbeat_cleanup h w = Some (Ok tt, disarmed h hk w).
Proof.
  intros H. unfold heartbeat_cleanup, disarmed. rewrite (in_hook_eq _ _ _ _ _ H).
  destruct (Hook.timer hk) as [id|]; [|done].
  unfold bind, clearTimeout, modify. erewrite update_hook_eq; [done|done].
Qed.

Lemma hooks_disarmed h hk w :
  hooks w !! h = Some hk → hooks (disarmed h hk w) !! h = Some (Hook.with_timer None hk).
Proof.
  intros H. unfold disarmed. destruct (Hook.timer hk) eqn:E.
  - wsimpl. apply list_lookup_insert_eq. by eapply lookup_lt_Some.
  - by rewrite with_timer_None_id.
Qed.

Lemma heartbeat_effect_eq h hk w :
  hooks w !! h = Some hk →
  heartbeat_effect h w = Some (Ok tt, armed h hk w).
Proof.
  intros H. unfold heartbeat_effect, armed. rewrite (in_hook_eq _ _ _ _ _ H).
  case_bool_decide; [done|].
  destruct (Hook.lastMessageTime hk); [|done].
  unfold bind, setTimeout, bind, get, modify, ret. wsimpl.
  erewrite update_hook_eq; [done|done].
Qed.

Lemma setLastMessageTime_eq h hk t w :
  hooks w !! h = Some hk →
  setLastMessageTime h t w = Some (Ok tt, touched h hk t w).
Proof.
  intros H. unfold setLastMessageTime, touched. rewrite (in_hook_eq _ _ _ _ _ H).
  destruct (Hook.mounted hk); [|done]. wsimpl.
  case_bool_decide; [done|].
  unfold bind. rewrite (update_hook_eq _ _ _ _ H).
  pose proof (hooks_insert_lookup h (Hook.with_lastMessageTime (Some t) hk) w hk H) as H1.
  rewrite (heartbeat_cleanup_eq _ _ _ H1).
  apply heartbeat_effect_eq. by apply hooks_disarmed.
Qed.

Lemma decode_eq parse data w :
  decode parse data w
  = Some (Ok (decoded parse data), add_log (decode_events parse data) w).
Proof.
  unfold decode, decoded, decode_events.
  destruct (is_string data) as [text|]; [|by rewrite add_log_nil].
  unfold try_catch, bind, console_warn, emit, modify, ret, throw.
  destruct (parse text); [by rewrite add_log_nil|done].
Qed.

(** [getListeners] and the log do not touch the rest of the world. *)
Lemma with_set_fields name w :
  state (with_set name w) = state w ∧ latestMessages (with_set name w) = latestMessages w
  ∧ now (with_set name w) = now w ∧ sockets (with_set name w) = sockets w
  ∧ timers (with_set name w) = timers w ∧ nextTimer (with_set name w) = nextTimer w
  ∧ hooks (with_set name w) = hooks w ∧ log (with_set name w) = log w.
Proof. unfold with_set. by case_bool_decide. Qed.

Lemma state_notified name evs w : state (notified name evs w) = state w.
Proof. apply (with_set_fields name w). Qed.
Lemma latestMessages_notified name evs w :
  latestMessages (notified name evs w) = latestMessages w.
Proof. apply (with_set_fields name w). Qed.
Lemma now_notified name evs w : now (notified name evs w) = now w.
Proof. apply (with_set_fields name w). Qed.
Lemma sockets_notified name evs w : sockets (notified name evs w) = sockets w.
Proof. apply (with_set_fields name w). Qed.
Lemma timers_notified name evs w : timers (notified name evs w) = timers w.
Proof. apply (with_set_fields name w). Qed.
Lemma nextTimer_notified name evs w : nextTimer (notified name evs w) = nextTimer w.
Proof. apply (with_set_fields name w). Qed.
Lemma hooks_notified name evs w : hooks (notified name evs w) = hooks w.
Proof. apply (with_set_fields name w). Qed.
Lemma log_notified name evs w : log (notified name evs w) = log w ++ evs.
Proof.
  unfold notified, add_log. wsimpl. f_equal. apply (with_set_fields name w).
Qed.
Lemma read_notified name name' evs w : read name' (notified name evs w) = read name' w.
Proof. unfold read. by rewrite state_notified. Qed.


Lemma listeners_disarmed h hk w : listeners (disarmed h hk w) = listeners w.
Proof. unfold disarmed. by destruct (Hook.timer hk). Qed.

Lemma listeners_armed h hk w : listeners (armed h hk w) = listeners w.
Proof.
  unfold armed. case_bool_decide; [done|]. by destruct (Hook.lastMessageTime hk).
Qed.

Lemma listeners_touched h hk t w : listeners (touched h hk t w) = listeners w.
Proof.
  unfold touched. destruct (Hook.mounted hk); [|done]. wsimpl.
  case_bool_decide; [done|]. by rewrite listeners_armed, listeners_disarmed.
Qed.

Lemma entries_touched name h hk t w : entries name (touched h hk t w) = entries name w.
Proof. unfold entries. by rewrite listeners_touched. Qed.

Lemma entries_notified name name' evs w :
  entries name' (notified name evs w) = entries name' w.
Proof. unfold notified. by rewrite entries_add_log, entries_with_set. Qed.

Section Supervisor.

Variable fuel : nat.
Variable listener_body : Listener → World → Result unit * World.
Variable JSON_parse : string → Result JsValue.
Hypothesis observers : ∀ l w, snd (listener_body l w) = w.

Lemma onmessage_observers h hk data w :
  hooks w !! h = Some hk →
  length (entries (Hook.name hk) w) < fuel
    ∨ onmessage fuel listener_body JSON_parse h data w ≠ None →
  ∃ evs1 evs2,
    Forall fanout_event evs1 ∧ Forall fanout_event evs2 ∧
    onmessage fuel listener_body JSON_parse h data w
    = Some (Ok tt, after_message JSON_parse h hk data evs1 evs2 w).
Proof.
  intros Hh Hn. unfold onmessage, after_message in *.
  rewrite (in_hook_eq _ _ _ _ _ Hh) in *.
  unfold try_catch, bind in *. rewrite decode_eq in *. unfold get in *.
  set (msg := mkMessage (decoded JSON_parse data) (now w)) in *.
  set (w0 := add_log (decode_events JSON_parse data) w) in *.
  change (now w0) with (now w) in *. fold msg in Hn |- *.
  destruct (addMessage_observers fuel listener_body observers (Hook.name hk) msg w0)
    as (evs1 & F1 & E1).
  { destruct Hn as [Hn|Hn]; [by left|right].
    intros HN. apply Hn. by rewrite HN. }
  rewrite E1 in *. exists evs1.
  set (w1 := notified (Hook.name hk) evs1 _) in *.
  assert (Hh1 : hooks w1 !! h = Some hk) by (unfold w1; by rewrite hooks_notified).
  assert (E2 : when (negb (bool_decide (Hook.heartbeatInterval hk = 0%Z)))
                 (setLastMessageTime h (now w1)) w1
               = Some (Ok tt, if bool_decide (Hook.heartbeatInterval hk = 0%Z) then w1
                              else touched h hk (now w) w1)).
  { unfold when. case_bool_decide; [done|]. cbn [negb].
    rewrite (setLastMessageTime_eq _ _ _ _ Hh1).
    replace (now w1) with (now w); [done|]. unfold w1. by rewrite now_notified. }
  rewrite E2 in *.
  set (w2 := if bool_decide _ then w1 else _) in *.
  unfold when in *. destruct (Hook.storeHistory hk).
  - unfold bind in *. rewrite getWebSocketState_eq in *.
    destruct (setWebSocketState_observers fuel listener_body observers (Hook.name hk)
                (Partial.mk None None None None
                   (Some (slice (- Hook.maxMessages hk)
                            (WebSocketState.messages (read (Hook.name hk) w2) ++ [msg])))
                   None) w2) as (evs2 & F2 & E3).
    { destruct Hn as [Hn|Hn]; [left|right].
      - assert (entries (Hook.name hk) w2 = entries (Hook.name hk) w) as ->; [|done].
        unfold w2. case_bool_decide; [|rewrite entries_touched];
          unfold w1; by rewrite entries_notified.
      - intros HN. apply Hn. by rewrite HN. }
    rewrite E3. by exists evs2.
  - exists []. by repeat split.
Qed.


End Supervisor.

Lemma latestMessages_touched h hk t w :
  latestMessages (touched h hk t w) = latestMessages w.
Proof.
  unfold touched, armed, disarmed. wsimpl.
  destruct (Hook.mounted hk); [|done]. wsimpl.
  case_bool_decide; [done|]. case_bool_decide; destruct (Hook.timer _); done.
Qed.

Lemma state_touched h hk t w : state (touched h hk t w) = state w.
Proof.
  unfold touched, armed, disarmed. wsimpl.
  destruct (Hook.mounted hk); [|done]. wsimpl.
  case_bool_decide; [done|]. case_bool_decide; destruct (Hook.timer _); done.
Qed.

Lemma sockets_touched h hk t w : sockets (touched h hk t w) = sockets w.
Proof.
  unfold touched, armed, disarmed. wsimpl.
  destruct (Hook.mounted hk); [|done]. wsimpl.
  case_bool_decide; [done|]. case_bool_decide; destruct (Hook.timer _); done.
Qed.

Lemma now_touched h hk t w : now (touched h hk t w) = now w.
Proof.
  unfold touched, armed, disarmed. wsimpl.
  destruct (Hook.mounted hk); [|done]. wsimpl.
  case_bool_decide; [done|]. case_bool_decide; destruct (Hook.timer _); done.
Qed.

Lemma log_touched h hk t w : log (touched h hk t w) = log w.
Proof.
  unfold touched, armed, disarmed. wsimpl.
  destruct (Hook.mounted hk); [|done]. wsimpl.
  case_bool_decide; [done|]. case_bool_decide; destruct (Hook.timer _); done.
Qed.

(** ** Inbound frames *)

(** C8: decoding a frame never raises.  A textual frame that parses as
    JSON yields the parsed value; one that does not yields the original
    string; any other frame is passed on as it is.  The message handed to
    [addMessage] carries that payload. *)
Theorem C8_decode_falls_back_to_raw_text parse (data : JsValue) (w : World) :
  (∃ v, decode parse data w = Some (Ok v, add_log (decode_events parse data) w)
        ∧ match data with
          | VStr text =>
              match parse text with
              | Ok parsed => v = parsed
              | Threw _ => v = VStr text
              end
          | _ => v = data
          end)
  ∧ (∀ e, parse "not-json{" = Threw e →
          decode parse (VStr "not-json{") w
          = Some (Ok (VStr "not-json{"), add_log [ConsoleWarn "no json message" None] w))
  ∧ (∀ fuel lb h hk,
       (∀ l w0, snd (lb l w0) = w0) →
       hooks w !! h = Some hk →
       length (entries (Hook.name hk) w) < fuel →
       ∃ v w0 w',
         decode parse data w = Some (Ok v, w0)
         ∧ onmessage fuel lb parse h data w = Some (Ok tt, w')
         ∧ latestMessages w' !! Hook.name hk = Some (mkMessage v (now w))).
Proof.
  split; [|split].
  - exists (decoded parse data). split; [apply decode_eq|].
    unfold decoded. destruct data; try done. simpl. by destruct (parse s).
  - intros e He. rewrite decode_eq. unfold decoded, decode_events. simpl.
    by rewrite He.
  - intros fuel lb h hk Hobs Hh Hfuel.
    destruct (onmessage_observers fuel lb parse Hobs h hk data w Hh (or_introl Hfuel))
      as (evs1 & evs2 & _ & _ & E).
    eexists _, _, _. split; [apply decode_eq|]. split; [exact E|].
    unfold after_message.
    assert (Hl : ∀ w2, latestMessages w2 !! Hook.name hk = Some (mkMessage (decoded parse data) (now w)) →
                 latestMessages (if Hook.storeHistory hk then
                    notified (Hook.name hk) evs2
                      (set_state <[Hook.name hk := spread (read (Hook.name hk) w2)
                         (Partial.mk None None None None
                            (Some (slice (- Hook.maxMessages hk)
                               (WebSocketState.messages (read (Hook.name hk) w2)
                                ++ [mkMessage (decoded parse data) (now w)]))) None)]> w2)
                    else w2) !! Hook.name hk
                 = Some (mkMessage (decoded parse data) (now w))).
    { intros w2 H2. destruct (Hook.storeHistory hk); [|done].
      by rewrite latestMessages_notified. }
    apply Hl. case_bool_decide.
    + rewrite latestMessages_notified. wsimpl. apply lookup_insert_eq.
    + rewrite latestMessages_touched, latestMessages_notified. wsimpl.
      apply lookup_insert_eq.
Qed.

Lemma C8_not_json_witness :
  decode Json.parse (VStr "not-json{") connected_world
  = Some (Ok (VStr "not-json{"),
          add_log [ConsoleWarn "no json message" None] connected_world)
  ∧ ∃ v w0 w',
      decode Json.parse (VStr "not-json{") connected_world = Some (Ok v, w0)
      ∧ onmessage 8 quiet Json.parse 0 (VStr "not-json{") connected_world
        = Some (Ok tt, w')
      ∧ latestMessages w' !! "x" = Some (mkMessage v (now connected_world)).
Proof.
  destruct (C8_decode_falls_back_to_raw_text Json.parse (VStr "not-json{") connected_world)
    as (_ & H2 & H3).
  split.
  - apply (H2 SyntaxError). vm_compute. reflexivity.
  - apply (H3 8 quiet 0 (Hook.with_socket (Some 0) (Hook.create (opts "x")))).
    + intros l w0. reflexivity.
    + vm_compute. reflexivity.
    + vm_compute. lia.
Defined.

Example not_json_payload :
  (fun r => latestMessages (snd r) !! "x")
    <$> onmessage 8 quiet Json.parse 0 (VStr "not-json{") connected_world
  = Some (Some (mkMessage (VStr "not-json{") 0)).
Proof. vm_compute. reflexivity. Qed.

Example json_payload :
  (fun r => latestMessages (snd r) !! "x")
    <$> onmessage 8 quiet Json.parse 0 (VStr "{ }") connected_world
  = Some (Some (mkMessage (VObj []) 0)).
Proof. vm_compute. reflexivity. Qed.

(** ** History *)

Lemma slice_neg {A} (n : Z) (xs : list A) :
  (1 ≤ n)%Z → slice (- n) xs = lastn (Z.to_nat n) xs.
Proof.
  intros Hn. unfold slice, lastn.
  destruct (- n <? 0)%Z eqn:E; [|apply Z.ltb_ge in E; lia].
  f_equal. lia.
Qed.

Lemma lastn_length {A} n (xs : list A) : length (lastn n xs) = n `min` length xs.
Proof. unfold lastn. rewrite length_drop. lia. Qed.

Lemma lastn_app_lastn {A} n (xs ys : list A) :
  lastn n (lastn n xs ++ ys) = lastn n (xs ++ ys).
Proof.
  unfold lastn. rewrite !length_app, length_drop.
  destruct (decide (length xs ≤ n)) as [Hle|Hgt].
  - replace (length xs - n) with 0 by lia. simpl. f_equal. lia.
  - replace (length xs - (length xs - n) + length ys - n) with (length ys) by lia.
    destruct (decide (length ys ≤ n)) as [Hy|Hy].
    + rewrite drop_app_le by (rewrite length_drop; lia).
      rewrite drop_drop, drop_app_le by lia. f_equal. f_equal. lia.
    + rewrite drop_app_ge by (rewrite length_drop; lia).
      rewrite drop_app_ge by lia. rewrite length_drop. f_equal. lia.
Qed.

Lemma fold_lastn {A} (n : Z) (ms hist : list A) :
  (1 ≤ n)%Z → ms ≠ [] →
  fold_left (fun h m => slice (- n) (h ++ [m])) ms hist = lastn (Z.to_nat n) (hist ++ ms).
Proof.
  intros Hn. revert hist. induction ms as [|m ms IH]; intros hist Hne; [done|].
  cbn [fold_left]. rewrite slice_neg by done.
  destruct ms as [|m' ms']; [done|].
  rewrite IH by done. rewrite lastn_app_lastn. by rewrite <- app_assoc.
Qed.

Lemma lastn_app_ge {A} n (xs ys : list A) : n ≤ length ys → lastn n (xs ++ ys) = lastn n ys.
Proof.
  intros Hn. unfold lastn. rewrite length_app.
  replace (length xs + length ys - n) with (length xs + (length ys - n)) by lia.
  by rewrite drop_app_add.
Qed.

Lemma stamped_length parse t frames : length (stamped parse t frames) = length frames.
Proof. revert t. induction frames as [|f rest IH]; intros t; simpl; [done|by rewrite IH]. Qed.

Lemma read_touched name h hk t w : read name (touched h hk t w) = read name w.
Proof. unfold read. by rewrite state_touched. Qed.

Lemma hooks_touched_options h hk t w :
  hooks w !! h = Some hk →
  ∃ hk', hooks (touched h hk t w) !! h = Some hk' ∧ same_options hk hk'.
Proof.
  intros H. pose proof (lookup_lt_Some _ _ _ H) as Hlt.
  unfold touched. destruct (Hook.mounted hk); cbn [negb]; [|by exists hk].
  case_bool_decide; [by exists hk|].
  unfold armed, disarmed. wsimpl.
  case_bool_decide; destruct (Hook.timer hk); wsimpl;
    rewrite ?list_insert_insert_eq;
    rewrite list_lookup_insert_eq by done; by eexists.
Qed.

Section History.

Variable fuel : nat.
Variable listener_body : Listener → World → Result unit * World.
Variable JSON_parse : string → Result JsValue.
Variable JSON_stringify : JsValue → Result string.
Hypothesis observers : ∀ l w, snd (listener_body l w) = w.

Local Abbreviation run' := (run fuel listener_body JSON_parse JSON_stringify).

(** One delivered frame appends its message and keeps the last
    [maxMessages]; the hook keeps its options, the socket stays open and
    the listener Set of the name keeps its entries. *)
Lemma history_step s url h hk delay data w :
  sockets w !! s = Some (mkSocket url OPEN h) →
  hooks w !! h = Some hk →
  Hook.storeHistory hk = true →
  length (entries (Hook.name hk) w) < fuel →
  ∃ w' hk',
    run' [Elapse delay; SocketMessage s data] w = Some w'
    ∧ WebSocketState.messages (read (Hook.name hk) w')
      = slice (- Hook.maxMessages hk)
          (WebSocketState.messages (read (Hook.name hk) w)
           ++ [mkMessage (decoded JSON_parse data) (now w + Z.max delay 0)])
    ∧ now w' = (now w + Z.max delay 0)%Z
    ∧ sockets w' = sockets w
    ∧ hooks w' !! h = Some hk' ∧ same_options hk hk'
    ∧ entries (Hook.name hk) w' = entries (Hook.name hk) w.
Proof.
  intros Hsock Hh Hstore Hfuel.
  cbn [run]. unfold step at 1. unfold bind, get, modify.
  set (w0 := set_now _ w).
  unfold step, bind, get. change (sockets w0) with (sockets w). rewrite Hsock.
  destruct (onmessage_observers fuel listener_body JSON_parse observers h hk data w0 Hh
              (or_introl Hfuel)) as (evs1 & evs2 & F1 & F2 & E).
  rewrite E. clear E. unfold after_message. rewrite Hstore.
  set (msg := mkMessage _ (now w0)).
  set (w1 := notified _ evs1 _).
  set (w2 := if bool_decide _ then w1 else _).
  assert (R2 : read (Hook.name hk) w2 = read (Hook.name hk) w).
  { unfold w2. case_bool_decide; [|rewrite read_touched]; unfold w1;
      by rewrite read_notified. }
  assert (N2 : now w2 = now w0).
  { unfold w2. case_bool_decide; [|rewrite now_touched]; unfold w1;
      by rewrite now_notified. }
  assert (S2 : sockets w2 = sockets w).
  { unfold w2. case_bool_decide; [|rewrite sockets_touched]; unfold w1;
      by rewrite sockets_notified. }
  assert (E2 : entries (Hook.name hk) w2 = entries (Hook.name hk) w).
  { unfold w2. case_bool_decide; [|rewrite entries_touched]; unfold w1;
      by rewrite entries_notified. }
  assert (H2 : ∃ hk', hooks w2 !! h = Some hk' ∧ same_options hk hk').
  { assert (H1 : hooks w1 !! h = Some hk) by (unfold w1; by rewrite hooks_notified).
    unfold w2. case_bool_decide; [by exists hk|]. by apply hooks_touched_options. }
  destruct H2 as (hk' & H2 & Hopt).
  eexists _, hk'. split; [reflexivity|].
  rewrite read_notified, now_notified, sockets_notified, hooks_notified, entries_notified.
  wsimpl. rewrite R2.
  split; [unfold read at 1; wsimpl; by rewrite lookup_insert_eq|].
  destruct Hopt as (? & ? & ? & ?). by repeat split.
Qed.

Lemma history_after_arrivals s url h frames : ∀ hk w,
  sockets w !! s = Some (mkSocket url OPEN h) →
  hooks w !! h = Some hk →
  Hook.storeHistory hk = true →
  length (entries (Hook.name hk) w) < fuel →
  ∃ w', run' (arrivals s frames) w = Some w'
        ∧ WebSocketState.messages (read (Hook.name hk) w')
          = fold_left (fun hist m => slice (- Hook.maxMessages hk) (hist ++ [m]))
              (stamped JSON_parse (now w) frames)
              (WebSocketState.messages (read (Hook.name hk) w)).
Proof.
  induction frames as [|[delay data] rest IH]; intros hk w Hsock Hh Hstore Hfuel.
  - exists w. by split.
  - destruct (history_step s url h hk delay data w Hsock Hh Hstore Hfuel)
      as (w1 & hk1 & Hrun & Hmsgs & Hnow & Hs1 & Hh1 & (On & Os & Om & _) & He1).
    destruct (IH hk1 w1) as (w' & Hrun' & Hmsgs').
    { by rewrite Hs1. } { done. } { by rewrite Os. } { by rewrite On, He1. }
    exists w'. split.
    + change (arrivals s ((delay, data) :: rest))
        with ([Elapse delay; SocketMessage s data] ++ arrivals s rest).
      cbn [run app] in Hrun |- *.
      destruct (step _ _ _ _ (Elapse delay) w) as [[r0 w0]|]; [|done].
      destruct (step _ _ _ _ (SocketMessage s data) w0) as [[r1 w1']|]; [|done].
      inversion Hrun; subst. done.
    + rewrite On, Om in Hmsgs'. rewrite Hmsgs'.
      cbn [stamped fold_left fst snd]. by rewrite Hmsgs, Hnow.
Qed.

End History.

(** X9: with history on and a bound N of at least one: once frames have
    arrived the history holds at most N messages, namely the last N of
    what it held before followed by the new messages, oldest first; after
    N or more frames these are the last N new messages, and there are
    exactly N of them. *)
Theorem history_is_bounded fuel lb parse stringify s url h hk frames w :
  (∀ l w0, snd (lb l w0) = w0) →
  sockets w !! s = Some (mkSocket url OPEN h) →
  hooks w !! h = Some hk →
  Hook.storeHistory hk = true →
  (1 ≤ Hook.maxMessages hk)%Z →
  length (entries (Hook.name hk) w) < fuel →
  frames ≠ [] →
  ∃ w', run fuel lb parse stringify (arrivals s frames) w = Some w'
        ∧ WebSocketState.messages (read (Hook.name hk) w')
          = lastn (Z.to_nat (Hook.maxMessages hk))
              (WebSocketState.messages (read (Hook.name hk) w)
               ++ stamped parse (now w) frames)
        ∧ length (WebSocketState.messages (read (Hook.name hk) w'))
          ≤ Z.to_nat (Hook.maxMessages hk)
        ∧ (Z.to_nat (Hook.maxMessages hk) ≤ length frames →
           WebSocketState.messages (read (Hook.name hk) w')
           = lastn (Z.to_nat (Hook.maxMessages hk)) (stamped parse (now w) frames)
           ∧ length (WebSocketState.messages (read (Hook.name hk) w'))
             = Z.to_nat (Hook.maxMessages hk)).
Proof.
  intros Hobs Hsock Hh Hstore HN Hfuel Hne.
  destruct (history_after_arrivals fuel lb parse stringify Hobs s url h frames hk w
              Hsock Hh Hstore Hfuel) as (w' & Hrun & Hmsgs).
  exists w'. split; [done|].
  assert (E : WebSocketState.messages (read (Hook.name hk) w')
              = lastn (Z.to_nat (Hook.maxMessages hk))
                  (WebSocketState.messages (read (Hook.name hk) w)
                   ++ stamped parse (now w) frames)).
  { rewrite Hmsgs. apply fold_lastn; [done|].
    destruct frames; [done|]. simpl. done. }
  split; [done|]. split.
  - rewrite E, lastn_length. lia.
  - intros Hlen. rewrite E. split.
    + apply lastn_app_ge. by rewrite stamped_length.
    + rewrite lastn_length, length_app, stamped_length. lia.
Qed.

Lemma history_is_bounded_witness :
  let o := Options.mk "x" "wss://e" None None (Some true) (Some 2%Z) None in
  let w := after [Mount o; SocketOpen 0] in
  let hk := Hook.with_socket (Some 0) (Hook.create o) in
  let frames := [(5%Z, VStr "a"); (5%Z, VStr "b"); (5%Z, VStr "c")] in
  ∃ w', run 8 quiet Json.parse Json.stringify (arrivals 0 frames) w = Some w'
        ∧ WebSocketState.messages (read "x" w')
          = lastn 2 (WebSocketState.messages (read "x" w) ++ stamped Json.parse 0 frames)
        ∧ length (WebSocketState.messages (read "x" w')) ≤ 2
        ∧ (2 ≤ length frames →
           WebSocketState.messages (read "x" w') = lastn 2 (stamped Json.parse 0 frames)
           ∧ length (WebSocketState.messages (read "x" w')) = 2).
Proof.
  intros o w hk frames.
  apply (history_is_bounded 8 quiet Json.parse Json.stringify 0 "wss://e" 0 hk frames w).
  - intros l w0. reflexivity.
  - vm_compute. reflexivity.
  - vm_compute. reflexivity.
  - reflexivity.
  - vm_compute. discriminate.
  - vm_compute. lia.
  - discriminate.
Defined.

Example three_frames_bound_two :
  let o := Options.mk "x" "wss://e" None None (Some true) (Some 2%Z) None in
  WebSocketState.messages
    (read "x" (after ([Mount o; SocketOpen 0]
                      ++ arrivals 0 [(5%Z, VStr "a"); (5%Z, VStr "b"); (5%Z, VStr "c")])))
  = [mkMessage (VStr "b") 10; mkMessage (VStr "c") 15].
Proof. vm_compute. reflexivity. Qed.

(** C2, at [maxMessages = 0]: with [storeHistory] on, [slice(-0)] keeps the
    whole array, so after three messages the history holds three entries
    where the bound is zero. *)
Theorem C2_zero_bound_keeps_every_message :
  let w := after [Mount (Options.mk "x" "wss://e" None None (Some true) (Some 0%Z) None);
                  SocketOpen 0;
                  SocketMessage 0 (VStr "a"); SocketMessage 0 (VStr "b");
                  SocketMessage 0 (VStr "c")] in
  (Hook.maxMessages <$> hooks w !! 0) = Some 0%Z
  ∧ WebSocketState.messages (read "x" w)
    = [mkMessage (VStr "a") 0; mkMessage (VStr "b") 0; mkMessage (VStr "c") 0].
Proof. vm_compute. split; reflexivity. Qed.

(** ** The watchdog callback *)


(** ** What the watchdog's view sees of the program *)

Lemma transparent_ret {A} (a : A) : transparent (ret a).
Proof. intros w r w' [= <- <-]. done. Qed.

Lemma transparent_throw {A} e : transparent (@throw A e).
Proof. intros w r w' [= <- <-]. done. Qed.

Lemma transparent_get : transparent get.
Proof. intros w r w' [= <- <-]. done. Qed.

Lemma transparent_bind {A B} (m : M A) (k : A → M B) :
  transparent m → (∀ a, transparent (k a)) → transparent (bind m k).
Proof.
  intros Hm Hk w r w' H. unfold bind in H.
  destruct (m w) as [[[a|e] w1]|] eqn:E; [|inversion H; subst|done].
  - rewrite (Hk a w1 r w' H). by eapply Hm.
  - by eapply Hm.
Qed.

Lemma transparent_try_catch {A} (m : M A) handler :
  transparent m → (∀ e, transparent (handler e)) → transparent (try_catch m handler).
Proof.
  intros Hm Hk w r w' H. unfold try_catch in H.
  destruct (m w) as [[[a|e] w1]|] eqn:E; [inversion H; subst| |done].
  - by eapply Hm.
  - rewrite (Hk e w1 r w' H). by eapply Hm.
Qed.

Lemma transparent_when b m : transparent m → transparent (when b m).
Proof. intros H. destruct b; [done|apply transparent_ret]. Qed.

Lemma transparent_in_hook {A} h (d : A) body :
  (∀ hk, transparent (body hk)) → transparent (in_hook h d body).
Proof.
  intros H. unfold in_hook. apply transparent_bind; [apply transparent_get|].
  intros w. destruct (hooks w !! h); [apply H|apply transparent_ret].
Qed.

Lemma transparent_modify f : (∀ w, view (f w) = view w) → transparent (modify f).
Proof. intros H w r w' [= <- <-]. apply H. Qed.

Lemma expired_of_app evs1 evs2 : expired_of (evs1 ++ evs2) = expired_of evs1 ++ expired_of evs2.
Proof. apply omap_app. Qed.

Lemma expired_of_fanout evs : Forall fanout_event evs → expired_of evs = [].
Proof.
  induction 1 as [|e evs He _ IH]; [done|].
  destruct e; simpl in He; try done; exact IH.
Qed.

Lemma view_add_log evs w : expired_of evs = [] → view (add_log evs w) = view w.
Proof.
  intros H. unfold view, add_log. wsimpl. by rewrite expired_of_app, H, app_nil_r.
Qed.

Lemma view_notified name evs w : Forall fanout_event evs → view (notified name evs w) = view w.
Proof.
  intros H. unfold view.
  rewrite timers_notified, nextTimer_notified, now_notified, hooks_notified, log_notified.
  by rewrite expired_of_app, (expired_of_fanout _ H), app_nil_r.
Qed.

Lemma transparent_emit e :
  (∀ h, e ≠ Expired h) → transparent (emit e).
Proof.
  intros H. apply transparent_modify. intros w. rewrite add_log_eq.
  apply view_add_log. destruct e; try done. by destruct (H h).
Qed.

Lemma view_hook_socket h s hk w :
  hooks w !! h = Some hk → view (set_hooks <[h := Hook.with_socket s hk]> w) = view w.
Proof.
  intros H. unfold view. wsimpl. f_equal.
  rewrite list_fmap_insert. apply list_insert_id.
  by rewrite list_lookup_fmap, H.
Qed.

Lemma transparent_socket_update h s : transparent (update_hook h (Hook.with_socket s)).
Proof.
  intros w r w' H. unfold update_hook, modify in H. inversion H; subst. clear H.
  destruct (hooks w !! h) as [hk|] eqn:E.
  - rewrite <- (view_hook_socket h s hk w E). unfold set_hooks. by rewrite E.
  - unfold set_hooks. by rewrite E.
Qed.

Lemma transparent_getWebSocketState name : transparent (getWebSocketState name).
Proof. intros w r w' [= <- <-]. done. Qed.

Lemma transparent_getListeners name : transparent (getListeners name).
Proof.
  intros w r w' H. rewrite getListeners_eq in H. inversion H; subst.
  unfold with_set. by case_bool_decide.
Qed.

Lemma transparent_new_WebSocket url h : transparent (new_WebSocket url h).
Proof. intros w r w' [= <- <-]. done. Qed.

Lemma transparent_socket_close s : transparent (socket_close s).
Proof. by apply transparent_modify. Qed.

Lemma transparent_set_socket_state s r : transparent (set_socket_state s r).
Proof. by apply transparent_modify. Qed.

Lemma transparent_socket_send s payload : transparent (socket_send s payload).
Proof.
  unfold socket_send. apply transparent_bind; [apply transparent_get|]. intros w.
  destruct (readyState <$> sockets w !! s) as [[]|];
    first [apply transparent_throw | apply transparent_ret | by apply transparent_emit].
Qed.

Lemma transparent_sendWebSocketMessage stringify name msg :
  transparent (sendWebSocketMessage stringify name msg).
Proof.
  unfold sendWebSocketMessage.
  apply transparent_bind; [apply transparent_getWebSocketState|]. intros st.
  destruct (WebSocketState.connected st), (WebSocketState.socket st);
    try (by apply transparent_emit).
  apply transparent_try_catch; [|intros e; by apply transparent_emit].
  apply transparent_bind; [|intros p; apply transparent_socket_send].
  destruct (is_string msg); [apply transparent_ret|].
  destruct (stringify msg); [apply transparent_ret|apply transparent_throw].
Qed.

Lemma transparent_subscribe name l : transparent (subscribeWebSocket name l).
Proof.
  unfold subscribeWebSocket.
  apply transparent_bind; [apply transparent_getListeners|]. intros ls.
  apply transparent_bind; [by apply transparent_modify|]. intros _.
  apply transparent_ret.
Qed.

Lemma transparent_unsubscribe handle : transparent (unsubscribe handle).
Proof. intros w r w' [= <- <-]. done. Qed.

Section Transparent.

Variable fuel : nat.
Variable listener_body : Listener → World → Result unit * World.
Hypothesis observers : ∀ l w, snd (listener_body l w) = w.

Lemma transparent_notify name : transparent (notifyListeners fuel listener_body name).
Proof.
  intros w r w' H.
  destruct (notify_cases fuel listener_body observers name w) as [E|(evs & F & E)];
    rewrite E in H; [done|]. inversion H; subst. by apply view_notified.
Qed.

Lemma transparent_setWebSocketState name partial :
  transparent (setWebSocketState fuel listener_body name partial).
Proof.
  unfold setWebSocketState.
  apply transparent_bind; [apply transparent_getWebSocketState|]. intros cur.
  apply transparent_bind; [by apply transparent_modify|]. intros _.
  apply transparent_notify.
Qed.

Lemma transparent_addMessage name msg :
  transparent (addMessage fuel listener_body name msg).
Proof.
  unfold addMessage.
  apply transparent_bind; [by apply transparent_modify|]. intros _.
  apply transparent_notify.
Qed.

Lemma transparent_connect h : transparent (connect fuel listener_body h).
Proof.
  unfold connect. apply transparent_in_hook. intros hk.
  apply transparent_bind; [apply transparent_getWebSocketState|]. intros cur.
  destruct (_ || _); [apply transparent_ret|].
  apply transparent_bind; [apply transparent_setWebSocketState|]. intros _.
  apply transparent_bind; [apply transparent_new_WebSocket|]. intros s.
  apply transparent_socket_update.
Qed.

Lemma transparent_onopen h : transparent (onopen fuel listener_body h).
Proof.
  unfold onopen. apply transparent_in_hook. intros hk.
  apply transparent_setWebSocketState.
Qed.

Lemma transparent_onerror h : transparent (onerror fuel listener_body h).
Proof.
  unfold onerror. apply transparent_in_hook. intros hk.
  apply transparent_bind; [by apply transparent_emit|]. intros _.
  apply transparent_bind; [apply transparent_setWebSocketState|]. intros _.
  destruct (Hook.socket hk); [apply transparent_socket_close|apply transparent_ret].
Qed.

Lemma transparent_disconnect name : transparent (disconnectWebSocket fuel listener_body name).
Proof.
  unfold disconnectWebSocket.
  apply transparent_bind; [apply transparent_getWebSocketState|]. intros cur.
  apply transparent_bind; [|intros _; apply transparent_setWebSocketState].
  destruct (WebSocketState.socket cur); [apply transparent_socket_close|apply transparent_ret].
Qed.

Lemma transparent_clear name : transparent (clearWebSocketMessage fuel listener_body name).
Proof.
  unfold clearWebSocketMessage. apply transparent_bind; [apply transparent_get|].
  intros w. destruct (latestMessages w !! name); [|apply transparent_ret].
  apply transparent_bind; [by apply transparent_modify|]. intros _.
  apply transparent_notify.
Qed.

End Transparent.

Lemma fmap_insert_twice {A B} (f : A → B) (l : list A) i a b :
  f <$> <[i := a]> (<[i := b]> l) = <[i := f a]> (f <$> l).
Proof. by rewrite list_insert_insert_eq, list_fmap_insert. Qed.

Lemma view_touched h hk t w :
  hooks w !! h = Some hk → view (touched h hk t w) = v_touch h t (view w).
Proof.
  intros H. unfold touched, v_touch, view. cbn [v_hooks v_timers v_next v_now v_expired].
  rewrite list_lookup_fmap, H. cbn [fmap option_fmap option_map]. wsimpl.
  destruct (Hook.mounted hk); [|done]. wsimpl.
  case_bool_decide; [done|].
  unfold armed, disarmed. wsimpl.
  case_bool_decide; destruct (Hook.timer hk) eqn:Et; wsimpl;
    rewrite ?list_fmap_insert, ?list_insert_insert_eq; try reflexivity;
    destruct hk; simpl in *; subst; reflexivity.
Qed.

Section Simulation.

Variable fuel : nat.
Variable listener_body : Listener → World → Result unit * World.
Variable JSON_parse : string → Result JsValue.
Variable JSON_stringify : JsValue → Result string.
Hypothesis observers : ∀ l w, snd (listener_body l w) = w.

Local Abbreviation step' := (step fuel listener_body JSON_parse JSON_stringify).

Lemma view_after_message h hk data evs1 evs2 w :
  hooks w !! h = Some hk →
  Forall fanout_event evs1 → Forall fanout_event evs2 →
  view (after_message JSON_parse h hk data evs1 evs2 w)
  = if bool_decide (Hook.heartbeatInterval hk = 0%Z) then view w
    else v_touch h (now w) (view w).
Proof.
  intros Hh F1 F2. unfold after_message.
  set (w1 := notified _ evs1 _).
  assert (V1 : view w1 = view w).
  { unfold w1. rewrite view_notified by done.
    change (view (add_log (decode_events JSON_parse data) w) = view w).
    apply view_add_log. unfold decode_events.
    destruct (is_string data); [|done]. by destruct (JSON_parse _). }
  assert (H1 : hooks w1 !! h = Some hk) by (unfold w1; by rewrite hooks_notified).
  set (w2 := if bool_decide _ then w1 else _).
  assert (V2 : view w2 = if bool_decide (Hook.heartbeatInterval hk = 0%Z) then view w
                         else v_touch h (now w) (view w)).
  { unfold w2. case_bool_decide; [done|]. by rewrite (view_touched _ _ _ _ H1), V1. }
  destruct (Hook.storeHistory hk); [|done].
  by rewrite view_notified.
Qed.

Lemma sim_onmessage h data w r w' :
  onmessage fuel listener_body JSON_parse h data w = Some (r, w') →
  view w' = astep (Received h) (view w).
Proof.
  intros H. cbn [astep]. unfold view at 2. cbn [v_hooks].
  rewrite list_lookup_fmap.
  destruct (hooks w !! h) as [hk|] eqn:Hh; cbn [fmap option_fmap option_map].
  - destruct (onmessage_observers fuel listener_body JSON_parse observers h hk data w Hh)
      as (evs1 & evs2 & F1 & F2 & E); [right; by rewrite H|].
    rewrite E in H. inversion H; subst.
    by rewrite view_after_message.
  - unfold onmessage in H. rewrite in_hook_none in H by done. by inversion H.
Qed.

Lemma sim_onclose h w r w' :
  onclose fuel listener_body h w = Some (r, w') →
  view w' = astep (Closed h) (view w).
Proof.
  intros H. cbn [astep].
  assert (Hv : v_hooks (view w) !! h = Hook.with_socket None <$> hooks w !! h)
    by apply list_lookup_fmap.
  rewrite Hv. clear Hv.
  destruct (hooks w !! h) as [hk|] eqn:Hh; cbn [fmap option_fmap option_map].
  - unfold onclose in H. rewrite (in_hook_eq _ _ _ _ _ Hh) in H. unfold bind in H.
    destruct (setWebSocketState_cases fuel listener_body observers (Hook.name hk) idle w)
      as [E|(evs & F & E)]; rewrite E in H; [done|].
    set (w1 := notified _ evs _) in *.
    assert (V1 : view w1 = view w) by (unfold w1; by rewrite view_notified).
    assert (H1 : hooks w1 !! h = Some hk) by (unfold w1; by rewrite hooks_notified).
    wsimpl. unfold when in H. destruct (Hook.autoReconnect hk).
    + unfold bind, setTimeout, bind, get, modify, ret in H. wsimpl.
      erewrite update_hook_eq in H by (wsimpl; exact H1).
      inversion H; subst. rewrite <- V1. unfold view.
      cbn [v_timers v_next v_now v_hooks v_expired]. wsimpl.
      by rewrite list_fmap_insert.
    + inversion H; subst. exact V1.
  - unfold onclose in H. rewrite in_hook_none in H by done. by inversion H.
Qed.


Lemma sim_heartbeat_fired h w r w' :
  heartbeat_fired fuel listener_body h w = Some (r, w') →
  view w' = mkView (timers w) (nextTimer w) (now w) (Hook.with_socket None <$> hooks w)
                   (expired_of (log w) ++ [h]).
Proof.
  intros H. unfold heartbeat_fired, bind, emit, modify in H. rewrite add_log_eq in H.
  assert (T : transparent (in_hook h tt (fun hk =>
                do w <~ get;
                addMessage fuel listener_body (Hook.name hk)
                  (heartbeat_message (Hook.heartbeatInterval hk) (now w))))).
  { apply transparent_in_hook. intros hk.
    apply transparent_bind; [apply transparent_get|]. intros w0.
    by apply transparent_addMessage. }
  rewrite (T _ _ _ H). unfold view, add_log. wsimpl. by rewrite expired_of_app.
Qed.

Lemma sim_fire id w r w' :
  step' (TimerFires id) w = Some (r, w') →
  view w' = astep (Fired id) (view w).
Proof.
  intros H. unfold step, bind, get in H. cbn [astep]. unfold view at 2 3.
  cbn [v_timers v_now].
  destruct (find_timer id (timers w)) as [t|]; [|by inversion H].
  destruct (bool_decide (due t ≤ now w)%Z); [|by inversion H].
  unfold clearTimeout, modify in H.
  destruct (task t) as [h|h]; unfold run_task in H.
  - by rewrite (transparent_connect fuel listener_body observers h _ _ _ H).
  - by rewrite (sim_heartbeat_fired h _ _ _ H).
Qed.

Lemma sim_mount options w r w' :
  step' (Mount options) w = Some (r, w') →
  view w' = astep (Mounted options) (view w).
Proof.
  intros H. unfold step, bind, get, useWebSocketConnect, bind, get, modify in H.
  set (w1 := set_hooks _ w) in H.
  assert (V1 : view w1 = astep (Mounted options) (view w)).
  { unfold w1, view. cbn [astep v_timers v_next v_now v_hooks v_expired]. wsimpl.
    by rewrite fmap_app. }
  rewrite <- V1. clear V1.
  destruct (connect fuel listener_body (length (hooks w)) w1) as [[[[]|e] w2]|] eqn:E;
    [|inversion H; subst|done].
  2: by apply (transparent_connect fuel listener_body observers _ _ _ _ E).
  pose proof (transparent_connect fuel listener_body observers _ _ _ _ E) as V2.
  assert (Hh : ∃ hk, hooks w2 !! length (hooks w) = Some hk
                     ∧ Hook.lastMessageTime hk = None) .
  { assert (L : v_hooks (view w2) !! length (hooks w) = Some (Hook.create options)).
    { rewrite V2. unfold w1, view. cbn [v_hooks]. wsimpl. rewrite fmap_app.
      rewrite lookup_app_r by (by rewrite length_fmap).
      by rewrite length_fmap, Nat.sub_diag. }
    unfold view in L. cbn [v_hooks] in L. rewrite list_lookup_fmap in L.
    destruct (hooks w2 !! length (hooks w)) as [hk|]; [|done].
    exists hk. split; [done|]. simpl in L. by inversion L. }
  destruct Hh as (hk & Hh & Hl).
  rewrite (heartbeat_effect_eq _ _ _ Hh) in H. unfold ret in H.
  inversion H; subst. unfold armed. rewrite Hl.
  by case_bool_decide.
Qed.

Lemma sim_unmount h w r w' :
  step' (Unmount h) w = Some (r, w') →
  view w' = astep (Unmounted h) (view w).
Proof.
  intros H. unfold step, bind, get in H. cbn [astep].
  assert (Hv : v_hooks (view w) !! h = Hook.with_socket None <$> hooks w !! h)
    by apply list_lookup_fmap.
  rewrite Hv. clear Hv. unfold unmount in H.
  destruct (hooks w !! h) as [hk|] eqn:Hh; cbn [fmap option_fmap option_map];
    [|rewrite in_hook_none in H by done; by inversion H].
  rewrite (in_hook_eq _ _ _ _ _ Hh) in H. wsimpl.
  destruct (Hook.mounted hk); wsimpl; cbn [negb] in H; [|by inversion H].
  unfold bind, connect_cleanup in H. rewrite (in_hook_eq _ _ _ _ _ Hh) in H.
  unfold bind in H.
  set (wa := match Hook.socket hk with Some s => socket_close s | None => ret tt end w)
    in H.
  assert (Ha : ∃ w1, wa = Some (Ok tt, w1) ∧ view w1 = view w ∧ hooks w1 = hooks w
                     ∧ timers w1 = timers w).
  { unfold wa. destruct (Hook.socket hk); eexists; by split. }
  destruct Ha as (w1 & -> & V1 & H1 & T1). cbv beta iota in H.
  set (wb := match Hook.reconnectTimeout hk with
             | Some id => when (negb (bool_decide (id = 0))) (clearTimeout id)
             | None => ret tt end w1) in H.
  assert (Hb : ∃ w2, wb = Some (Ok tt, w2) ∧ hooks w2 = hooks w
                  ∧ nextTimer w2 = nextTimer w ∧ now w2 = now w
                  ∧ expired_of (log w2) = expired_of (log w)
                  ∧ timers w2 = match Hook.reconnectTimeout hk with
                                | Some id => if bool_decide (id = 0) then timers w
                                             else without id (timers w)
                                | None => timers w
                                end).
  { unfold wb, view in *. inversion V1 as [[Vt Vn Vw Vh Ve]].
    destruct (Hook.reconnectTimeout hk) as [id|]; [|eexists; by repeat split].
    unfold when. case_bool_decide; cbn [negb]; eexists; repeat split; try done.
    all: try (unfold without; wsimpl; by rewrite T1). }
  destruct Hb as (w2 & -> & H2 & N2 & C2 & E2 & T2). cbv beta iota in H.
  destruct (setWebSocketState_cases fuel listener_body observers (Hook.name hk) idle w2)
    as [E|(evs & F & E)]; rewrite E in H; [done|].
  set (w3 := notified _ evs _) in *.
  assert (H3 : hooks w3 !! h = Some hk)
    by (unfold w3; rewrite hooks_notified; wsimpl; by rewrite H2).
  rewrite (heartbeat_cleanup_eq _ _ _ H3) in H.
  pose proof (hooks_disarmed h hk w3 H3) as H4.
  rewrite (update_hook_eq _ _ _ _ H4) in H. inversion H; subst. clear H.
  unfold view, disarmed. cbn [v_timers v_next v_now v_hooks v_expired].
  destruct (Hook.timer hk) as [id|] eqn:Et; wsimpl; unfold w3;
    rewrite ?timers_notified, ?nextTimer_notified, ?now_notified, ?hooks_notified,
      ?log_notified, ?expired_of_app, ?(expired_of_fanout _ F), ?app_nil_r;
    wsimpl; rewrite ?T2, ?N2, ?C2, ?E2, ?H2,
      ?list_fmap_insert, ?list_insert_insert_eq; reflexivity.
Qed.

(** Every step of the program is the step of the view that its input
    stands for. *)
Lemma sim_step i w r w' :
  step' i w = Some (r, w') → view w' = astep (tick i w) (view w).
Proof.
  destruct i as [options|h|s|s data|s|s|id|ms|name|name msg|name|name l|name l|s].
  - apply sim_mount.
  - apply sim_unmount.
  - intros H. unfold step, bind, get in H. cbn [tick astep].
    destruct (sockets w !! s) as [[u [] h]|]; try (by inversion H).
    eapply (transparent_bind (set_socket_state s OPEN)
              (fun _ => onopen fuel listener_body h)); [| |exact H].
    + apply transparent_set_socket_state.
    + intros _. by apply transparent_onopen.
  - intros H. unfold step, bind, get in H. cbn [tick].
    destruct (sockets w !! s) as [[u [] h]|]; try (by inversion H).
    by eapply sim_onmessage.
  - intros H. unfold step, bind, get in H. cbn [tick astep].
    destruct (sockets w !! s) as [[u [] h]|]; try (by inversion H);
      by eapply (transparent_onerror fuel listener_body observers).
  - intros H. unfold step, bind, get in H. cbn [tick].
    destruct (sockets w !! s) as [[u [] h]|]; try (by inversion H).
    all: unfold set_socket_state, modify in H.
    all: rewrite (sim_onclose h _ _ _ H); reflexivity.
  - apply sim_fire.
  - intros H. unfold step, bind, get, modify in H. by inversion H.
  - intros H. unfold step, bind, get in H.
    by eapply (transparent_disconnect fuel listener_body observers).
  - intros H. unfold step, bind, get in H.
    by eapply transparent_sendWebSocketMessage.
  - intros H. unfold step, bind, get in H.
    by eapply (transparent_clear fuel listener_body observers).
  - intros H. unfold step, bind, get in H. cbn [tick astep].
    eapply (transparent_bind (subscribeWebSocket name l) (fun _ => ret tt)); [| |exact H].
    + apply transparent_subscribe.
    + intros _. apply transparent_ret.
  - intros H. unfold step, bind, get in H. cbn [tick astep].
    eapply (transparent_bind (unsubscribe (name, l)) (fun _ => ret tt)); [| |exact H].
    + apply transparent_unsubscribe.
    + intros _. apply transparent_ret.
  - intros H. unfold step, bind, get in H. cbn [tick astep].
    destruct (sockets w !! s) as [[u [] h]|]; by inversion H.
Qed.

End Simulation.

(** ** Disconnecting *)

(** C1, on the code: a close event with [autoReconnect] on leaves a
    reconnect timer; [disconnectWebSocket] leaves it pending; when it comes
    due, [connect] runs, the record goes back to connecting and a second
    socket is opened. *)
Theorem C1_disconnect_leaves_reconnect_timer :
  let opt := Options.mk "x" "wss://e" (Some true) None None None None in
  let w1 := after [Mount opt; SocketOpen 0; SocketClose 0] in
  let w2 := after [Mount opt; SocketOpen 0; SocketClose 0; Disconnect "x"] in
  let w3 := after [Mount opt; SocketOpen 0; SocketClose 0; Disconnect "x";
                   Elapse 5000; TimerFires 1] in
  timers w1 = [mkTimer 1 5000 (Reconnect 0)]
  ∧ timers w2 = [mkTimer 1 5000 (Reconnect 0)]
  ∧ WebSocketState.connecting (read "x" w2) = false
  ∧ WebSocketState.connecting (read "x" w3) = true
  ∧ (readyState <$> sockets w3) = [CLOSED; CONNECTING].
Proof. vm_compute. repeat split; reflexivity. Qed.

(** In any world, [disconnectWebSocket] leaves the pending timers, the
    hooks and the clock as they are. *)
Lemma disconnect_leaves_timers fuel lb name w r w' :
  (∀ l w0, snd (lb l w0) = w0) →
  disconnectWebSocket fuel lb name w = Some (r, w') →
  timers w' = timers w ∧ nextTimer w' = nextTimer w ∧ now w' = now w.
Proof.
  intros Hobs H. pose proof (transparent_disconnect fuel lb Hobs name w r w' H) as V.
  unfold view in V. by inversion V.
Qed.

(** The cleanup of the effect does cancel the timer: after an unmount in
    place of the disconnect, nothing reconnects. *)
Example unmount_cancels_reconnect_timer :
  let opt := Options.mk "x" "wss://e" (Some true) None None None None in
  let w2 := after [Mount opt; SocketOpen 0; SocketClose 0; Unmount 0] in
  let w3 := after [Mount opt; SocketOpen 0; SocketClose 0; Unmount 0;
                   Elapse 5000; TimerFires 1] in
  timers w2 = []
  ∧ WebSocketState.connecting (read "x" w3) = false
  ∧ (readyState <$> sockets w3) = [CLOSED].
Proof. vm_compute. repeat split; reflexivity. Qed.

(** ** The view stays sound *)

Lemma elem_of_without id t ts : t ∈ without id ts ↔ timerId t ≠ id ∧ t ∈ ts.
Proof. unfold without. by rewrite list_elem_of_filter. Qed.

Lemma without_sublist id ts : without id ts `sublist_of` ts.
Proof. apply sublist_filter. Qed.

Lemma NoDup_ids_sublist (ts' ts : list Timer) :
  ts' `sublist_of` ts → NoDup (timerId <$> ts) → NoDup (timerId <$> ts').
Proof. intros Hs Hn. eapply sublist_NoDup; [exact Hn|]. by apply fmap_sublist. Qed.

Lemma find_timer_Some id ts t : find_timer id ts = Some t → t ∈ ts ∧ timerId t = id.
Proof.
  unfold find_timer. intros H. apply find_some in H as [Hin Hid].
  split; [by apply list_elem_of_In|]. by apply bool_decide_eq_true_1 in Hid.
Qed.

Lemma same_id_same_timer (ts : list Timer) t1 t2 :
  NoDup (timerId <$> ts) → t1 ∈ ts → t2 ∈ ts → timerId t1 = timerId t2 → t1 = t2.
Proof.
  induction ts as [|t ts IH]; intros Hnd H1 H2 E; [by apply not_elem_of_nil in H1|].
  rewrite fmap_cons in Hnd. apply NoDup_cons in Hnd as [Hnot Hnd].
  apply elem_of_cons in H1 as [->|H1]; apply elem_of_cons in H2 as [->|H2]; try done.
  - destruct Hnot. rewrite E. by apply list_elem_of_fmap_2.
  - destruct Hnot. rewrite <- E. by apply list_elem_of_fmap_2.
  - by apply IH.
Qed.

Lemma NoDup_ids_snoc (ts : list Timer) t :
  NoDup (timerId <$> ts) → (∀ t', t' ∈ ts → timerId t' < timerId t) →
  NoDup (timerId <$> ts ++ [t]).
Proof.
  intros Hnd Hlt. rewrite fmap_app. apply NoDup_app. split; [done|]. split.
  - intros x Hx Hx'. apply list_elem_of_fmap in Hx as (t' & -> & Ht').
    apply list_elem_of_fmap in Hx' as (t'' & E & Ht'').
    apply list_elem_of_singleton in Ht''. subst t''.
    specialize (Hlt t' Ht'). lia.
  - simpl. apply NoDup_singleton.
Qed.

Lemma sound_initial t0 : sound (view (initial t0)).
Proof.
  split; unfold view, initial; simpl.
  - intros t Ht. by apply not_elem_of_nil in Ht.
  - apply NoDup_nil_2.
  - done.
  - done.
  - intros t h Ht. by apply not_elem_of_nil in Ht.
  - intros h Hh. by apply not_elem_of_nil in Hh.
  - done.
Qed.

Lemma sound_elapsed ms v : sound v → sound (astep (Elapsed ms) v).
Proof.
  intros [S1 S2 S3 S4 S5 S6 S7]. split; cbn [astep v_timers v_next v_now v_hooks v_expired];
    try done.
  intros h hk l Hh Hm Hl HH Hnow. apply (S7 h hk l); try done. lia.
Qed.

Lemma sound_mounted options v : sound v → sound (astep (Mounted options) v).
Proof.
  intros [S1 S2 S3 S4 S5 S6 S7].
  assert (Hlk : ∀ h hk, (v_hooks v ++ [Hook.create options]) !! h = Some hk →
            v_hooks v !! h = Some hk ∨ hk = Hook.create options).
  { intros h hk H. apply lookup_app_Some in H as [H|[_ H]]; [by left|right].
    apply list_lookup_singleton_Some in H as [_ H]. done. }
  split; cbn [astep v_timers v_next v_now v_hooks v_expired]; try done.
  - intros h hk id Hh Ht. destruct (Hlk _ _ Hh) as [H| ->]; [by eapply S3|done].
  - intros h hk id Hh Ht. destruct (Hlk _ _ Hh) as [H| ->]; [by eapply S4|done].
  - intros t h Ht Hk. destruct (S5 t h Ht Hk) as (hk & l & Hh & ?).
    exists hk, l. split; [|done]. by apply lookup_app_l_Some.
  - intros h Hh. destruct (S6 h Hh) as (hk & Hk & ?).
    exists hk. split; [|done]. by apply lookup_app_l_Some.
  - intros h hk l Hh Hm Hl. destruct (Hlk _ _ Hh) as [H| ->]; [by eapply S7|done].
Qed.

Lemma sound_fired id v : sound v → sound (astep (Fired id) v).
Proof.
  intros Hs. pose proof Hs as [S1 S2 S3 S4 S5 S6 S7]. cbn [astep].
  destruct (find_timer id (v_timers v)) as [t|] eqn:Hf; [|done].
  case_bool_decide as Hdue; [|done].
  apply find_timer_Some in Hf as [Ht Hid].
  split; cbn [v_timers v_next v_now v_hooks v_expired].
  - intros t' [_ Ht']%elem_of_without. by apply S1.
  - eapply NoDup_ids_sublist; [apply without_sublist|done].
  - intros h hk id' Hh Hid'. destruct (S3 h hk id' Hh Hid') as [? Hown].
    split; [done|]. intros t' [_ Ht']%elem_of_without. by apply Hown.
  - intros h hk id' Hh Hid'. destruct (S4 h hk id' Hh Hid') as [? Hown].
    split; [done|]. intros t' [_ Ht']%elem_of_without. by apply Hown.
  - intros t' h [_ Ht']%elem_of_without. by apply S5.
  - intros h Hh.
    assert (Hcase : h ∈ v_expired v ∨ task t = Heartbeat h).
    { destruct (task t) as [h'|h']; [by left|].
      apply elem_of_app in Hh as [Hh|Hh]; [by left|right].
      apply list_elem_of_singleton in Hh. by subst. }
    destruct Hcase as [Hh'|Hk]; [by apply S6|].
    destruct (S5 t h Ht Hk) as (hk & l & Hhk & _ & Hl & HH & _).
    exists hk. split; [done|]. split; [by rewrite Hl|done].
  - intros h hk l Hh Hm Hl HH Hnow.
    destruct (S7 h hk l Hh Hm Hl HH Hnow) as (t' & Ht' & Hk').
    exists t'. split; [|done]. apply elem_of_without. split; [|done].
    intros E. assert (t' = t) as -> by (eapply same_id_same_timer; eauto; congruence).
    destruct (S5 t h Ht Hk') as (hk' & l' & Hhk' & _ & Hl' & _ & Hd).
    rewrite Hh in Hhk'. inversion Hhk'; subst hk'. rewrite Hl in Hl'.
    inversion Hl'; subst l'. lia.
Qed.

Lemma sound_closed h0 v : sound v → sound (astep (Closed h0) v).
Proof.
  intros Hs. pose proof Hs as [S1 S2 S3 S4 S5 S6 S7]. cbn [astep].
  destruct (v_hooks v !! h0) as [hk0|] eqn:H0; [|done].
  destruct (Hook.autoReconnect hk0); [|done].
  assert (Hlk : ∀ h hk,
            <[h0 := Hook.with_reconnectTimeout (Some (v_next v)) hk0]> (v_hooks v) !! h
            = Some hk →
            ∃ hk', v_hooks v !! h = Some hk'
                   ∧ Hook.timer hk = Hook.timer hk'
                   ∧ Hook.lastMessageTime hk = Hook.lastMessageTime hk'
                   ∧ Hook.heartbeatInterval hk = Hook.heartbeatInterval hk'
                   ∧ Hook.mounted hk = Hook.mounted hk'
                   ∧ (Hook.reconnectTimeout hk = Hook.reconnectTimeout hk'
                      ∨ h = h0 ∧ Hook.reconnectTimeout hk = Some (v_next v))).
  { intros h hk H. destruct (decide (h = h0)) as [->|Hne].
    - rewrite list_lookup_insert_eq in H by (by eapply lookup_lt_Some).
      inversion H; subst. exists hk0. repeat split; try done. by right.
    - rewrite list_lookup_insert_ne in H by done. exists hk. repeat split; try done.
      by left. }
  assert (Hkl : ∀ h hk, v_hooks v !! h = Some hk →
            ∃ hk', <[h0 := Hook.with_reconnectTimeout (Some (v_next v)) hk0]> (v_hooks v) !! h
                   = Some hk'
                   ∧ Hook.timer hk' = Hook.timer hk
                   ∧ Hook.lastMessageTime hk' = Hook.lastMessageTime hk
                   ∧ Hook.heartbeatInterval hk' = Hook.heartbeatInterval hk).
  { intros h hk H. destruct (decide (h = h0)) as [->|Hne].
    - rewrite list_lookup_insert_eq by (by eapply lookup_lt_Some).
      rewrite H0 in H. inversion H; subst. by eexists.
    - rewrite list_lookup_insert_ne by done. by exists hk. }
  set (new := mkTimer (v_next v) _ (Reconnect h0)).
  assert (Hin : ∀ t, t ∈ v_timers v ++ [new] → t ∈ v_timers v ∨ t = new).
  { intros t [H|H%list_elem_of_singleton]%elem_of_app; auto. }
  split; cbn [v_timers v_next v_now v_hooks v_expired].
  - intros t [Ht| ->]%Hin; [|simpl; lia]. specialize (S1 t Ht). lia.
  - apply NoDup_ids_snoc; [done|]. intros t' Ht'. simpl. by apply S1.
  - intros h hk id Hh Hid. destruct (Hlk h hk Hh) as (hk' & Hh' & Et & _).
    rewrite Et in Hid. destruct (S3 h hk' id Hh' Hid) as [Hlt Hown].
    split; [lia|]. intros t [Ht| ->]%Hin E; [by apply Hown|]. simpl in E. lia.
  - intros h hk id Hh Hid.
    destruct (Hlk h hk Hh) as (hk' & Hh' & _ & _ & _ & _ & [Er|[-> Er]]).
    + rewrite Er in Hid. destruct (S4 h hk' id Hh' Hid) as [Hlt Hown].
      split; [lia|]. intros t [Ht| ->]%Hin E; [by apply Hown|]. simpl in E. lia.
    + rewrite Er in Hid. inversion Hid; subst id. split; [lia|].
      intros t [Ht| ->]%Hin E; [|done]. specialize (S1 t Ht). lia.
  - intros t h [Ht| ->]%Hin Hk; [|done].
    destruct (S5 t h Ht Hk) as (hk & l & Hh & Ht' & Hl & HH & Hd).
    destruct (Hkl h hk Hh) as (hk' & Hh' & Et & El & EH).
    exists hk', l. rewrite Et, El, EH. by repeat split.
  - intros h Hh. destruct (S6 h Hh) as (hk & Hhk & Hl & HH).
    destruct (Hkl h hk Hhk) as (hk' & Hh' & Et & El & EH).
    exists hk'. rewrite El, EH. by repeat split.
  - intros h hk l Hh Hm Hl HH Hnow.
    destruct (Hlk h hk Hh) as (hk' & Hh' & _ & El & EH & Em & _).
    rewrite El in Hl. rewrite EH in HH, Hnow. rewrite Em in Hm.
    destruct (S7 h hk' l Hh' Hm Hl HH Hnow) as (t & Ht & Hk).
    exists t. split; [|done]. apply elem_of_app. by left.
Qed.

Lemma sound_unmounted h0 v : sound v → sound (astep (Unmounted h0) v).
Proof.
  intros Hs. pose proof Hs as [S1 S2 S3 S4 S5 S6 S7]. cbn [astep].
  destruct (v_hooks v !! h0) as [hk0|] eqn:H0; [|done].
  destruct (Hook.mounted hk0) eqn:Hm0; cbn [negb]; [|done].
  set (ts1 := match Hook.reconnectTimeout hk0 with
              | Some id => if bool_decide (id = 0) then v_timers v
                           else without id (v_timers v)
              | None => v_timers v
              end).
  set (ts2 := match Hook.timer hk0 with
              | Some id => without id ts1
              | None => ts1
              end).
  assert (Hsub1 : ts1 `sublist_of` v_timers v).
  { unfold ts1. destruct (Hook.reconnectTimeout hk0); [|done].
    case_bool_decide; [done|apply without_sublist]. }
  assert (Hsub : ts2 `sublist_of` v_timers v).
  { unfold ts2. destruct (Hook.timer hk0); [|done].
    etrans; [apply without_sublist|done]. }
  assert (Hin : ∀ t, t ∈ ts2 → t ∈ v_timers v).
  { intros t Ht. by eapply elem_of_sublist. }
  assert (Hgone : ∀ t, t ∈ ts2 → Hook.timer hk0 ≠ Some (timerId t)).
  { intros t Ht E. unfold ts2 in Ht. rewrite E in Ht.
    apply elem_of_without in Ht as [Hne _]. done. }
  assert (Hkept : ∀ t, t ∈ v_timers v →
            Hook.reconnectTimeout hk0 ≠ Some (timerId t) →
            Hook.timer hk0 ≠ Some (timerId t) → t ∈ ts2).
  { intros t Ht Hr Hti.
    assert (t ∈ ts1).
    { unfold ts1. destruct (Hook.reconnectTimeout hk0) as [id|]; [|done].
      case_bool_decide; [done|]. apply elem_of_without. split; [congruence|done]. }
    unfold ts2. destruct (Hook.timer hk0) as [id|]; [|done].
    apply elem_of_without. split; [congruence|done]. }
  set (hk0' := Hook.with_mounted false (Hook.with_timer None hk0)).
  assert (Hlk : ∀ h hk, <[h0 := hk0']> (v_hooks v) !! h = Some hk →
            (h = h0 ∧ hk = hk0') ∨ (h ≠ h0 ∧ v_hooks v !! h = Some hk)).
  { intros h hk H. destruct (decide (h = h0)) as [->|Hne].
    - rewrite list_lookup_insert_eq in H by (by eapply lookup_lt_Some).
      left. by inversion H.
    - rewrite list_lookup_insert_ne in H by done. by right. }
  assert (Hkl : ∀ h hk, v_hooks v !! h = Some hk →
            ∃ hk', <[h0 := hk0']> (v_hooks v) !! h = Some hk'
                   ∧ Hook.lastMessageTime hk' = Hook.lastMessageTime hk
                   ∧ Hook.heartbeatInterval hk' = Hook.heartbeatInterval hk
                   ∧ (h ≠ h0 → Hook.timer hk' = Hook.timer hk)).
  { intros h hk H. destruct (decide (h = h0)) as [->|Hne].
    - rewrite list_lookup_insert_eq by (by eapply lookup_lt_Some).
      rewrite H0 in H. inversion H; subst. by eexists.
    - rewrite list_lookup_insert_ne by done. by exists hk. }
  split; cbn [v_timers v_next v_now v_hooks v_expired].
  - intros t Ht. apply S1. by apply Hin.
  - by eapply NoDup_ids_sublist.
  - intros h hk id Hh Hid. destruct (Hlk h hk Hh) as [[-> ->]|[Hne Hh']]; [done|].
    destruct (S3 h hk id Hh' Hid) as [Hlt Hown]. split; [done|].
    intros t Ht. apply Hown. by apply Hin.
  - intros h hk id Hh Hid.
    assert (∃ hk', v_hooks v !! h = Some hk' ∧ Hook.reconnectTimeout hk' = Some id)
      as (hk' & Hh' & Hid').
    { destruct (Hlk h hk Hh) as [[-> ->]|[Hne Hh']]; [by exists hk0|by exists hk]. }
    destruct (S4 h hk' id Hh' Hid') as [Hlt Hown]. split; [done|].
    intros t Ht. apply Hown. by apply Hin.
  - intros t h Ht Hk.
    destruct (S5 t h (Hin t Ht) Hk) as (hk & l & Hh & Hti & Hl & HH & Hd).
    destruct (Hkl h hk Hh) as (hk' & Hh' & El & EH & Et).
    assert (h ≠ h0).
    { intros ->. rewrite H0 in Hh. inversion Hh; subst. by apply (Hgone t Ht). }
    exists hk', l. rewrite El, EH, Et by done. by repeat split.
  - intros h Hh. destruct (S6 h Hh) as (hk & Hhk & Hl & HH).
    destruct (Hkl h hk Hhk) as (hk' & Hh' & El & EH & _).
    exists hk'. rewrite El, EH. by repeat split.
  - intros h hk l Hh Hm Hl HH Hnow.
    destruct (Hlk h hk Hh) as [[-> ->]|[Hne Hh']]; [done|].
    destruct (S7 h hk l Hh' Hm Hl HH Hnow) as (t & Ht & Hk).
    exists t. split; [|done]. apply Hkept; [done| |].
    + intros E. destruct (S4 h0 hk0 (timerId t) H0 E) as [_ Hown].
      rewrite (Hown t Ht eq_refl) in Hk. done.
    + intros E. destruct (S3 h0 hk0 (timerId t) H0 E) as [_ Hown].
      rewrite (Hown t Ht eq_refl) in Hk. inversion Hk. done.
Qed.

Lemma sound_touch h0 v :
  sound v →
  (∀ hk, v_hooks v !! h0 = Some hk → Hook.heartbeatInterval hk ≠ 0%Z) →
  sound (v_touch h0 (v_now v) v).
Proof.
  intros Hs HH0. pose proof Hs as [S1 S2 S3 S4 S5 S6 S7]. unfold v_touch.
  destruct (v_hooks v !! h0) as [hk0|] eqn:H0; [|done].
  specialize (HH0 hk0 eq_refl).
  destruct (Hook.mounted hk0) eqn:Hm0; cbn [negb]; [|done].
  case_bool_decide as Hl0; [done|].
  rewrite bool_decide_eq_false_2 by done.
  set (ts := match Hook.timer hk0 with
             | Some id => without id (v_timers v)
             | None => v_timers v
             end).
  set (new := mkTimer (v_next v) _ (Heartbeat h0)).
  set (hk0' := Hook.with_timer (Some (v_next v))
                 (Hook.with_lastMessageTime (Some (v_now v)) hk0)).
  assert (Hsub : ts `sublist_of` v_timers v).
  { unfold ts. destruct (Hook.timer hk0); [apply without_sublist|done]. }
  assert (Hold : ∀ t, t ∈ ts → t ∈ v_timers v ∧ task t ≠ Heartbeat h0).
  { intros t Ht. assert (Ht' : t ∈ v_timers v) by (by eapply elem_of_sublist).
    split; [done|]. intros Hk.
    destruct (S5 t h0 Ht' Hk) as (hk & l & Hh & Hti & _).
    rewrite H0 in Hh. inversion Hh; subst hk.
    unfold ts in Ht. rewrite Hti in Ht. apply elem_of_without in Ht as [? _]. done. }
  assert (Hkept : ∀ t, t ∈ v_timers v → task t ≠ Heartbeat h0 → t ∈ ts).
  { intros t Ht Hk. unfold ts. destruct (Hook.timer hk0) as [id|] eqn:E; [|done].
    apply elem_of_without. split; [|done]. intros Eid.
    destruct (S3 h0 hk0 id H0 E) as [_ Hown]. by apply Hk, Hown. }
  assert (Hin : ∀ t, t ∈ ts ++ [new] →
            (t ∈ v_timers v ∧ task t ≠ Heartbeat h0 ∧ t ∈ ts) ∨ t = new).
  { intros t [H|H%list_elem_of_singleton]%elem_of_app; [left|by right].
    destruct (Hold t H). by repeat split. }
  assert (Hlk : ∀ h hk, <[h0 := hk0']> (v_hooks v) !! h = Some hk →
            (h = h0 ∧ hk = hk0') ∨ (h ≠ h0 ∧ v_hooks v !! h = Some hk)).
  { intros h hk H. destruct (decide (h = h0)) as [->|Hne].
    - rewrite list_lookup_insert_eq in H by (by eapply lookup_lt_Some).
      left. by inversion H.
    - rewrite list_lookup_insert_ne in H by done. by right. }
  split; cbn [v_timers v_next v_now v_hooks v_expired].
  - intros t [(Ht & _)| ->]%Hin; [|simpl; lia]. specialize (S1 t Ht). lia.
  - apply NoDup_ids_snoc; [by eapply NoDup_ids_sublist|].
    intros t' [Ht' _]%Hold. simpl. by apply S1.
  - intros h hk id Hh Hid. destruct (Hlk h hk Hh) as [[-> ->]|[Hne Hh']].
    + simpl in Hid. inversion Hid; subst id. split; [lia|].
      intros t [(Ht & _)| ->]%Hin E; [|done]. specialize (S1 t Ht). lia.
    + destruct (S3 h hk id Hh' Hid) as [Hlt Hown]. split; [lia|].
      intros t [(Ht & _)| ->]%Hin E; [by apply Hown|]. simpl in E. lia.
  - intros h hk id Hh Hid.
    assert (∃ hk', v_hooks v !! h = Some hk' ∧ Hook.reconnectTimeout hk' = Some id)
      as (hk' & Hh' & Hid').
    { destruct (Hlk h hk Hh) as [[-> ->]|[Hne Hh']]; [by exists hk0|by exists hk]. }
    destruct (S4 h hk' id Hh' Hid') as [Hlt Hown]. split; [lia|].
    intros t [(Ht & _)| ->]%Hin E; [by apply Hown|]. simpl in E. lia.
  - intros t h [(Ht & Hne & _)| ->]%Hin Hk.
    + destruct (S5 t h Ht Hk) as (hk & l & Hh & Hrest).
      exists hk, l. split; [|done].
      rewrite list_lookup_insert_ne; [done|]. intros ->. done.
    + simpl in Hk. inversion Hk; subst h. exists hk0', (v_now v).
      rewrite list_lookup_insert_eq by (by eapply lookup_lt_Some). by repeat split.
  - intros h Hh. destruct (S6 h Hh) as (hk & Hhk & Hl & HH).
    destruct (decide (h = h0)) as [->|Hne].
    + exists hk0'. rewrite list_lookup_insert_eq by (by eapply lookup_lt_Some).
      by repeat split.
    + exists hk. rewrite list_lookup_insert_ne by done. by repeat split.
  - intros h hk l Hh Hm Hl HH Hnow. destruct (Hlk h hk Hh) as [[-> ->]|[Hne Hh']].
    + exists new. split; [|done]. apply elem_of_app. right. by apply list_elem_of_singleton.
    + destruct (S7 h hk l Hh' Hm Hl HH Hnow) as (t & Ht & Hk).
      exists t. split; [|done]. apply elem_of_app. left. apply Hkept; [done|].
      rewrite Hk. intros E. inversion E. done.
Qed.

Lemma sound_astep k v : sound v → sound (astep k v).
Proof.
  intros Hs. destruct k as [|ms|h|h|id|options|h].
  - done.
  - by apply sound_elapsed.
  - by apply sound_closed.
  - cbn [astep]. destruct (v_hooks v !! h) as [hk|] eqn:Hh; [|done].
    case_bool_decide as HH; [done|]. apply sound_touch; [done|].
    intros hk' E. rewrite Hh in E. by inversion E; subst.
  - by apply sound_fired.
  - by apply sound_mounted.
  - by apply sound_unmounted.
Qed.

(** ** What the sound view says about the watchdog *)











(** ** The watchdog of the program *)





Section Watchdog.

Variable fuel : nat.
Variable listener_body : Listener → World → Result unit * World.
Variable JSON_parse : string → Result JsValue.
Variable JSON_stringify : JsValue → Result string.
Hypothesis observers : ∀ l w, snd (listener_body l w) = w.

Local Abbreviation step' := (step fuel listener_body JSON_parse JSON_stringify).
Local Abbreviation run' := (run fuel listener_body JSON_parse JSON_stringify).

Lemma run_sound inputs w w' : run' inputs w = Some w' → sound (view w) → sound (view w').
Proof.
  revert w. induction inputs as [|i inputs IH]; intros w H Hs; simpl in H.
  - by inversion H; subst.
  - destruct (step' i w) as [[r w1]|] eqn:E; [|done].
    apply (IH w1 H).
    rewrite (sim_step fuel listener_body JSON_parse JSON_stringify observers i w r w1 E).
    by apply sound_astep.
Qed.

Lemma reachable_sound t0 inputs w : run' inputs (initial t0) = Some w → sound (view w).
Proof. intros H. eapply run_sound; [exact H|apply sound_initial]. Qed.


End Watchdog.

(** The run of the "heartbeat arming" property: nothing armed after open,
    one watchdog after the first message, re-armed by the second, one
    synthetic message when it comes due, none after that. *)
Example watchdog_run :
  let o := Options.mk "x" "wss://e" None None None None (Some 15000%Z) in
  let opened := [Mount o; SocketOpen 0] in
  let first := opened ++ [Elapse 100; SocketMessage 0 (VStr "a")] in
  let second := first ++ [Elapse 10000; SocketMessage 0 (VStr "b")] in
  let early := second ++ [Elapse 14999; TimerFires 2] in
  let expired := early ++ [Elapse 1; TimerFires 2] in
  let later := expired ++ [Elapse 60000; TimerFires 2; TimerFires 1] in
  timers (after opened) = []
  ∧ timers (after first) = [mkTimer 1 15100 (Heartbeat 0)]
  ∧ timers (after second) = [mkTimer 2 25100 (Heartbeat 0)]
  ∧ timers (after early) = [mkTimer 2 25100 (Heartbeat 0)]
  ∧ synthetic_count 0 (after early) = 0
  ∧ timers (after expired) = []
  ∧ synthetic_count 0 (after expired) = 1
  ∧ latestMessages (after expired) !! "x" = Some (heartbeat_message 15000 25100)
  ∧ synthetic_count 0 (after later) = 1.
Proof. vm_compute. repeat split; reflexivity. Qed.


(** Two messages within one millisecond: [setLastMessageTime] is given the
    value it already holds, the effect is not run again, and the watchdog
    armed by the first message stays as it is. *)
Example same_millisecond_keeps_the_timer :
  let o := opts "x" in
  timers (after [Mount o; SocketOpen 0; SocketMessage 0 (VStr "a")])
  = [mkTimer 1 15000 (Heartbeat 0)]
  ∧ timers (after [Mount o; SocketOpen 0; SocketMessage 0 (VStr "a");
                   SocketMessage 0 (VStr "b")])
    = [mkTimer 1 15000 (Heartbeat 0)]
  ∧ timers (after [Mount o; SocketOpen 0; SocketMessage 0 (VStr "a"); Elapse 1;
                   SocketMessage 0 (VStr "b")])
    = [mkTimer 2 15001 (Heartbeat 0)].
Proof. vm_compute. repeat split; reflexivity. Qed.

Example zero_interval_never_expires :
  let o := Options.mk "x" "wss://e" None None None None (Some 0%Z) in
  let w := after [Mount o; SocketOpen 0; SocketMessage 0 (VStr "a"); Elapse 15000;
                  TimerFires 1] in
  timers w = [] ∧ synthetic_count 0 w = 0
  ∧ latestMessages w !! "x" = Some (mkMessage (VStr "a") 0).
Proof. vm_compute. repeat split; reflexivity. Qed.

(** * Further properties of the store and the hook *)

(** ** Subscriptions *)

Lemma elem_of_registered name l w : l ∈ registered name w ↔ Some l ∈ entries name w.
Proof.
  unfold registered. rewrite list_elem_of_omap. split.
  - intros ([l'|] & H & E); simpl in E; [|done]. by inversion E; subst.
  - intros H. by exists (Some l).
Qed.

Lemma omap_set_add_entries l (es : list (option Listener)) :
  omap id (set_add_entries l es)
  = if bool_decide (l ∈ omap id es) then omap id es else omap id es ++ [l].
Proof.
  unfold set_add_entries.
  assert (H : Some l ∈ es ↔ l ∈ omap id es).
  { rewrite list_elem_of_omap. split.
    - intros H. by exists (Some l).
    - intros ([l'|] & H & E); simpl in E; [|done]. by inversion E; subst. }
  destruct (decide (Some l ∈ es)) as [Hin|Hnin].
  - rewrite bool_decide_eq_true_2 by done.
    rewrite bool_decide_eq_true_2 by (by apply H). done.
  - rewrite bool_decide_eq_false_2 by done.
    rewrite bool_decide_eq_false_2 by (by rewrite <- H).
    by rewrite omap_app.
Qed.

Lemma omap_set_delete_entries l (es : list (option Listener)) :
  omap id (set_delete_entries l es) = filter (fun l' => l' ≠ l) (omap id es).
Proof.
  unfold set_delete_entries. induction es as [|[l'|] es IH]; [done| |done].
  cbn [fmap list_fmap omap list_omap id]. 
  destruct (decide (l' = l)) as [->|Hne].
  - rewrite bool_decide_eq_true_2 by done. rewrite filter_cons_False by (by intros H; apply H).
    exact IH.
  - rewrite bool_decide_eq_false_2 by congruence. cbn [omap list_omap id].
    rewrite filter_cons_True by done. simpl. f_equal. exact IH.
Qed.

Lemma set_delete_entries_idemp l (es : list (option Listener)) :
  set_delete_entries l (set_delete_entries l es) = set_delete_entries l es.
Proof.
  unfold set_delete_entries. rewrite <- list_fmap_compose. apply list_fmap_ext.
  intros i e _. simpl. destruct (decide (e = Some l)) as [->|Hne].
  - rewrite (bool_decide_eq_true_2 (Some l = Some l)) by done.
    by rewrite bool_decide_eq_false_2.
  - rewrite (bool_decide_eq_false_2 (e = Some l)) by done.
    by rewrite bool_decide_eq_false_2.
Qed.

Lemma subscribeWebSocket_eq name l w :
  subscribeWebSocket name l w
  = Some (Ok (name, l), set_listeners <[name := set_add_entries l (entries name w)]> w).
Proof.
  unfold subscribeWebSocket, bind. rewrite getListeners_eq.
  unfold Set_add, modify, ret, with_set, entries, set_listeners.
  case_bool_decide as H; simpl.
  - rewrite lookup_insert_eq, H, insert_insert_eq. done.
  - done.
Qed.

Lemma entries_insert name name' es w :
  entries name' (set_listeners <[name := es]> w)
  = if bool_decide (name' = name) then es else entries name' w.
Proof.
  unfold entries. simpl. case_bool_decide as H.
  - subst. by rewrite lookup_insert_eq.
  - by rewrite lookup_insert_ne.
Qed.

Lemma NoDup_snoc_fresh {A} (xs : list A) x : NoDup xs → x ∉ xs → NoDup (xs ++ [x]).
Proof.
  intros Hnd Hx. apply NoDup_app. split; [done|]. split; [|apply NoDup_singleton].
  intros y Hy Hy'. apply list_elem_of_singleton in Hy'. by subst.
Qed.

(** X1: for a name that [Object.prototype] does not define,
    [subscribeWebSocket] registers a callback once.  A callback that is
    not yet in the Set of the name is appended, so that it is called last;
    one that is already there stays where it is and is not registered a
    second time.  The Sets of the other names, the tables, the sockets,
    the timers and the log are left as they are: no listener is called. *)
Theorem subscribe_registers_once (name : string) (l : Listener) (w : World) :
  inherited name = false →
  ∃ w', subscribeWebSocket name l w = Some (Ok (name, l), w')
    ∧ registered name w'
      = (if bool_decide (l ∈ registered name w) then registered name w
         else registered name w ++ [l])
    ∧ (NoDup (registered name w) → NoDup (registered name w'))
    ∧ (∀ name', name' ≠ name → entries name' w' = entries name' w)
    ∧ state w' = state w ∧ latestMessages w' = latestMessages w
    ∧ sockets w' = sockets w ∧ timers w' = timers w ∧ hooks w' = hooks w
    ∧ log w' = log w.
Proof.
  intros _. eexists. split; [apply subscribeWebSocket_eq|].
  assert (E : registered name (set_listeners <[name := set_add_entries l (entries name w)]> w)
              = if bool_decide (l ∈ registered name w) then registered name w
                else registered name w ++ [l]).
  { unfold registered. rewrite entries_insert, bool_decide_eq_true_2 by done.
    apply omap_set_add_entries. }
  split; [exact E|]. split.
  - rewrite E. intros Hnd. case_bool_decide; [done|]. by apply NoDup_snoc_fresh.
  - split; [|by repeat split].
    intros name' Hne. by rewrite entries_insert, bool_decide_eq_false_2.
Qed.

Lemma subscribe_registers_once_witness :
  ∃ w', subscribeWebSocket "x" 3 two_listeners = Some (Ok ("x"%string, 3), w')
    ∧ registered "x" w'
      = (if bool_decide (3 ∈ registered "x" two_listeners) then registered "x" two_listeners
         else registered "x" two_listeners ++ [3])
    ∧ (NoDup (registered "x" two_listeners) → NoDup (registered "x" w'))
    ∧ (∀ name', name' ≠ "x"%string → entries name' w' = entries name' two_listeners)
    ∧ state w' = state two_listeners ∧ latestMessages w' = latestMessages two_listeners
    ∧ sockets w' = sockets two_listeners ∧ timers w' = timers two_listeners
    ∧ hooks w' = hooks two_listeners
    ∧ log w' = log two_listeners.
Proof.
  apply (subscribe_registers_once "x" 3 two_listeners). reflexivity.
Defined.

Lemma unsubscribe_eq name l w :
  unsubscribe (name, l) w
  = Some (Ok (bool_decide (l ∈ registered name w)),
          set_listeners <[name := set_delete_entries l (entries name w)]> w).
Proof.
  unfold unsubscribe, Set_delete. cbn [fst snd].
  by rewrite (bool_decide_ext _ _ (elem_of_registered name l w)).
Qed.

(** X2: the function that [subscribeWebSocket] returns removes the
    callback and tells whether it was registered; the other callbacks
    keep their order and the other names are not touched.  Called again,
    it returns false and changes nothing. *)
Theorem unsubscribe_is_idempotent (name : string) (l : Listener) (w : World) :
  ∃ w', unsubscribe (name, l) w = Some (Ok (bool_decide (l ∈ registered name w)), w')
    ∧ registered name w' = filter (fun l' => l' ≠ l) (registered name w)
    ∧ (l ∉ registered name w')
    ∧ (∀ name', name' ≠ name → entries name' w' = entries name' w)
    ∧ unsubscribe (name, l) w' = Some (Ok false, w')
    ∧ state w' = state w ∧ latestMessages w' = latestMessages w
    ∧ sockets w' = sockets w ∧ timers w' = timers w ∧ hooks w' = hooks w
    ∧ log w' = log w.
Proof.
  eexists. split; [apply unsubscribe_eq|].
  set (w' := set_listeners _ w).
  assert (E : registered name w' = filter (fun l' => l' ≠ l) (registered name w)).
  { unfold registered, w'. rewrite entries_insert, bool_decide_eq_true_2 by done.
    apply omap_set_delete_entries. }
  assert (N : l ∉ registered name w').
  { rewrite E. intros H. apply list_elem_of_filter in H. by destruct H. }
  split; [exact E|]. split; [exact N|]. split.
  { intros name' Hne. unfold w'. by rewrite entries_insert, bool_decide_eq_false_2. }
  split; [|by repeat split].
  rewrite unsubscribe_eq, bool_decide_eq_false_2 by done. f_equal. f_equal.
  unfold w' at 1 3. rewrite entries_insert, bool_decide_eq_true_2 by done.
  rewrite set_delete_entries_idemp. unfold set_listeners. simpl.
  by rewrite insert_insert_eq.
Qed.

Lemma filter_ne_fresh (l : Listener) (ls : list Listener) :
  l ∉ ls → filter (fun l' => l' ≠ l) ls = ls.
Proof.
  induction ls as [|x ls IH]; intros H; [done|].
  apply not_elem_of_cons in H as [Hx Hl].
  rewrite filter_cons_True by done. f_equal. by apply IH.
Qed.

(** X3: for a name that [Object.prototype] does not define, subscribing
    and then calling the returned function leaves the callback
    unregistered.  The Set is as it was when the callback was new; when
    the same function had been registered before, that registration is
    gone as well, since a Set holds a function once. *)
Theorem subscribe_then_unsubscribe (name : string) (l : Listener) (w : World) :
  inherited name = false →
  ∃ w', bind (subscribeWebSocket name l) unsubscribe w = Some (Ok true, w')
    ∧ registered name w' = filter (fun l' => l' ≠ l) (registered name w)
    ∧ (l ∉ registered name w → registered name w' = registered name w)
    ∧ (∀ name', name' ≠ name → entries name' w' = entries name' w).
Proof.
  intros _. unfold bind. rewrite subscribeWebSocket_eq, unsubscribe_eq.
  set (w1 := set_listeners _ w).
  assert (R1 : registered name w1
               = if bool_decide (l ∈ registered name w) then registered name w
                 else registered name w ++ [l]).
  { unfold registered, w1. rewrite entries_insert, bool_decide_eq_true_2 by done.
    apply omap_set_add_entries. }
  assert (In1 : l ∈ registered name w1).
  { rewrite R1. case_bool_decide; [done|]. apply elem_of_app. right. by left. }
  rewrite bool_decide_eq_true_2 by done.
  eexists. split; [reflexivity|].
  assert (E : registered name (set_listeners <[name := set_delete_entries l (entries name w1)]> w1)
              = filter (fun l' => l' ≠ l) (registered name w)).
  { unfold registered at 1. rewrite entries_insert, bool_decide_eq_true_2 by done.
    rewrite omap_set_delete_entries. fold (registered name w1). rewrite R1.
    case_bool_decide; [done|].
    rewrite filter_app. rewrite filter_cons_False by (by intros H'; apply H').
    by rewrite filter_nil, app_nil_r. }
  split; [exact E|]. split.
  - intros Hn. rewrite E. by apply filter_ne_fresh.
  - intros name' Hne. rewrite entries_insert, bool_decide_eq_false_2 by done.
    unfold w1. by rewrite entries_insert, bool_decide_eq_false_2.
Qed.

Lemma subscribe_then_unsubscribe_witness :
  ∃ w', bind (subscribeWebSocket "x" 2) unsubscribe two_listeners = Some (Ok true, w')
    ∧ registered "x" w' = filter (fun l' => l' ≠ 2) (registered "x" two_listeners)
    ∧ (2 ∉ registered "x" two_listeners →
       registered "x" w' = registered "x" two_listeners)
    ∧ (∀ name', name' ≠ "x"%string → entries name' w' = entries name' two_listeners).
Proof.
  apply (subscribe_then_unsubscribe "x" 2 two_listeners). reflexivity.
Defined.

(** ** Writing the store *)

Section Store.

Variable fuel : nat.
Variable listener_body : Listener → World → Result unit * World.
Hypothesis observers : ∀ l w, snd (listener_body l w) = w.

Lemma invoked_in_app name evs1 evs2 :
  invoked_in name (evs1 ++ evs2) = invoked_in name evs1 ++ invoked_in name evs2.
Proof. apply omap_app. Qed.

(** What a fan-out for [name] logs: one call for each registered
    callback, in order, and no call for another name. *)
Lemma for_each_of_observers_names name ls w :
  ∃ evs, invoked_in name evs = ls
         ∧ (∀ name', name' ≠ name → invoked_in name' evs = [])
         ∧ Forall fanout_event evs
         ∧ for_each_of (invoke_listener listener_body name) ls w
           = Some (Ok tt, add_log evs w).
Proof.
  revert w. induction ls as [|l ls IH]; intros w; simpl.
  - exists []. repeat split; [done|]. by rewrite add_log_nil.
  - assert (H1 : ∃ evs1, invoked_in name evs1 = [l]
                         ∧ (∀ name', name' ≠ name → invoked_in name' evs1 = [])
                         ∧ Forall fanout_event evs1
                         ∧ invoke_listener listener_body name l w
                           = Some (Ok tt, add_log evs1 w)).
    { rewrite invoke_listener_eq.
      pose proof (observers l (add_log [Invoked name l] w)) as Hw.
      destruct (listener_body l _) as [[[]|e] w']; simpl in Hw; subst w'.
      - exists [Invoked name l]. unfold invoked_in. simpl.
        rewrite bool_decide_eq_true_2 by done. repeat split; [|by repeat constructor].
        intros name' Hne. by rewrite bool_decide_eq_false_2.
      - eexists [Invoked name l; ConsoleError _ (Some e)]. unfold invoked_in. simpl.
        rewrite bool_decide_eq_true_2 by done. repeat split.
        + intros name' Hne. by rewrite bool_decide_eq_false_2.
        + by repeat constructor.
        + by rewrite add_log_app. }
    destruct H1 as (evs1 & I1 & O1 & F1 & E1).
    destruct (IH (add_log evs1 w)) as (evs2 & I2 & O2 & F2 & E2).
    exists (evs1 ++ evs2). repeat split.
    + by rewrite invoked_in_app, I1, I2.
    + intros name' Hne. by rewrite invoked_in_app, O1, O2.
    + by apply Forall_app.
    + unfold bind. by rewrite E1, E2, add_log_app.
Qed.

Lemma notify_observers_names name w :
  length (entries name w) < fuel ∨ notifyListeners fuel listener_body name w ≠ None →
  ∃ evs, fanout_of name w evs
         ∧ notifyListeners fuel listener_body name w = Some (Ok tt, notified name evs w).
Proof.
  intros Hn.
  rewrite notifyListeners_fold; [| |done].
  { destruct (for_each_of_observers_names name (registered name w) (with_set name w))
      as (evs & I & O & F & E).
    exists evs. by repeat split. }
  intros i l w0 w1 r _ Hag Hinv.
  destruct (invoke_observer listener_body observers name l w0) as (evs & _ & E).
  rewrite E in Hinv. inversion Hinv; subst.
  destruct Hag as [Hlen Hsame]. split; [done|]. intros j Hj. apply Hsame. lia.
Qed.

End Store.



(** ** The latest message *)

(** X6: for a name that [Object.prototype] does not define,
    [addMessage] puts the message under the name and notifies the
    listeners of the name; [clearWebSocketMessage] then removes it and
    notifies them once more; a second [clearWebSocketMessage] finds
    nothing, changes nothing and calls no listener.  The connection
    records are not touched. *)
Theorem latest_message_set_then_cleared fuel lb (name : string) (msg : WebSocketMessage)
    (w : World) :
  inherited name = false →
  (∀ l w0, snd (lb l w0) = w0) →
  length (entries name w) < fuel →
  ∃ evs1 evs2 w1 w2,
    addMessage fuel lb name msg w = Some (Ok tt, w1)
    ∧ latestMessages w1 = <[name := msg]> (latestMessages w)
    ∧ state w1 = state w
    ∧ log w1 = log w ++ evs1 ∧ invoked_in name evs1 = registered name w
    ∧ clearWebSocketMessage fuel lb name w1 = Some (Ok tt, w2)
    ∧ latestMessages w2 = delete name (latestMessages w)
    ∧ state w2 = state w
    ∧ log w2 = log w1 ++ evs2 ∧ invoked_in name evs2 = registered name w
    ∧ clearWebSocketMessage fuel lb name w2 = Some (Ok tt, w2).
Proof.
  intros _ Hobs Hfuel.
  unfold addMessage, bind, modify.
  set (w0 := set_latestMessages _ w).
  destruct (notify_observers_names fuel lb Hobs name w0 (or_introl Hfuel))
    as (evs1 & (_ & I1 & _) & E1).
  rewrite E1. set (w1 := notified name evs1 w0).
  assert (L1 : latestMessages w1 = <[name := msg]> (latestMessages w)).
  { unfold w1. by rewrite latestMessages_notified. }
  assert (N1 : entries name w1 = entries name w).
  { unfold w1. by rewrite entries_notified. }
  set (w1' := set_latestMessages (delete name) w1).
  destruct (notify_observers_names fuel lb Hobs name w1') as (evs2 & (_ & I2 & _) & E2).
  { left. change (entries name w1') with (entries name w1). by rewrite N1. }
  set (w2 := notified name evs2 w1') in E2.
  assert (L2 : latestMessages w2 = delete name (latestMessages w)).
  { unfold w2. rewrite latestMessages_notified. unfold w1'. wsimpl.
    by rewrite L1, delete_insert_eq. }
  assert (C1 : clearWebSocketMessage fuel lb name w1 = Some (Ok tt, w2)).
  { unfold clearWebSocketMessage, bind, get, modify. by rewrite L1, lookup_insert_eq. }
  assert (C2 : clearWebSocketMessage fuel lb name w2 = Some (Ok tt, w2)).
  { unfold clearWebSocketMessage, bind, get, modify. by rewrite L2, lookup_delete_eq. }
  exists evs1, evs2, w1, w2.
  repeat split; try done.
  - unfold w1. by rewrite state_notified.
  - unfold w1. by rewrite log_notified.
  - unfold w2. rewrite state_notified. unfold w1'. wsimpl. unfold w1.
    by rewrite state_notified.
  - unfold w2. by rewrite log_notified.
  - rewrite I2. unfold registered.
    change (entries name w1') with (entries name w1). by rewrite N1.
Qed.

Lemma latest_message_witness :
  ∃ evs1 evs2 w1 w2,
    addMessage 8 quiet "x" (mkMessage (VStr "m") 5) two_listeners = Some (Ok tt, w1)
    ∧ latestMessages w1 = <["x" := mkMessage (VStr "m") 5]> (latestMessages two_listeners)
    ∧ state w1 = state two_listeners
    ∧ log w1 = log two_listeners ++ evs1
    ∧ invoked_in "x" evs1 = registered "x" two_listeners
    ∧ clearWebSocketMessage 8 quiet "x" w1 = Some (Ok tt, w2)
    ∧ latestMessages w2 = delete "x" (latestMessages two_listeners)
    ∧ state w2 = state two_listeners
    ∧ log w2 = log w1 ++ evs2 ∧ invoked_in "x" evs2 = registered "x" two_listeners
    ∧ clearWebSocketMessage 8 quiet "x" w2 = Some (Ok tt, w2).
Proof.
  apply (latest_message_set_then_cleared 8 quiet "x" (mkMessage (VStr "m") 5) two_listeners).
  - reflexivity.
  - intros l w0. reflexivity.
  - vm_compute. lia.
Defined.

Lemma closing_eq s w :
  match s with Some s => socket_close s | None => ret tt end w = Some (Ok tt, closing s w).
Proof. by destruct s. Qed.

Lemma cancelled_eq id w :
  match id with
  | Some id => when (negb (bool_decide (id = 0))) (clearTimeout id)
  | None => ret tt
  end w = Some (Ok tt, cancelled id w).
Proof.
  destruct id as [id|]; [|done]. unfold cancelled, when.
  by case_bool_decide.
Qed.

Lemma written_fields name p evs w :
  state (written name p evs w) = <[name := spread (read name w) p]> (state w)
  ∧ latestMessages (written name p evs w) = latestMessages w
  ∧ now (written name p evs w) = now w ∧ sockets (written name p evs w) = sockets w
  ∧ timers (written name p evs w) = timers w
  ∧ nextTimer (written name p evs w) = nextTimer w
  ∧ hooks (written name p evs w) = hooks w ∧ log (written name p evs w) = log w ++ evs.
Proof.
  unfold written.
  rewrite state_notified, latestMessages_notified, now_notified, sockets_notified,
    timers_notified, nextTimer_notified, hooks_notified, log_notified. done.
Qed.

Lemma entries_written name name' p evs w :
  entries name' (written name p evs w) = entries name' w.
Proof. unfold written. by rewrite entries_notified. Qed.

Lemma fanout_of_entries name w w' evs :
  entries name w' = entries name w → fanout_of name w' evs → fanout_of name w evs.
Proof. unfold fanout_of, registered. by intros ->. Qed.

Section Handlers.

Variable fuel : nat.
Variable listener_body : Listener → World → Result unit * World.
Hypothesis observers : ∀ l w, snd (listener_body l w) = w.

Lemma setWebSocketState_written name partial w :
  length (entries name w) < fuel
    ∨ setWebSocketState fuel listener_body name partial w ≠ None →
  ∃ evs, fanout_of name w evs ∧
    setWebSocketState fuel listener_body name partial w
    = Some (Ok tt, written name partial evs w).
Proof.
  intros Hn. unfold setWebSocketState, getWebSocketState, bind, get, ret, modify in *.
  simpl in *.
  destruct (notify_observers_names fuel listener_body observers name
              (set_state <[name := spread (read name w) partial]> w) Hn) as (evs & F & E).
  exists evs. split; [|exact E]. exact F.
Qed.

Lemma connect_observers h hk w :
  hooks w !! h = Some hk →
  WebSocketState.connected (read (Hook.name hk) w)
    || WebSocketState.connecting (read (Hook.name hk) w) = false →
  length (entries (Hook.name hk) w) < fuel ∨ connect fuel listener_body h w ≠ None →
  ∃ evs, fanout_of (Hook.name hk) w evs ∧
    connect fuel listener_body h w = Some (Ok tt, after_connect h hk evs w).
Proof.
  intros Hh Hidle Hn. unfold connect in *. rewrite (in_hook_eq _ _ _ _ _ Hh) in *.
  unfold bind in *. rewrite getWebSocketState_eq in *. rewrite Hidle in *.
  fold (connecting_partial hk) in *.
  destruct (setWebSocketState_written (Hook.name hk) (connecting_partial hk) w)
    as (evs & F & E).
  { destruct Hn as [Hn|Hn]; [by left|right]. intros HN. apply Hn. by rewrite HN. }
  rewrite E. exists evs. split; [done|].
  unfold new_WebSocket, bind, get, modify, ret. wsimpl.
  erewrite update_hook_eq.
  - unfold after_connect. do 3 f_equal.
    by destruct (written_fields (Hook.name hk) (connecting_partial hk) evs w)
      as (_ & _ & _ & -> & _).
  - wsimpl. by destruct (written_fields (Hook.name hk) (connecting_partial hk) evs w)
      as (_ & _ & _ & _ & _ & _ & -> & _).
Qed.

Lemma onopen_observers h hk w :
  hooks w !! h = Some hk →
  length (entries (Hook.name hk) w) < fuel ∨ onopen fuel listener_body h w ≠ None →
  ∃ evs, fanout_of (Hook.name hk) w evs ∧
    onopen fuel listener_body h w
    = Some (Ok tt, written (Hook.name hk) (open_partial hk) evs w).
Proof.
  intros Hh Hn. unfold onopen in *. rewrite (in_hook_eq _ _ _ _ _ Hh) in *.
  by apply setWebSocketState_written.
Qed.

Lemma onclose_observers h hk w :
  hooks w !! h = Some hk →
  length (entries (Hook.name hk) w) < fuel ∨ onclose fuel listener_body h w ≠ None →
  ∃ evs, fanout_of (Hook.name hk) w evs ∧
    onclose fuel listener_body h w = Some (Ok tt, after_close h hk evs w).
Proof.
  intros Hh Hn. unfold onclose in *. rewrite (in_hook_eq _ _ _ _ _ Hh) in *.
  unfold bind in *.
  destruct (setWebSocketState_written (Hook.name hk) idle w) as (evs & F & E).
  { destruct Hn as [Hn|Hn]; [by left|right]. intros HN. apply Hn. by rewrite HN. }
  rewrite E. exists evs. split; [done|]. unfold after_close, when.
  destruct (written_fields (Hook.name hk) idle evs w)
    as (_ & _ & Hnow & _ & _ & Hnext & Hhooks & _).
  destruct (Hook.autoReconnect hk); [|done].
  unfold bind, setTimeout, bind, get, modify, ret. wsimpl.
  erewrite update_hook_eq by (wsimpl; by rewrite Hhooks).
  by rewrite Hnow, Hnext.
Qed.

Lemma onerror_observers h hk w :
  hooks w !! h = Some hk →
  length (entries (Hook.name hk) w) < fuel ∨ onerror fuel listener_body h w ≠ None →
  ∃ evs, fanout_of (Hook.name hk) w evs ∧
    onerror fuel listener_body h w = Some (Ok tt, after_error h hk evs w).
Proof.
  intros Hh Hn. unfold onerror in *. rewrite (in_hook_eq _ _ _ _ _ Hh) in *.
  unfold bind, console_error, emit, modify in *. rewrite add_log_eq in *.
  set (w0 := add_log _ w) in *.
  destruct (setWebSocketState_written (Hook.name hk) error_partial w0) as (evs & F & E).
  { destruct Hn as [Hn|Hn]; [by left|right]. intros HN. apply Hn.
    unfold error_partial in HN. by rewrite HN. }
  unfold error_partial in E. rewrite E. exists evs. split; [exact F|].
  unfold after_error. apply closing_eq.
Qed.

Lemma entries_closing name s w : entries name (closing s w) = entries name w.
Proof. by destruct s. Qed.

Lemma entries_cancelled name id w : entries name (cancelled id w) = entries name w.
Proof. destruct id as [id|]; [|done]. unfold cancelled. by case_bool_decide. Qed.

Lemma hooks_closing s w : hooks (closing s w) = hooks w.
Proof. by destruct s. Qed.

Lemma hooks_cancelled id w : hooks (cancelled id w) = hooks w.
Proof. destruct id as [id|]; [|done]. unfold cancelled. by case_bool_decide. Qed.

Lemma connect_cleanup_observers h hk w :
  hooks w !! h = Some hk →
  length (entries (Hook.name hk) w) < fuel
    ∨ connect_cleanup fuel listener_body h w ≠ None →
  ∃ evs, fanout_of (Hook.name hk) w evs ∧
    connect_cleanup fuel listener_body h w = Some (Ok tt, after_cleanup h hk evs w).
Proof.
  intros Hh Hn. unfold connect_cleanup in *. rewrite (in_hook_eq _ _ _ _ _ Hh) in *.
  unfold bind in *. rewrite closing_eq in *. rewrite cancelled_eq in *.
  set (w0 := cancelled _ _) in *.
  assert (E0 : entries (Hook.name hk) w0 = entries (Hook.name hk) w).
  { unfold w0. by rewrite entries_cancelled, entries_closing. }
  destruct (setWebSocketState_written (Hook.name hk) idle w0) as (evs & F & E).
  { destruct Hn as [Hn|Hn]; [left|by right]. by rewrite E0. }
  rewrite E. exists evs. split; [|done]. by eapply fanout_of_entries.
Qed.

Lemma hooks_after_cleanup h hk evs w : hooks (after_cleanup h hk evs w) = hooks w.
Proof.
  unfold after_cleanup.
  destruct (written_fields (Hook.name hk) idle evs
              (cancelled (Hook.reconnectTimeout hk) (closing (Hook.socket hk) w)))
    as (_ & _ & _ & _ & _ & _ & -> & _).
  by rewrite hooks_cancelled, hooks_closing.
Qed.

Lemma unmount_observers h hk w :
  hooks w !! h = Some hk →
  Hook.mounted hk = true →
  length (entries (Hook.name hk) w) < fuel ∨ unmount fuel listener_body h w ≠ None →
  ∃ evs, fanout_of (Hook.name hk) w evs ∧
    unmount fuel listener_body h w = Some (Ok tt, after_unmount h hk evs w).
Proof.
  intros Hh Hm Hn. unfold unmount in *. rewrite (in_hook_eq _ _ _ _ _ Hh) in *.
  rewrite Hm in *. cbn [negb] in *. unfold bind in *.
  destruct (connect_cleanup_observers h hk w Hh) as (evs & F & E).
  { destruct Hn as [Hn|Hn]; [by left|right]. intros HN. apply Hn. by rewrite HN. }
  rewrite E. exists evs. split; [done|].
  assert (H1 : hooks (after_cleanup h hk evs w) !! h = Some hk)
    by (by rewrite hooks_after_cleanup).
  rewrite (heartbeat_cleanup_eq _ _ _ H1).
  by rewrite (update_hook_eq _ _ _ _ (hooks_disarmed h hk _ H1)).
Qed.

Lemma disconnect_observers name w :
  length (entries name w) < fuel ∨ disconnectWebSocket fuel listener_body name w ≠ None →
  ∃ evs, fanout_of name w evs ∧
    disconnectWebSocket fuel listener_body name w = Some (Ok tt, after_disconnect name evs w).
Proof.
  intros Hn. unfold disconnectWebSocket in *. unfold bind in *.
  rewrite getWebSocketState_eq in *. rewrite closing_eq in *.
  set (w0 := closing _ w) in *.
  assert (E0 : entries name w0 = entries name w) by apply entries_closing.
  destruct (setWebSocketState_written name idle w0) as (evs & F & E).
  { destruct Hn as [Hn|Hn]; [left|by right]. by rewrite E0. }
  rewrite E. exists evs. split; [by eapply fanout_of_entries|]. unfold after_disconnect.
  replace (read name w0) with (read name w) in E; [done|].
  unfold w0, closing. by destruct (WebSocketState.socket (read name w)).
Qed.

End Handlers.

(** ** The life of a connection *)

Lemma snoc_lookup_last {A} (xs : list A) x : (xs ++ [x]) !! length xs = Some x.
Proof. by rewrite list_lookup_middle. Qed.

Lemma snoc_insert_last {A} (xs : list A) x y : <[length xs := y]> (xs ++ [x]) = xs ++ [y].
Proof. rewrite insert_app_r_alt by lia. by rewrite Nat.sub_diag. Qed.

Lemma read_written name p evs w : read name (written name p evs w) = spread (read name w) p.
Proof.
  unfold read at 1. destruct (written_fields name p evs w) as (-> & _).
  by rewrite lookup_insert_eq.
Qed.

Lemma read_written_ne name name' p evs w :
  name' ≠ name → read name' (written name p evs w) = read name' w.
Proof.
  intros Hne. unfold read. destruct (written_fields name p evs w) as (-> & _).
  by rewrite lookup_insert_ne.
Qed.

(** X7: the open event of a connecting socket marks the socket open and
    the record of the hook's name connected.  The record gets the socket
    that the hook's [socket] variable holds and keeps its name, messages
    and storeHistory; the other records, the timers (no watchdog is armed
    at open), the hooks and the latest messages are left as they are, and
    the listeners of the name are notified.  When the variable holds the
    socket that opened, [sendWebSocketMessage] then puts a string on that
    socket as it is. *)
Theorem open_event_connects fuel lb parse stringify
    (s : SocketId) (url : string) (h : HookId) (hk : Hook.t) (w : World) :
  (∀ l w0, snd (lb l w0) = w0) →
  inherited (Hook.name hk) = false →
  sockets w !! s = Some (mkSocket url CONNECTING h) →
  hooks w !! h = Some hk →
  length (entries (Hook.name hk) w) < fuel →
  ∃ evs w',
    step fuel lb parse stringify (SocketOpen s) w = Some (Ok tt, w')
    ∧ sockets w' = <[s := mkSocket url OPEN h]> (sockets w)
    ∧ read (Hook.name hk) w'
      = WebSocketState.mk (WebSocketState.name (read (Hook.name hk) w)) (Hook.socket hk)
          true false (WebSocketState.messages (read (Hook.name hk) w))
          (WebSocketState.storeHistory (read (Hook.name hk) w))
    ∧ (∀ name', name' ≠ Hook.name hk → read name' w' = read name' w)
    ∧ timers w' = timers w ∧ hooks w' = hooks w ∧ latestMessages w' = latestMessages w
    ∧ log w' = log w ++ evs ∧ fanout_of (Hook.name hk) w evs
    ∧ (Hook.socket hk = Some s →
       ∀ payload,
         sendWebSocketMessage stringify (Hook.name hk) (VStr payload) w'
         = Some (Ok tt, add_log [Sent s payload] w')).
Proof.
  intros Hobs _ Hs Hh Hfuel.
  unfold step, bind at 1, get at 1. rewrite Hs.
  unfold bind at 1, set_socket_state, modify.
  set (w0 := set_sockets _ w).
  assert (S0 : sockets w0 = <[s := mkSocket url OPEN h]> (sockets w)).
  { unfold w0. cbn [sockets set_sockets]. by rewrite Hs. }
  destruct (onopen_observers fuel lb Hobs h hk w0 Hh (or_introl Hfuel)) as (evs & F & E).
  rewrite E. clear E. exists evs. eexists. split; [reflexivity|].
  destruct (written_fields (Hook.name hk) (open_partial hk) evs w0)
    as (St & Lm & Nw & Sk & Tm & Nx & Hk & Lg).
  assert (R : read (Hook.name hk) (written (Hook.name hk) (open_partial hk) evs w0)
              = WebSocketState.mk (WebSocketState.name (read (Hook.name hk) w))
                  (Hook.socket hk) true false
                  (WebSocketState.messages (read (Hook.name hk) w))
                  (WebSocketState.storeHistory (read (Hook.name hk) w))).
  { by rewrite read_written. }
  assert (F' : fanout_of (Hook.name hk) w evs).
  { by apply (fanout_of_entries (Hook.name hk) w w0). }
  rewrite Sk, Tm, Hk, Lm, Lg.
  split; [exact S0|]. split; [exact R|]. split; [|do 5 (split; [done|])].
  - intros name' Hne. by rewrite read_written_ne.
  - intros Hsock payload.
    unfold sendWebSocketMessage, bind. rewrite getWebSocketState_eq, R, Hsock.
    cbn [WebSocketState.connected WebSocketState.socket is_string].
    unfold try_catch, bind, ret, socket_send, bind, get. rewrite Sk, S0.
    rewrite list_lookup_insert_eq by (by eapply lookup_lt_Some).
    reflexivity.
Qed.

Lemma open_event_witness :
  let w := after [Mount (opts "x")] in
  let hk := Hook.with_socket (Some 0) (Hook.create (opts "x")) in
  ∃ evs w',
    step 8 quiet Json.parse Json.stringify (SocketOpen 0) w = Some (Ok tt, w')
    ∧ sockets w' = <[0 := mkSocket "wss://example.test" OPEN 0]> (sockets w)
    ∧ read (Hook.name hk) w'
      = WebSocketState.mk (WebSocketState.name (read (Hook.name hk) w)) (Hook.socket hk)
          true false (WebSocketState.messages (read (Hook.name hk) w))
          (WebSocketState.storeHistory (read (Hook.name hk) w))
    ∧ (∀ name', name' ≠ Hook.name hk → read name' w' = read name' w)
    ∧ timers w' = timers w ∧ hooks w' = hooks w ∧ latestMessages w' = latestMessages w
    ∧ log w' = log w ++ evs ∧ fanout_of (Hook.name hk) w evs
    ∧ (Hook.socket hk = Some 0 →
       ∀ payload,
         sendWebSocketMessage Json.stringify (Hook.name hk) (VStr payload) w'
         = Some (Ok tt, add_log [Sent 0 payload] w')).
Proof.
  intros w hk.
  apply (open_event_connects 8 quiet Json.parse Json.stringify 0 "wss://example.test"
           0 hk w).
  - intros l w0. reflexivity.
  - reflexivity.
  - vm_compute. reflexivity.
  - vm_compute. reflexivity.
  - vm_compute. lia.
Defined.

Lemma filter_all {A} (P : A → Prop) `{!∀ x, Decision (P x)} (xs : list A) :
  (∀ x, x ∈ xs → P x) → filter P xs = xs.
Proof.
  induction xs as [|x xs IH]; intros Hall; [done|].
  rewrite filter_cons_True by (apply Hall; by left).
  f_equal. apply IH. intros y Hy. apply Hall. by right.
Qed.

Lemma find_timer_snoc id (ts : list Timer) t0 :
  (∀ t, t ∈ ts → timerId t ≠ id) → timerId t0 = id →
  find_timer id (ts ++ [t0]) = Some t0.
Proof.
  intros Hts H0. unfold find_timer. induction ts as [|t ts IH]; simpl.
  - by rewrite bool_decide_eq_true_2.
  - rewrite bool_decide_eq_false_2 by (apply Hts; by left).
    apply IH. intros t' Ht'. apply Hts. by right.
Qed.

Lemma without_snoc_fresh id (ts : list Timer) t0 :
  (∀ t, t ∈ ts → timerId t ≠ id) → timerId t0 = id →
  filter (fun t => timerId t ≠ id) (ts ++ [t0]) = ts.
Proof.
  intros Hts H0. rewrite filter_app, filter_all by done.
  rewrite filter_cons_False by (by intros H; apply H).
  by rewrite filter_nil, app_nil_r.
Qed.

Lemma step_close_observers fuel lb parse stringify s url r h hk w :
  (∀ l w0, snd (lb l w0) = w0) →
  sockets w !! s = Some (mkSocket url r h) →
  r ≠ CLOSED →
  hooks w !! h = Some hk →
  length (entries (Hook.name hk) w) < fuel
    ∨ step fuel lb parse stringify (SocketClose s) w ≠ None →
  ∃ evs, fanout_of (Hook.name hk) w evs ∧
    step fuel lb parse stringify (SocketClose s) w
    = Some (Ok tt, after_close h hk evs
                     (set_sockets <[s := mkSocket url CLOSED h]> w)).
Proof.
  intros Hobs Hs Hr Hh Hn.
  assert (E : step fuel lb parse stringify (SocketClose s) w
              = onclose fuel lb h (set_sockets <[s := mkSocket url CLOSED h]> w)).
  { unfold step, bind at 1, get at 1. rewrite Hs.
    destruct r; try done; unfold bind, set_socket_state, modify, set_sockets;
      by rewrite Hs. }
  rewrite E in *.
  exact (onclose_observers fuel lb Hobs h hk
           (set_sockets <[s := mkSocket url CLOSED h]> w) Hh Hn).
Qed.



(** X11: with [autoReconnect], once the delay has passed after a close
    event and the timer fires, [connect] finds the record idle and opens a
    new socket to the hook's URL for the same hook: the record is
    connecting again, still without a socket handle, its messages are
    kept and the timer is gone. *)
Theorem reconnect_opens_a_new_socket fuel lb parse stringify
    (s : SocketId) (url : string) (r : ReadyState) (h : HookId) (hk : Hook.t)
    (delay : Z) (w : World) :
  (∀ l w0, snd (lb l w0) = w0) →
  sockets w !! s = Some (mkSocket url r h) →
  r ≠ CLOSED →
  hooks w !! h = Some hk →
  Hook.autoReconnect hk = true →
  (∀ t, t ∈ timers w → timerId t ≠ nextTimer w) →
  (Z.max (Hook.reconnectDelay hk) 0 ≤ Z.max delay 0)%Z →
  length (entries (Hook.name hk) w) < fuel →
  ∃ w',
    run fuel lb parse stringify [SocketClose s; Elapse delay; TimerFires (nextTimer w)] w
    = Some w'
    ∧ sockets w' = <[s := mkSocket url CLOSED h]> (sockets w)
                   ++ [mkSocket (Hook.url hk) CONNECTING h]
    ∧ WebSocketState.connecting (read (Hook.name hk) w') = true
    ∧ WebSocketState.connected (read (Hook.name hk) w') = false
    ∧ WebSocketState.socket (read (Hook.name hk) w') = None
    ∧ WebSocketState.messages (read (Hook.name hk) w')
      = WebSocketState.messages (read (Hook.name hk) w)
    ∧ timers w' = timers w
    ∧ hooks w' !! h
      = Some (Hook.with_socket (Some (length (sockets w)))
                (Hook.with_reconnectTimeout (Some (nextTimer w)) hk)).
Proof.
  intros Hobs Hs Hr Hh Hauto Hfresh Hdelay Hfuel.
  pose proof (lookup_lt_Some _ _ _ Hh) as Hlt.
  cbn [run].
  destruct (step_close_observers fuel lb parse stringify s url r h hk w Hobs Hs Hr Hh
              (or_introl Hfuel)) as (evs1 & F1 & E1).
  rewrite E1. clear E1. set (w0 := set_sockets _ w).
  unfold after_close. rewrite Hauto.
  destruct (written_fields (Hook.name hk) idle evs1 w0)
    as (St & Lm & Nw & Sk & Tm & Nx & Hk & Lg).
  set (wr := written (Hook.name hk) idle evs1 w0) in *.
  set (t0 := mkTimer (nextTimer w0) (now w0 + Z.max (Hook.reconnectDelay hk) 0) (Reconnect h)).
  set (hk1 := Hook.with_reconnectTimeout (Some (nextTimer w0)) hk).
  set (w1 := set_hooks _ _).
  unfold step at 1, bind at 1, get at 1, modify.
  set (w2 := set_now _ w1).
  assert (T2 : timers w2 = timers w ++ [t0]).
  { unfold w2, w1. wsimpl. by rewrite Tm. }
  assert (N2 : now w2 = (now w + Z.max delay 0)%Z).
  { unfold w2, w1. wsimpl. by rewrite Nw. }
  unfold step, bind at 1, get at 1. rewrite T2.
  rewrite (find_timer_snoc (nextTimer w) (timers w) t0 Hfresh eq_refl).
  rewrite bool_decide_eq_true_2 by (rewrite N2; unfold t0; cbn [due]; change (now w0) with (now w); lia).
  unfold bind at 1, clearTimeout, modify. cbn [task t0 run_task].
  set (w3 := set_timers _ w2).
  assert (H3 : hooks w3 !! h = Some hk1).
  { unfold w3, w2, w1. wsimpl. rewrite Hk. by apply list_lookup_insert_eq. }
  assert (R3 : read (Hook.name hk) w3 = spread (read (Hook.name hk) w) idle).
  { change (read (Hook.name hk) w3) with (read (Hook.name hk) wr).
    exact (read_written (Hook.name hk) idle evs1 w0). }
  destruct (connect_observers fuel lb Hobs h hk1 w3 H3) as (evs2 & F2 & E2).
  { change (Hook.name hk1) with (Hook.name hk). by rewrite R3. }
  { left. change (entries (Hook.name hk1) w3) with (entries (Hook.name hk) wr).
    unfold wr. by rewrite entries_written. }
  rewrite E2. clear E2. eexists. split; [reflexivity|].
  unfold after_connect. change (Hook.name hk1) with (Hook.name hk).
  change (Hook.url hk1) with (Hook.url hk).
  destruct (written_fields (Hook.name hk) (connecting_partial hk1) evs2 w3)
    as (St4 & Lm4 & Nw4 & Sk4 & Tm4 & Nx4 & Hk4 & Lg4).
  assert (S3 : sockets w3 = <[s := mkSocket url CLOSED h]> (sockets w)).
  { change (sockets w3) with (sockets wr). by rewrite Sk. }
  assert (R4 : read (Hook.name hk)
                 (written (Hook.name hk) (connecting_partial hk1) evs2 w3)
               = spread (spread (read (Hook.name hk) w) idle) (connecting_partial hk1)).
  { by rewrite read_written, R3. }
  wsimpl. rewrite Sk4, Tm4, Hk4, S3.
  split; [done|].
  assert (Rd : ∀ x, read (Hook.name hk)
                 (set_hooks x (set_sockets (fun ss => ss ++ [mkSocket (Hook.url hk) CONNECTING h])
                    (written (Hook.name hk) (connecting_partial hk1) evs2 w3)))
               = spread (spread (read (Hook.name hk) w) idle) (connecting_partial hk1)).
  { intros x. exact R4. }
  rewrite !Rd, length_insert. repeat split.
  - unfold w3. wsimpl. rewrite T2. by apply without_snoc_fresh.
  - apply list_lookup_insert_eq. by eapply lookup_lt_Some.
Qed.

Lemma reconnect_witness :
  let w := after [Mount (reconnecting "x"); SocketOpen 0] in
  let hk := Hook.with_socket (Some 0) (Hook.create (reconnecting "x")) in
  ∃ w',
    run 8 quiet Json.parse Json.stringify
      [SocketClose 0; Elapse 5000; TimerFires (nextTimer w)] w = Some w'
    ∧ sockets w' = <[0 := mkSocket "wss://example.test" CLOSED 0]> (sockets w)
                   ++ [mkSocket (Hook.url hk) CONNECTING 0]
    ∧ WebSocketState.connecting (read (Hook.name hk) w') = true
    ∧ WebSocketState.connected (read (Hook.name hk) w') = false
    ∧ WebSocketState.socket (read (Hook.name hk) w') = None
    ∧ WebSocketState.messages (read (Hook.name hk) w')
      = WebSocketState.messages (read (Hook.name hk) w)
    ∧ timers w' = timers w
    ∧ hooks w' !! 0
      = Some (Hook.with_socket (Some (length (sockets w)))
                (Hook.with_reconnectTimeout (Some (nextTimer w)) hk)).
Proof.
  intros w hk.
  apply (reconnect_opens_a_new_socket 8 quiet Json.parse Json.stringify 0
           "wss://example.test" OPEN 0 hk 5000 w).
  - intros l w0. reflexivity.
  - vm_compute. reflexivity.
  - discriminate.
  - vm_compute. reflexivity.
  - reflexivity.
  - intros t Ht. vm_compute in Ht. by apply elem_of_nil in Ht.
  - vm_compute. discriminate.
  - vm_compute. lia.
Defined.

Lemma send_refused stringify name msg w :
  WebSocketState.connected (read name w) = false →
  sendWebSocketMessage stringify name msg w
  = Some (Ok tt, add_log [ConsoleWarn "WebSocket is not connected. Cannot send message:"
                                      (Some name)] w).
Proof.
  intros H. unfold sendWebSocketMessage, bind. rewrite getWebSocketState_eq, H. done.
Qed.

Lemma closing_fields s w :
  state (closing s w) = state w ∧ latestMessages (closing s w) = latestMessages w
  ∧ now (closing s w) = now w ∧ timers (closing s w) = timers w
  ∧ nextTimer (closing s w) = nextTimer w ∧ hooks (closing s w) = hooks w
  ∧ log (closing s w) = log w ∧ listeners (closing s w) = listeners w.
Proof. by destruct s. Qed.

Lemma read_closing name s w : read name (closing s w) = read name w.
Proof. by destruct s. Qed.

(** After [socket.close()] the socket is closing or closed; every other
    socket is as it was. *)
Lemma closing_lookup s s' w :
  sockets (closing (Some s) w) !! s'
  = if bool_decide (s' = s)
    then (fun sk => match readyState sk with
                    | CONNECTING | OPEN => set_readyState CLOSING sk
                    | CLOSING | CLOSED => sk
                    end) <$> sockets w !! s
    else sockets w !! s'.
Proof.
  unfold closing. wsimpl. case_bool_decide as E.
  - subst s'. destruct (sockets w !! s) as [sk|] eqn:Hs; [|by rewrite Hs].
    cbn [fmap option_fmap option_map].
    destruct (readyState sk) eqn:Hr; try done;
      apply list_lookup_insert_eq; by eapply lookup_lt_Some.
  - destruct (sockets w !! s) as [sk|] eqn:Hs; [|done].
    destruct (readyState sk); try done; by apply list_lookup_insert_ne.
Qed.

(** X12: an error event is reported on the console, marks the record of
    the hook's name neither connected nor connecting while leaving its
    socket handle in place, and calls [close()] on the hook's socket.  No
    timer is scheduled (the reconnect is left to the close event), and
    from then on [sendWebSocketMessage] for the name only warns. *)
Theorem error_event_closes_the_socket fuel lb parse stringify
    (s : SocketId) (url : string) (r : ReadyState) (h : HookId) (hk : Hook.t) (w : World) :
  (∀ l w0, snd (lb l w0) = w0) →
  sockets w !! s = Some (mkSocket url r h) →
  r ≠ CLOSED →
  hooks w !! h = Some hk →
  length (entries (Hook.name hk) w) < fuel →
  ∃ evs w',
    step fuel lb parse stringify (SocketError s) w = Some (Ok tt, w')
    ∧ read (Hook.name hk) w' = spread (read (Hook.name hk) w) error_partial
    ∧ WebSocketState.connected (read (Hook.name hk) w') = false
    ∧ WebSocketState.connecting (read (Hook.name hk) w') = false
    ∧ WebSocketState.socket (read (Hook.name hk) w')
      = WebSocketState.socket (read (Hook.name hk) w)
    ∧ sockets w' = sockets (closing (Hook.socket hk) w)
    ∧ (∀ s0 sk, Hook.socket hk = Some s0 → sockets w' !! s0 = Some sk →
         readyState sk = CLOSING ∨ readyState sk = CLOSED)
    ∧ timers w' = timers w ∧ hooks w' = hooks w
    ∧ log w' = log w ++ ConsoleError "WebSocket error" None :: evs
    ∧ fanout_of (Hook.name hk) w evs
    ∧ ∀ msg,
        sendWebSocketMessage stringify (Hook.name hk) msg w'
        = Some (Ok tt, add_log [ConsoleWarn "WebSocket is not connected. Cannot send message:"
                                            (Some (Hook.name hk))] w').
Proof.
  intros Hobs Hs Hr Hh Hfuel.
  assert (E : step fuel lb parse stringify (SocketError s) w = onerror fuel lb h w).
  { unfold step, bind at 1, get at 1. rewrite Hs. by destruct r. }
  rewrite E. clear E.
  destruct (onerror_observers fuel lb Hobs h hk w Hh (or_introl Hfuel)) as (evs & F & E).
  rewrite E. exists evs. eexists. split; [reflexivity|].
  unfold after_error.
  set (w0 := add_log _ w).
  set (w1 := written (Hook.name hk) error_partial evs w0).
  destruct (written_fields (Hook.name hk) error_partial evs w0)
    as (St & Lm & Nw & Sk & Tm & Nx & Hk & Lg). fold w1 in St, Lm, Nw, Sk, Tm, Nx, Hk, Lg.
  destruct (closing_fields (Hook.socket hk) w1) as (cS & cL & cN & cT & cX & cH & cG & _).
  assert (R : read (Hook.name hk) (closing (Hook.socket hk) w1)
              = spread (read (Hook.name hk) w) error_partial).
  { rewrite read_closing. exact (read_written (Hook.name hk) error_partial evs w0). }
  rewrite R, cT, cH, cG, Tm, Hk, Lg.
  assert (Sc : sockets (closing (Hook.socket hk) w1) = sockets (closing (Hook.socket hk) w)).
  { destruct (Hook.socket hk) as [s0|]; [|exact Sk].
    unfold closing. wsimpl. by rewrite Sk. }
  destruct F as (F1 & F2 & F3).
  repeat split; try done.
  - intros s0 sk Hs0. rewrite Sc, Hs0, closing_lookup, bool_decide_eq_true_2 by done.
    destruct (sockets w !! s0) as [sk0|]; [|done]. cbn [fmap option_fmap option_map].
    intros [= <-]. destruct (readyState sk0) eqn:Hr0; cbn; rewrite ?Hr0; auto.
  - unfold w0. unfold add_log. wsimpl. by rewrite <- app_assoc.
  - intros msg. apply send_refused. by rewrite R.
Qed.

Lemma error_event_witness :
  let hk := Hook.with_socket (Some 0) (Hook.create (opts "x")) in
  ∃ evs w',
    step 8 quiet Json.parse Json.stringify (SocketError 0) connected_world = Some (Ok tt, w')
    ∧ read (Hook.name hk) w' = spread (read (Hook.name hk) connected_world) error_partial
    ∧ WebSocketState.connected (read (Hook.name hk) w') = false
    ∧ WebSocketState.connecting (read (Hook.name hk) w') = false
    ∧ WebSocketState.socket (read (Hook.name hk) w')
      = WebSocketState.socket (read (Hook.name hk) connected_world)
    ∧ sockets w' = sockets (closing (Hook.socket hk) connected_world)
    ∧ (∀ s0 sk, Hook.socket hk = Some s0 → sockets w' !! s0 = Some sk →
         readyState sk = CLOSING ∨ readyState sk = CLOSED)
    ∧ timers w' = timers connected_world ∧ hooks w' = hooks connected_world
    ∧ log w' = log connected_world ++ ConsoleError "WebSocket error" None :: evs
    ∧ fanout_of (Hook.name hk) connected_world evs
    ∧ ∀ msg,
        sendWebSocketMessage Json.stringify (Hook.name hk) msg w'
        = Some (Ok tt, add_log [ConsoleWarn "WebSocket is not connected. Cannot send message:"
                                            (Some (Hook.name hk))] w').
Proof.
  intros hk.
  apply (error_event_closes_the_socket 8 quiet Json.parse Json.stringify 0
           "wss://example.test" OPEN 0 hk connected_world).
  - intros l w0. reflexivity.
  - vm_compute. reflexivity.
  - discriminate.
  - vm_compute. reflexivity.
  - vm_compute. lia.
Defined.



(** ** A small logic of what a computation may change *)

Section Moves.

Context {R : World → World → Prop} `{!Reflexive R, !Transitive R}.

Lemma moves_ret {A} (a : A) : moves R (ret a).
Proof. intros w r w' [= <- <-]. reflexivity. Qed.

Lemma moves_throw {A} e : moves R (@throw A e).
Proof. intros w r w' [= <- <-]. reflexivity. Qed.

Lemma moves_get : moves R get.
Proof. intros w r w' [= <- <-]. reflexivity. Qed.

Lemma moves_modify f : (∀ w, R w (f w)) → moves R (modify f).
Proof. intros H w r w' [= <- <-]. apply H. Qed.

Lemma moves_bind {A B} (m : M A) (k : A → M B) :
  moves R m → (∀ a, moves R (k a)) → moves R (bind m k).
Proof.
  intros Hm Hk w r w' H. unfold bind in H.
  destruct (m w) as [[[a|e] w1]|] eqn:E; [|inversion H; subst|done].
  - etransitivity; [by eapply Hm|by eapply Hk].
  - by eapply Hm.
Qed.

Lemma moves_try_catch {A} (m : M A) handler :
  moves R m → (∀ e, moves R (handler e)) → moves R (try_catch m handler).
Proof.
  intros Hm Hk w r w' H. unfold try_catch in H.
  destruct (m w) as [[[a|e] w1]|] eqn:E; [inversion H; subst| |done].
  - by eapply Hm.
  - etransitivity; [by eapply Hm|by eapply Hk].
Qed.

Lemma moves_when b m : moves R m → moves R (when b m).
Proof. intros H. destruct b; [done|apply moves_ret]. Qed.

Lemma moves_in_hook {A} h (d : A) body :
  (∀ hk, moves R (body hk)) → moves R (in_hook h d body).
Proof.
  intros H. unfold in_hook. apply moves_bind; [apply moves_get|].
  intros w. destruct (hooks w !! h); [apply H|apply moves_ret].
Qed.

End Moves.

Ltac moves_cases :=
  lazymatch goal with
  | |- moves _ (ret _) => apply moves_ret
  | |- moves _ (throw _) => apply moves_throw
  | |- moves _ get => apply moves_get
  | |- moves _ (bind _ _) => apply moves_bind; [moves_cases | intros ?; moves_cases]
  | |- moves _ (try_catch _ _) =>
      apply moves_try_catch; [moves_cases | intros ?; moves_cases]
  | |- moves _ (when _ _) => apply moves_when; moves_cases
  | |- moves _ (in_hook _ _ _) => apply moves_in_hook; intros ?; moves_cases
  | |- moves _ (match ?x with _ => _ end) => destruct x; moves_cases
  | |- _ => idtac
  end.

(** ** The wire *)

Global Instance same_wire_refl : Reflexive same_wire.
Proof. by intros w. Qed.

Global Instance same_wire_trans : Transitive same_wire.
Proof. intros w1 w2 w3 H12 H23. unfold same_wire in *. by rewrite H23. Qed.

Lemma wire_app evs1 evs2 : wire (evs1 ++ evs2) = wire evs1 ++ wire evs2.
Proof. apply omap_app. Qed.

Lemma wire_fanout evs : Forall fanout_event evs → wire evs = [].
Proof.
  induction 1 as [|e evs He _ IH]; [done|].
  destruct e; simpl in He; try done; exact IH.
Qed.

Lemma same_wire_modify f : (∀ w, log (f w) = log w) → moves same_wire (modify f).
Proof. intros H. apply moves_modify. intros w. unfold same_wire. by rewrite H. Qed.

Lemma same_wire_emit e : (∀ s p, e ≠ Sent s p) → moves same_wire (emit e).
Proof.
  intros H. apply moves_modify. intros w. unfold same_wire. wsimpl.
  rewrite wire_app. destruct e; simpl; rewrite ?app_nil_r; try done.
  by destruct (H s payload).
Qed.

Lemma same_wire_getListeners name : moves same_wire (getListeners name).
Proof.
  intros w r w' H. rewrite getListeners_eq in H. inversion H; subst.
  unfold same_wire. by destruct (with_set_fields name w) as (_ & _ & _ & _ & _ & _ & _ & ->).
Qed.

Lemma same_wire_update_hook h f : moves same_wire (update_hook h f).
Proof. by apply same_wire_modify. Qed.

Lemma same_wire_setTimeout t d : moves same_wire (setTimeout t d).
Proof. unfold setTimeout. moves_cases; by apply same_wire_modify. Qed.

Lemma same_wire_clearTimeout id : moves same_wire (clearTimeout id).
Proof. by apply same_wire_modify. Qed.

Lemma same_wire_socket_close s : moves same_wire (socket_close s).
Proof. by apply same_wire_modify. Qed.

Lemma same_wire_heartbeat_effect h : moves same_wire (heartbeat_effect h).
Proof.
  unfold heartbeat_effect. moves_cases;
    first [apply same_wire_setTimeout | apply same_wire_update_hook].
Qed.

Lemma same_wire_heartbeat_cleanup h : moves same_wire (heartbeat_cleanup h).
Proof.
  unfold heartbeat_cleanup. moves_cases;
    first [apply same_wire_clearTimeout | apply same_wire_update_hook].
Qed.

Lemma same_wire_setLastMessageTime h t : moves same_wire (setLastMessageTime h t).
Proof.
  unfold setLastMessageTime. moves_cases;
    first [apply same_wire_update_hook | apply same_wire_heartbeat_cleanup
          | apply same_wire_heartbeat_effect].
Qed.

Lemma same_wire_decode parse data : moves same_wire (decode parse data).
Proof.
  unfold decode. moves_cases. unfold console_warn. by apply same_wire_emit.
Qed.

Lemma same_wire_subscribe name l : moves same_wire (subscribeWebSocket name l).
Proof.
  unfold subscribeWebSocket. moves_cases; [apply same_wire_getListeners|].
  by apply same_wire_modify.
Qed.

Lemma same_wire_unsubscribe handle : moves same_wire (unsubscribe handle).
Proof. intros w r w' [= <- <-]. done. Qed.

(** ** The watchdog callback and the listeners *)




Section Wire.

Variable fuel : nat.
Variable listener_body : Listener → World → Result unit * World.
Variable JSON_parse : string → Result JsValue.
Variable JSON_stringify : JsValue → Result string.
Hypothesis observers : ∀ l w, snd (listener_body l w) = w.

Lemma same_wire_notify name : moves same_wire (notifyListeners fuel listener_body name).
Proof.
  intros w r w' H.
  destruct (notify_cases fuel listener_body observers name w) as [E|(evs & F & E)];
    rewrite E in H; [done|]. inversion H; subst.
  unfold same_wire. by rewrite log_notified, wire_app, (wire_fanout _ F), app_nil_r.
Qed.

Lemma same_wire_setWebSocketState name partial :
  moves same_wire (setWebSocketState fuel listener_body name partial).
Proof.
  unfold setWebSocketState, getWebSocketState. moves_cases;
    first [by apply same_wire_modify | apply same_wire_notify].
Qed.

Lemma same_wire_addMessage name msg :
  moves same_wire (addMessage fuel listener_body name msg).
Proof.
  unfold addMessage. moves_cases; first [by apply same_wire_modify | apply same_wire_notify].
Qed.

Lemma same_wire_connect h : moves same_wire (connect fuel listener_body h).
Proof.
  unfold connect, getWebSocketState, new_WebSocket. moves_cases;
    first [apply same_wire_setWebSocketState | by apply same_wire_modify
          | apply same_wire_update_hook].
Qed.

Lemma same_wire_onopen h : moves same_wire (onopen fuel listener_body h).
Proof. unfold onopen. moves_cases. apply same_wire_setWebSocketState. Qed.

Lemma same_wire_onmessage h data :
  moves same_wire (onmessage fuel listener_body JSON_parse h data).
Proof.
  unfold onmessage, getWebSocketState. moves_cases;
    first [apply same_wire_decode | apply same_wire_addMessage
          | apply same_wire_setLastMessageTime | apply same_wire_setWebSocketState
          | unfold console_error; by apply same_wire_emit].
Qed.

Lemma same_wire_onclose h : moves same_wire (onclose fuel listener_body h).
Proof.
  unfold onclose. moves_cases;
    first [apply same_wire_setWebSocketState | apply same_wire_setTimeout
          | apply same_wire_update_hook].
Qed.

Lemma same_wire_onerror h : moves same_wire (onerror fuel listener_body h).
Proof.
  unfold onerror. moves_cases;
    first [apply same_wire_setWebSocketState | apply same_wire_socket_close
          | unfold console_error; by apply same_wire_emit].
Qed.

Lemma same_wire_connect_cleanup h : moves same_wire (connect_cleanup fuel listener_body h).
Proof.
  unfold connect_cleanup. moves_cases;
    first [apply same_wire_setWebSocketState | apply same_wire_socket_close
          | apply same_wire_clearTimeout].
Qed.

Lemma same_wire_unmount h : moves same_wire (unmount fuel listener_body h).
Proof.
  unfold unmount. moves_cases;
    first [apply same_wire_connect_cleanup | apply same_wire_heartbeat_cleanup
          | apply same_wire_update_hook].
Qed.

Lemma same_wire_heartbeat_fired h : moves same_wire (heartbeat_fired fuel listener_body h).
Proof.
  unfold heartbeat_fired. moves_cases;
    first [by apply same_wire_emit | apply same_wire_addMessage].
Qed.

Lemma same_wire_mount options :
  moves same_wire (useWebSocketConnect fuel listener_body options).
Proof.
  unfold useWebSocketConnect. moves_cases;
    first [by apply same_wire_modify | apply same_wire_connect
          | apply same_wire_heartbeat_effect].
Qed.

Lemma same_wire_disconnect name :
  moves same_wire (disconnectWebSocket fuel listener_body name).
Proof.
  unfold disconnectWebSocket, getWebSocketState. moves_cases;
    first [apply same_wire_setWebSocketState | apply same_wire_socket_close].
Qed.

Lemma same_wire_clear name :
  moves same_wire (clearWebSocketMessage fuel listener_body name).
Proof.
  unfold clearWebSocketMessage. moves_cases;
    first [by apply same_wire_modify | apply same_wire_notify].
Qed.

(** What one input adds to the wire. *)
Lemma step_wire i w r w' :
  step fuel listener_body JSON_parse JSON_stringify i w = Some (r, w') →
  ∃ frames, wire (log w') = wire (log w) ++ frames
            ∧ sublist (snd <$> frames) (requested JSON_stringify [i]).
Proof.
  intros H.
  assert (Q : ∀ m : M unit, moves same_wire m → m w = Some (r, w') →
              ∃ frames, wire (log w') = wire (log w) ++ frames
                        ∧ sublist (snd <$> frames) (requested JSON_stringify [i])).
  { intros m Hm Hr. exists []. split; [|apply sublist_nil_l].
    rewrite app_nil_r. by apply (Hm w r w'). }
  unfold step, bind at 1, get at 1 in H.
  destruct i as [options|h|s|s data|s|s|id|ms|name|name msg|name|name l|name l|s].
  - eapply Q; [|exact H]. moves_cases. apply same_wire_mount.
  - eapply Q; [|exact H]. apply same_wire_unmount.
  - eapply Q; [|exact H]. moves_cases; try apply same_wire_onopen.
    unfold set_socket_state. by apply same_wire_modify.
  - eapply Q; [|exact H]. moves_cases; apply same_wire_onmessage.
  - eapply Q; [|exact H]. moves_cases; apply same_wire_onerror.
  - eapply Q; [|exact H]. moves_cases; try apply same_wire_onclose.
    all: unfold set_socket_state; by apply same_wire_modify.
  - eapply Q; [|exact H]. moves_cases; try apply same_wire_clearTimeout.
    unfold run_task. destruct (task _);
      [apply same_wire_connect|apply same_wire_heartbeat_fired].
  - eapply Q; [|exact H]. by apply same_wire_modify.
  - eapply Q; [|exact H]. apply same_wire_disconnect.
  - unfold sendWebSocketMessage, bind in H. rewrite getWebSocketState_eq in H.
    unfold requested, payload_of. cbn [omap list_omap].
    assert (W : ∀ e, (∀ s p, e ≠ Sent s p) → Some (Ok tt, add_log [e] w) = Some (r, w') →
                ∃ frames, wire (log w') = wire (log w) ++ frames
                          ∧ sublist (snd <$> frames)
                              (match match is_string msg with
                                     | Some text => Some text
                                     | None => match JSON_stringify msg with
                                               | Ok text => Some text
                                               | Threw _ => None
                                               end
                                     end with
                               | Some x => [x]
                               | None => []
                               end)).
    { intros e He [= <- <-]. exists []. split; [|apply sublist_nil_l].
      unfold add_log. wsimpl. rewrite wire_app, app_nil_r.
      destruct e; simpl; rewrite ?app_nil_r; try done. by destruct (He s payload). }
    destruct (WebSocketState.connected (read name w));
      [|eapply W; [|exact H]; done].
    destruct (WebSocketState.socket (read name w)) as [s|];
      [|eapply W; [|exact H]; done].
    assert (S : ∀ text,
              (try_catch (socket_send s text)
                 (fun err => console_error "Failed to send WebSocket message:" (Some err)) w
               = Some (r, w')) →
              ∃ frames, wire (log w') = wire (log w) ++ frames
                        ∧ sublist (snd <$> frames) [text]).
    { intros text. unfold try_catch, socket_send, bind, get.
      destruct (readyState <$> sockets w !! s) as [[]|]; simpl.
      - intros [= <- <-]. exists []. split; [|apply sublist_nil_l].
        wsimpl. by rewrite wire_app.
      - intros [= <- <-]. exists [(s, text)]. split; [|done].
        wsimpl. by rewrite wire_app.
      - intros [= <- <-]. exists []. split; [|apply sublist_nil_l]. by rewrite app_nil_r.
      - intros [= <- <-]. exists []. split; [|apply sublist_nil_l]. by rewrite app_nil_r.
      - intros [= <- <-]. exists []. split; [|apply sublist_nil_l]. by rewrite app_nil_r. }
    destruct (is_string msg) as [text|].
    + apply S. exact H.
    + destruct (JSON_stringify msg) as [text|e].
      * apply S. exact H.
      * eapply W; [|exact H]; done.
  - eapply Q; [|exact H]. apply same_wire_clear.
  - eapply Q; [|exact H]. moves_cases. apply same_wire_subscribe.
  - eapply Q; [|exact H]. moves_cases. apply same_wire_unsubscribe.
  - eapply Q; [|exact H]. moves_cases.
    unfold set_socket_state. by apply same_wire_modify.
Qed.

Lemma requested_cons i inputs :
  requested JSON_stringify (i :: inputs)
  = requested JSON_stringify [i] ++ requested JSON_stringify inputs.
Proof. unfold requested. simpl. by destruct (match i with Send _ _ => _ | _ => None end). Qed.

Lemma run_wire inputs : ∀ w w',
  run fuel listener_body JSON_parse JSON_stringify inputs w = Some w' →
  ∃ frames, wire (log w') = wire (log w) ++ frames
            ∧ sublist (snd <$> frames) (requested JSON_stringify inputs).
Proof.
  induction inputs as [|i inputs IH]; intros w w' H; simpl in H.
  - inversion H; subst. exists []. split; [by rewrite app_nil_r|done].
  - destruct (step _ _ _ _ i w) as [[r w1]|] eqn:E; [|done].
    destruct (step_wire i w r w1 E) as (f1 & W1 & S1).
    destruct (IH w1 w' H) as (f2 & W2 & S2).
    exists (f1 ++ f2). split.
    + by rewrite W2, W1, app_assoc.
    + rewrite requested_cons, fmap_app. by apply sublist_app.
Qed.

End Wire.

(** X17: the module writes to a socket only in [sendWebSocketMessage].
    Over any run, the frames put on the wire are, in order, payloads that
    calls of [sendWebSocketMessage] asked for (the string itself, or the
    [JSON.stringify] text); without such a call nothing is sent.  In
    particular the watchdog never sends a ping. *)
Theorem only_send_writes_to_the_wire fuel lb parse stringify (inputs : list Input)
    (w w' : World) :
  (∀ l w0, snd (lb l w0) = w0) →
  run fuel lb parse stringify inputs w = Some w' →
  ∃ frames, wire (log w') = wire (log w) ++ frames
            ∧ sublist (snd <$> frames) (requested stringify inputs)
            ∧ (Forall (fun i => ∀ name msg, i ≠ Send name msg) inputs → frames = []).
Proof.
  intros Hobs Hrun.
  destruct (run_wire fuel lb parse stringify Hobs inputs w w' Hrun) as (frames & W & S).
  exists frames. split; [done|]. split; [done|].
  intros Hno.
  assert (R : requested stringify inputs = []).
  { clear -Hno. induction Hno as [|i inputs Hi _ IH]; [done|].
    rewrite requested_cons, IH, app_nil_r.
    destruct i; try done. by destruct (Hi name msg). }
  rewrite R in S. apply sublist_nil_r in S.
  by destruct frames.
Qed.

Lemma only_send_witness :
  let inputs := [Mount (opts "x"); SocketOpen 0; Send "x" (VStr "hello");
                 SocketMessage 0 (VStr "hi"); Elapse 15000; TimerFires 1;
                 Send "y" (VStr "lost")] in
  ∃ frames,
    wire (log (after inputs)) = wire (log (initial 0)) ++ frames
    ∧ sublist (snd <$> frames) (requested Json.stringify inputs)
    ∧ (Forall (fun i => ∀ name msg, i ≠ Send name msg) inputs → frames = []).
Proof.
  intros inputs.
  apply (only_send_writes_to_the_wire 8 quiet Json.parse Json.stringify inputs
           (initial 0) (after inputs)).
  - intros l w0. reflexivity.
  - vm_compute. reflexivity.
Defined.

(** ** The wiring of records, sockets, hooks and reconnect timers *)

Global Instance settles_refl : Reflexive settles.
Proof. intros w. by repeat split. Qed.

Global Instance settles_trans : Transitive settles.
Proof.
  intros w1 w2 w3 (S1 & K1 & H1 & T1 & N1) (S2 & K2 & H2 & T2 & N2).
  repeat split; try congruence; [by etransitivity|lia].
Qed.

Global Instance keeps_refl I : Reflexive (keeps I).
Proof. intros w H. exact H. Qed.

Global Instance keeps_trans I : Transitive (keeps I).
Proof. intros w1 w2 w3 H12 H23 H. by apply H23, H12. Qed.

Lemma filter_sublist_mono {A} (P : A → Prop) `{!∀ x, Decision (P x)} (xs ys : list A) :
  xs `sublist_of` ys → filter P xs `sublist_of` filter P ys.
Proof.
  induction 1 as [|x xs ys _ IH|x xs ys _ IH]; [done| |].
  - destruct (decide (P x)).
    + rewrite !filter_cons_True by done. by apply sublist_skip.
    + by rewrite !filter_cons_False by done.
  - destruct (decide (P x)).
    + rewrite filter_cons_True by done. by apply sublist_cons.
    + by rewrite filter_cons_False by done.
Qed.

Lemma read_cases name w :
  state w !! name = Some (read name w)
  ∨ (state w !! name = None ∧ read name w = defaultState).
Proof. unfold read. destruct (state w !! name); [by left|by right]. Qed.

Lemma wiring_lookup (hs hs' : list Hook.t) h hk' :
  wiring_of <$> hs' = wiring_of <$> hs → hs' !! h = Some hk' →
  ∃ hk, hs !! h = Some hk ∧ Hook.name hk = Hook.name hk'
        ∧ Hook.socket hk = Hook.socket hk'
        ∧ Hook.reconnectTimeout hk = Hook.reconnectTimeout hk'.
Proof.
  intros E H.
  assert (L : (wiring_of <$> hs) !! h = Some (wiring_of hk')).
  { rewrite <- E, list_lookup_fmap, H. done. }
  rewrite list_lookup_fmap in L. destruct (hs !! h) as [hk|]; [|done].
  exists hk. split; [done|]. simpl in L. unfold wiring_of in L. by inversion L.
Qed.

Lemma wiring_length (hs hs' : list Hook.t) :
  wiring_of <$> hs' = wiring_of <$> hs → length hs' = length hs.
Proof. intros E. by rewrite <- (length_fmap wiring_of hs'), E, length_fmap. Qed.

Lemma filter_reconnect_of h (ts : list Timer) :
  filter (fun t => task t = Reconnect h) ts
  = filter (fun t => task t = Reconnect h) (filter is_reconnect ts).
Proof.
  induction ts as [|t ts IH]; [done|].
  destruct (task t) as [h'|h'] eqn:Et.
  - rewrite (filter_cons_True is_reconnect) by (unfold is_reconnect; by rewrite Et).
    destruct (decide (h' = h)) as [->|Hne].
    + rewrite !filter_cons_True by done. by rewrite IH.
    + rewrite !filter_cons_False by congruence. exact IH.
  - rewrite (filter_cons_False is_reconnect) by (unfold is_reconnect; rewrite Et; tauto).
    rewrite filter_cons_False by congruence. exact IH.
Qed.

Lemma elem_of_reconnects t h (ts : list Timer) :
  t ∈ ts → task t = Reconnect h → t ∈ filter is_reconnect ts.
Proof.
  intros Ht Hr. apply list_elem_of_filter. split; [|done].
  unfold is_reconnect. by rewrite Hr.
Qed.

(** [wired] looks at nothing else. *)
Lemma wired_settles w w' : settles w w' → wired w → wired w'.
Proof.
  intros (St & Sk & Hk & Tm & Nx) W.
  assert (In : ∀ t h, t ∈ timers w' → task t = Reconnect h → t ∈ timers w).
  { intros t h Ht Hr.
    pose proof (elem_of_reconnects t h _ Ht Hr) as Hin.
    eapply elem_of_sublist in Hin; [|exact Tm].
    by apply list_elem_of_filter in Hin as [_ ?]. }
  pose proof (wiring_length _ _ Hk) as Hlen.
  assert (Back : ∀ h hk, hooks w !! h = Some hk →
            ∃ hk', hooks w' !! h = Some hk' ∧ Hook.name hk' = Hook.name hk
                   ∧ Hook.socket hk' = Hook.socket hk
                   ∧ Hook.reconnectTimeout hk' = Hook.reconnectTimeout hk).
  { intros h hk Hh. by apply (wiring_lookup (hooks w') (hooks w)). }
  split.
  - intros name st. rewrite St. apply (one_phase w W).
  - intros name st n. rewrite St. apply (name_is_key w W).
  - intros name st. rewrite St, Sk. apply (connected_is_open w W).
  - intros name st s. rewrite St, Sk. intros Hst Hs.
    destruct (handle_of_name w W name st s Hst Hs) as (sk & hk & Hsk & Hh & Hn).
    destruct (Back _ _ Hh) as (hk' & Hh' & Hn' & _).
    exists sk, hk'. repeat split; [done|done|congruence].
  - intros s sk. rewrite Sk. intros Hsk Hr.
    destruct (socket_of_hook w W s sk Hsk Hr) as (hk & Hh & Hs).
    destruct (Back _ _ Hh) as (hk' & Hh' & _ & Hs' & _).
    exists hk'. split; [done|congruence].
  - intros h hk' s Hh' Hs'. rewrite Sk.
    destruct (wiring_lookup _ _ _ _ Hk Hh') as (hk & Hh & _ & Hs & _).
    apply (hook_of_socket w W h hk s Hh). congruence.
  - intros t h Ht Hr. rewrite Hlen, Sk.
    apply (reconnect_after_close w W t h); [by eapply In|done].
  - intros h. rewrite filter_reconnect_of.
    etransitivity; [|apply (reconnect_once w W h)].
    rewrite (filter_reconnect_of h (timers w)).
    apply sublist_length. by apply filter_sublist_mono.
  - intros t h hk' Ht Hr Hh'.
    destruct (wiring_lookup _ _ _ _ Hk Hh') as (hk & Hh & _ & _ & Hrt).
    rewrite <- Hrt. apply (reconnect_known w W t h hk); [by eapply In|done|done].
  - pose proof (timer_ids_positive w W). lia.
Qed.

Lemma wired_ext w w' :
  state w' = state w → sockets w' = sockets w → hooks w' = hooks w →
  timers w' = timers w → nextTimer w' = nextTimer w → wired w → wired w'.
Proof.
  intros St Sk Hk Tm Nx. apply wired_settles.
  repeat split; try done; [by rewrite Hk|by rewrite Tm|lia].
Qed.

(** A write that claims neither a phase nor a socket. *)
Lemma wired_write_harmless name p w :
  harmless p → wired w → wired (set_state <[name := spread (read name w) p]> w).
Proof.
  intros (Pn & Pc & Pg & Ps) [W1 W2 W3 W4 W5 W6 W7 W8 W9 W10].
  assert (Old : ∀ name' st', <[name := spread (read name w) p]> (state w) !! name' = Some st' →
            (name' ≠ name ∧ state w !! name' = Some st')
            ∨ (name' = name ∧ st' = spread (read name w) p)).
  { intros name' st'. destruct (decide (name' = name)) as [->|Hne].
    - rewrite lookup_insert_eq. intros [= <-]. by right.
    - rewrite lookup_insert_ne by done. by left. }
  assert (Con : WebSocketState.connected (spread (read name w) p) = true →
            state w !! name = Some (read name w)
            ∧ WebSocketState.connected (read name w) = true
            ∧ Partial.connected p = None).
  { cbn [spread WebSocketState.connected]. intros Hc.
    destruct (Partial.connected p) as [[]|] eqn:Ec; simpl in Hc; try done.
    destruct (read_cases name w) as [Hr|[_ Hr]]; [done|].
    rewrite Hr in Hc. done. }
  split; wsimpl; try done.
  - intros name' st' Hst Hc. destruct (Old _ _ Hst) as [[_ H]|[-> ->]]; [by eapply W1|].
    destruct (Con Hc) as (Hs & Hc' & _).
    cbn [spread WebSocketState.connecting].
    destruct (Partial.connecting p) as [[]|]; simpl; [done|done|by eapply W1].
  - intros name' st' n Hst Hn. destruct (Old _ _ Hst) as [[_ H]|[-> ->]]; [by eapply W2|].
    cbn [spread WebSocketState.name] in Hn. rewrite Pn in Hn. simpl in Hn.
    destruct (read_cases name w) as [Hr|[_ Hr]]; [by eapply W2|].
    rewrite Hr in Hn. done.
  - intros name' st' Hst Hc. destruct (Old _ _ Hst) as [[_ H]|[-> ->]]; [by eapply W3|].
    destruct (Con Hc) as (Hs & Hc' & Hp).
    destruct Ps as [Ps|[_ Ps]]; [|congruence].
    cbn [spread WebSocketState.socket]. rewrite Ps. simpl. by eapply W3.
  - intros name' st' s Hst Hs. destruct (Old _ _ Hst) as [[_ H]|[-> ->]]; [by eapply W4|].
    cbn [spread WebSocketState.socket] in Hs.
    destruct Ps as [Ps|[Ps _]]; rewrite Ps in Hs; simpl in Hs; [|done].
    destruct (read_cases name w) as [Hr|[_ Hr]]; [by eapply W4|].
    rewrite Hr in Hs. done.
Qed.

Lemma harmless_idle : harmless idle.
Proof. repeat split; try done. by right. Qed.

Lemma harmless_error : harmless error_partial.
Proof. repeat split; try done. by left. Qed.

Lemma harmless_messages ms : harmless (Partial.mk None None None None (Some ms) None).
Proof. repeat split; try done. by left. Qed.

Lemma alter_lookup_Some {A} (g : A → A) (xs : list A) i j y :
  alter g i xs !! j = Some y →
  ∃ x, xs !! j = Some x ∧ (y = x ∨ (j = i ∧ y = g x)).
Proof.
  destruct (decide (i = j)) as [->|Hne].
  - rewrite list_lookup_alter_eq. destruct (xs !! j) as [x|]; [|done].
    intros [= <-]. exists x. split; [done|]. by right.
  - rewrite list_lookup_alter_ne by done. intros H. exists y. split; [done|]. by left.
Qed.

Lemma alter_lookup_back {A} (g : A → A) (xs : list A) i j x :
  xs !! j = Some x → ∃ y, alter g i xs !! j = Some y ∧ (y = x ∨ (j = i ∧ y = g x)).
Proof.
  intros H. destruct (decide (i = j)) as [->|Hne].
  - exists (g x). rewrite list_lookup_alter_eq, H. split; [done|]. by right.
  - exists x. rewrite list_lookup_alter_ne by done. split; [done|]. by left.
Qed.

(** A change of one socket's ready state that opens nothing and
    re-opens nothing, in a world where no connected record holds the
    socket. *)
Lemma wired_alter (g : Socket → Socket) s w :
  (∀ sk, handlers (g sk) = handlers sk) →
  (∀ sk, readyState sk = CLOSED → readyState (g sk) = CLOSED) →
  (∀ name st, state w !! name = Some st → WebSocketState.socket st = Some s →
     WebSocketState.connected st = false) →
  wired w → wired (set_sockets (alter g s) w).
Proof.
  intros Gh Gc Free [W1 W2 W3 W4 W5 W6 W7 W8 W9 W10].
  split; wsimpl; try done.
  - intros name st Hst Hc.
    destruct (W3 name st Hst Hc) as (s' & sk & Hs & Hsk & Hr).
    exists s', sk. split; [done|]. split; [|done].
    rewrite list_lookup_alter_ne; [done|]. intros <-.
    specialize (Free name st Hst Hs). congruence.
  - intros name st s' Hst Hs.
    destruct (W4 name st s' Hst Hs) as (sk & hk & Hsk & Hh & Hn).
    destruct (alter_lookup_back g (sockets w) s s' sk Hsk) as (sk' & Hsk' & [->|[_ ->]]).
    + by exists sk, hk.
    + exists (g sk), hk. by rewrite Gh.
  - intros s' sk' Hsk' Hr.
    destruct (alter_lookup_Some g (sockets w) s s' sk' Hsk') as (sk & Hsk & [->|[_ ->]]).
    + by apply W5.
    + rewrite Gh. apply W5; [done|]. intros Hc. by apply Hr, Gc.
  - intros h hk s' Hh Hs.
    destruct (W6 h hk s' Hh Hs) as (sk & Hsk & Hhd).
    destruct (alter_lookup_back g (sockets w) s s' sk Hsk) as (sk' & Hsk' & [->|[_ ->]]).
    + by exists sk.
    + exists (g sk). by rewrite Gh.
  - intros t h Ht Hr. destruct (W7 t h Ht Hr) as [Hlt Hcl]. split; [done|].
    intros s' sk' Hsk' Hhd.
    destruct (alter_lookup_Some g (sockets w) s s' sk' Hsk') as (sk & Hsk & [->|[_ ->]]).
    + by eapply Hcl.
    + apply Gc. eapply Hcl; [done|]. by rewrite <- Gh.
Qed.

(** The open event: the socket, then the record. *)
Lemma wired_opened s u h w :
  sockets w !! s = Some (mkSocket u CONNECTING h) →
  wired w → wired (set_sockets <[s := mkSocket u OPEN h]> w).
Proof.
  intros Hs [W1 W2 W3 W4 W5 W6 W7 W8 W9 W10].
  assert (Back : ∀ s' sk, sockets w !! s' = Some sk →
            ∃ sk', <[s := mkSocket u OPEN h]> (sockets w) !! s' = Some sk'
                   ∧ handlers sk' = handlers sk
                   ∧ (readyState sk ≠ CONNECTING → readyState sk' = readyState sk)).
  { intros s' sk Hsk. destruct (decide (s' = s)) as [->|Hne].
    - exists (mkSocket u OPEN h). rewrite list_lookup_insert_eq by (by eapply lookup_lt_Some).
      rewrite Hs in Hsk. inversion Hsk; subst. done.
    - exists sk. by rewrite list_lookup_insert_ne. }
  assert (Forth : ∀ s' sk', <[s := mkSocket u OPEN h]> (sockets w) !! s' = Some sk' →
            ∃ sk, sockets w !! s' = Some sk ∧ handlers sk' = handlers sk
                  ∧ (readyState sk = CLOSED → readyState sk' = CLOSED)).
  { intros s' sk' Hsk'. destruct (decide (s' = s)) as [->|Hne].
    - rewrite list_lookup_insert_eq in Hsk' by (by eapply lookup_lt_Some).
      inversion Hsk'; subst. eexists. split; [exact Hs|]. done.
    - rewrite list_lookup_insert_ne in Hsk' by done. by exists sk'. }
  split; wsimpl; try done.
  - intros name st Hst Hc. destruct (W3 name st Hst Hc) as (s' & sk & Hsock & Hsk & Hr).
    destruct (Back _ _ Hsk) as (sk' & Hsk' & _ & Ho). exists s', sk'.
    split; [done|]. split; [done|].
    rewrite Ho; [done|]. by destruct Hr as [-> | ->].
  - intros name st s' Hst Hsock.
    destruct (W4 name st s' Hst Hsock) as (sk & hk & Hsk & Hh & Hn).
    destruct (Back _ _ Hsk) as (sk' & Hsk' & Hhd & _). exists sk', hk. by rewrite Hhd.
  - intros s' sk' Hsk' Hr. destruct (Forth _ _ Hsk') as (sk & Hsk & Hhd & Hcl).
    rewrite Hhd. apply W5; [done|]. intros Hc. by apply Hr, Hcl.
  - intros h' hk s' Hh Hsock. destruct (W6 h' hk s' Hh Hsock) as (sk & Hsk & Hhd).
    destruct (Back _ _ Hsk) as (sk' & Hsk' & Hhd' & _). exists sk'. split; [done|congruence].
  - intros t h' Ht Hr. destruct (W7 t h' Ht Hr) as [Hlt Hcl]. split; [done|].
    intros s' sk' Hsk' Hhd. destruct (Forth _ _ Hsk') as (sk & Hsk & Hhd' & Hc).
    apply Hc. eapply Hcl; [done|congruence].
Qed.

(** The server starts the closing handshake. *)
Lemma wired_peer_closes s u h w :
  sockets w !! s = Some (mkSocket u OPEN h) →
  wired w → wired (set_sockets <[s := mkSocket u CLOSING h]> w).
Proof.
  intros Hs [W1 W2 W3 W4 W5 W6 W7 W8 W9 W10].
  assert (Back : ∀ s' sk, sockets w !! s' = Some sk →
            ∃ sk', <[s := mkSocket u CLOSING h]> (sockets w) !! s' = Some sk'
                   ∧ handlers sk' = handlers sk
                   ∧ (readyState sk = OPEN ∨ readyState sk = CLOSING →
                      readyState sk' = OPEN ∨ readyState sk' = CLOSING)).
  { intros s' sk Hsk. destruct (decide (s' = s)) as [->|Hne].
    - exists (mkSocket u CLOSING h).
      rewrite list_lookup_insert_eq by (by eapply lookup_lt_Some).
      rewrite Hs in Hsk. inversion Hsk; subst. split; [done|]. split; [done|]. by right.
    - exists sk. by rewrite list_lookup_insert_ne. }
  assert (Forth : ∀ s' sk', <[s := mkSocket u CLOSING h]> (sockets w) !! s' = Some sk' →
            ∃ sk, sockets w !! s' = Some sk ∧ handlers sk' = handlers sk
                  ∧ (readyState sk = CLOSED → readyState sk' = CLOSED)).
  { intros s' sk' Hsk'. destruct (decide (s' = s)) as [->|Hne].
    - rewrite list_lookup_insert_eq in Hsk' by (by eapply lookup_lt_Some).
      inversion Hsk'; subst. eexists. split; [exact Hs|]. done.
    - rewrite list_lookup_insert_ne in Hsk' by done. by exists sk'. }
  split; wsimpl; try done.
  - intros name st Hst Hc. destruct (W3 name st Hst Hc) as (s' & sk & Hsock & Hsk & Hr).
    destruct (Back _ _ Hsk) as (sk' & Hsk' & _ & Ho). exists s', sk'. auto.
  - intros name st s' Hst Hsock.
    destruct (W4 name st s' Hst Hsock) as (sk & hk & Hsk & Hh & Hn).
    destruct (Back _ _ Hsk) as (sk' & Hsk' & Hhd & _). exists sk', hk. by rewrite Hhd.
  - intros s' sk' Hsk' Hr. destruct (Forth _ _ Hsk') as (sk & Hsk & Hhd & Hcl).
    rewrite Hhd. apply W5; [done|]. intros Hc. by apply Hr, Hcl.
  - intros h' hk s' Hh Hsock. destruct (W6 h' hk s' Hh Hsock) as (sk & Hsk & Hhd).
    destruct (Back _ _ Hsk) as (sk' & Hsk' & Hhd' & _). exists sk'. split; [done|congruence].
  - intros t h' Ht Hr. destruct (W7 t h' Ht Hr) as [Hlt Hcl]. split; [done|].
    intros s' sk' Hsk' Hhd. destruct (Forth _ _ Hsk') as (sk & Hsk & Hhd' & Hc).
    apply Hc. eapply Hcl; [done|congruence].
Qed.

Lemma wired_write_open h hk s sk w :
  hooks w !! h = Some hk → Hook.socket hk = Some s →
  sockets w !! s = Some sk → readyState sk = OPEN →
  wired w →
  wired (set_state <[Hook.name hk := spread (read (Hook.name hk) w) (open_partial hk)]> w).
Proof.
  intros Hh Hsock Hsk Hopen W. pose proof W as [W1 W2 W3 W4 W5 W6 W7 W8 W9 W10].
  set (name := Hook.name hk).
  assert (Old : ∀ name' st',
            <[name := spread (read name w) (open_partial hk)]> (state w) !! name' = Some st' →
            (name' ≠ name ∧ state w !! name' = Some st')
            ∨ (name' = name ∧ st' = spread (read name w) (open_partial hk))).
  { intros name' st'. destruct (decide (name' = name)) as [->|Hne].
    - rewrite lookup_insert_eq. intros [= <-]. by right.
    - rewrite lookup_insert_ne by done. by left. }
  split; wsimpl; try done.
  - intros name' st' Hst Hc. destruct (Old _ _ Hst) as [[_ H]|[-> ->]]; [by eapply W1|done].
  - intros name' st' n Hst Hn. destruct (Old _ _ Hst) as [[_ H]|[-> ->]]; [by eapply W2|].
    cbn [spread WebSocketState.name open_partial Partial.name default] in Hn.
    destruct (read_cases name w) as [Hr|[_ Hr]]; [by eapply W2|].
    rewrite Hr in Hn. done.
  - intros name' st' Hst Hc. destruct (Old _ _ Hst) as [[_ H]|[-> ->]]; [by eapply W3|].
    exists s, sk. cbn [spread WebSocketState.socket open_partial Partial.socket default].
    split; [done|]. split; [done|]. by left.
  - intros name' st' s' Hst Hs. destruct (Old _ _ Hst) as [[_ H]|[-> ->]]; [by eapply W4|].
    cbn [spread WebSocketState.socket open_partial Partial.socket default] in Hs.
    rewrite Hsock in Hs. inversion Hs; subst s'.
    destruct (W6 h hk s Hh Hsock) as (sk' & Hsk' & Hhd).
    exists sk', hk. by rewrite Hhd.
Qed.

(** [connect] for an idle name, from a hook that has neither a live
    socket nor a pending reconnect. *)
Lemma wired_connect h hk w :
  hooks w !! h = Some hk →
  WebSocketState.connected (read (Hook.name hk) w)
    || WebSocketState.connecting (read (Hook.name hk) w) = false →
  (∀ s sk, sockets w !! s = Some sk → handlers sk = h → readyState sk = CLOSED) →
  (∀ t, t ∈ timers w → task t ≠ Reconnect h) →
  wired w →
  wired (set_hooks <[h := Hook.with_socket (Some (length (sockets w))) hk]>
           (set_sockets (fun ss => ss ++ [mkSocket (Hook.url hk) CONNECTING h])
              (set_state <[Hook.name hk := spread (read (Hook.name hk) w)
                                               (connecting_partial hk)]> w))).
Proof.
  intros Hh Hidle Hdead Hnone W. pose proof W as [W1 W2 W3 W4 W5 W6 W7 W8 W9 W10].
  set (name := Hook.name hk). fold name in Hidle.
  set (n := length (sockets w)).
  apply orb_false_iff in Hidle as [Hc0 Hg0].
  pose proof (lookup_lt_Some _ _ _ Hh) as Hlt.
  assert (Old : ∀ name' st',
            <[name := spread (read name w) (connecting_partial hk)]> (state w) !! name'
              = Some st' →
            (name' ≠ name ∧ state w !! name' = Some st')
            ∨ (name' = name ∧ st' = spread (read name w) (connecting_partial hk))).
  { intros name' st'. destruct (decide (name' = name)) as [->|Hne].
    - rewrite lookup_insert_eq. intros [= <-]. by right.
    - rewrite lookup_insert_ne by done. by left. }
  assert (Sk : ∀ s sk, sockets w !! s = Some sk →
            (sockets w ++ [mkSocket (Hook.url hk) CONNECTING h]) !! s = Some sk).
  { intros s sk Hs. rewrite lookup_app_l; [done|]. by eapply lookup_lt_Some. }
  assert (Sk' : ∀ s sk, (sockets w ++ [mkSocket (Hook.url hk) CONNECTING h]) !! s = Some sk →
            sockets w !! s = Some sk
            ∨ (s = n ∧ sk = mkSocket (Hook.url hk) CONNECTING h)).
  { intros s sk Hs. apply lookup_app_Some in Hs as [Hs|[Hge Hs]]; [by left|right].
    destruct (s - length (sockets w)) as [|k] eqn:Ek; simpl in Hs; [|done].
    inversion Hs; subst. split; [unfold n; lia|done]. }
  assert (Hk : ∀ h' hk', hooks w !! h' = Some hk' →
            ∃ hk'', <[h := Hook.with_socket (Some n) hk]> (hooks w) !! h' = Some hk''
                    ∧ Hook.name hk'' = Hook.name hk'
                    ∧ Hook.reconnectTimeout hk'' = Hook.reconnectTimeout hk'
                    ∧ (h' ≠ h → hk'' = hk')).
  { intros h' hk' Hh'. destruct (decide (h' = h)) as [->|Hne].
    - rewrite list_lookup_insert_eq by done. eexists. split; [done|].
      rewrite Hh in Hh'. inversion Hh'; subst. done.
    - rewrite list_lookup_insert_ne by done. by exists hk'. }
  assert (Hk' : ∀ h' hk'', <[h := Hook.with_socket (Some n) hk]> (hooks w) !! h' = Some hk'' →
            (h' = h ∧ hk'' = Hook.with_socket (Some n) hk)
            ∨ (h' ≠ h ∧ hooks w !! h' = Some hk'')).
  { intros h' hk'' Hh'. destruct (decide (h' = h)) as [->|Hne].
    - rewrite list_lookup_insert_eq in Hh' by done. left. by inversion Hh'.
    - rewrite list_lookup_insert_ne in Hh' by done. by right. }
  split; wsimpl; try done.
  - intros name' st' Hst Hc. destruct (Old _ _ Hst) as [[_ H]|[-> ->]]; [by eapply W1|].
    cbn [spread WebSocketState.connected connecting_partial Partial.connected default] in Hc.
    congruence.
  - intros name' st' n' Hst Hn. destruct (Old _ _ Hst) as [[_ H]|[-> ->]]; [by eapply W2|].
    cbn [spread WebSocketState.name connecting_partial Partial.name default] in Hn.
    by inversion Hn.
  - intros name' st' Hst Hc. destruct (Old _ _ Hst) as [[_ H]|[-> ->]].
    + destruct (W3 name' st' H Hc) as (s & sk & Hs & Hsk & Hr). exists s, sk. auto.
    + cbn [spread WebSocketState.connected connecting_partial Partial.connected default]
        in Hc. congruence.
  - intros name' st' s Hst Hs.
    assert (Hw : ∃ sk hk', sockets w !! s = Some sk ∧ hooks w !! handlers sk = Some hk'
                           ∧ Hook.name hk' = name').
    { destruct (Old _ _ Hst) as [[_ H]|[-> ->]]; [by eapply W4|].
      cbn [spread WebSocketState.socket connecting_partial Partial.socket default] in Hs.
      destruct (read_cases name w) as [Hr|[_ Hr]]; [by eapply W4|].
      rewrite Hr in Hs. done. }
    destruct Hw as (sk & hk' & Hsk & Hh' & Hn).
    destruct (Hk _ _ Hh') as (hk'' & Hh'' & Hn'' & _).
    exists sk, hk''. split; [auto|]. split; [done|congruence].
  - intros s sk Hs Hr. destruct (Sk' _ _ Hs) as [Hs'|[-> ->]].
    + destruct (W5 s sk Hs' Hr) as (hk' & Hh' & Hsock).
      destruct (Hk _ _ Hh') as (hk'' & Hh'' & _ & _ & Hsame).
      exists hk''. split; [done|]. rewrite Hsame; [done|].
      intros Heq. apply Hr. by eapply Hdead.
    + cbn [handlers]. eexists. split; [by apply list_lookup_insert_eq|done].
  - intros h' hk'' s Hh' Hs. destruct (Hk' _ _ Hh') as [[-> ->]|[Hne Hh'']].
    + cbn [Hook.socket Hook.with_socket] in Hs. inversion Hs; subst s.
      eexists. split; [apply snoc_lookup_last|done].
    + destruct (W6 h' hk'' s Hh'' Hs) as (sk & Hsk & Hhd). exists sk. auto.
  - intros t h' Ht Hr. destruct (W7 t h' Ht Hr) as [Hlt' Hcl].
    rewrite length_insert. split; [done|].
    intros s sk Hs Hhd. destruct (Sk' _ _ Hs) as [Hs'|[-> ->]]; [by eapply Hcl|].
    cbn [handlers] in Hhd. subst h'. by destruct (Hnone t Ht).
  - intros t h' hk'' Ht Hr Hh'. destruct (Hk' _ _ Hh') as [[-> ->]|[Hne Hh'']].
    + by destruct (Hnone t Ht).
    + by eapply W9.
Qed.

Lemma filter_none {A} (P : A → Prop) `{!∀ x, Decision (P x)} (xs : list A) :
  (∀ x, x ∈ xs → ¬ P x) → filter P xs = [].
Proof.
  induction xs as [|x xs IH]; intros Hall; [done|].
  rewrite filter_cons_False by (apply Hall; by left).
  apply IH. intros y Hy. apply Hall. by right.
Qed.

(** The reconnect timer of a hook whose sockets are all closed. *)
Lemma wired_reconnect_armed h hk d w :
  hooks w !! h = Some hk →
  (∀ s sk, sockets w !! s = Some sk → handlers sk = h → readyState sk = CLOSED) →
  (∀ t, t ∈ timers w → task t ≠ Reconnect h) →
  wired w →
  wired (set_hooks <[h := Hook.with_reconnectTimeout (Some (nextTimer w)) hk]>
           (set_nextTimer S
              (set_timers (fun ts => ts ++ [mkTimer (nextTimer w) d (Reconnect h)]) w))).
Proof.
  intros Hh Hdead Hnone W. pose proof W as [W1 W2 W3 W4 W5 W6 W7 W8 W9 W10].
  pose proof (lookup_lt_Some _ _ _ Hh) as Hlt.
  set (id := nextTimer w).
  assert (Hk : ∀ h' hk', hooks w !! h' = Some hk' →
            ∃ hk'', <[h := Hook.with_reconnectTimeout (Some id) hk]> (hooks w) !! h'
                      = Some hk''
                    ∧ Hook.name hk'' = Hook.name hk' ∧ Hook.socket hk'' = Hook.socket hk').
  { intros h' hk' Hh'. destruct (decide (h' = h)) as [->|Hne].
    - rewrite list_lookup_insert_eq by done. eexists. split; [done|].
      rewrite Hh in Hh'. inversion Hh'; subst. done.
    - rewrite list_lookup_insert_ne by done. by exists hk'. }
  assert (Hk' : ∀ h' hk'',
            <[h := Hook.with_reconnectTimeout (Some id) hk]> (hooks w) !! h' = Some hk'' →
            (h' = h ∧ hk'' = Hook.with_reconnectTimeout (Some id) hk)
            ∨ (h' ≠ h ∧ hooks w !! h' = Some hk'')).
  { intros h' hk'' Hh'. destruct (decide (h' = h)) as [->|Hne].
    - rewrite list_lookup_insert_eq in Hh' by done. left. by inversion Hh'.
    - rewrite list_lookup_insert_ne in Hh' by done. by right. }
  assert (Tm : ∀ t, t ∈ timers w ++ [mkTimer id d (Reconnect h)] →
            t ∈ timers w ∨ t = mkTimer id d (Reconnect h)).
  { intros t Ht. apply elem_of_app in Ht as [Ht|Ht]; [by left|right].
    by apply list_elem_of_singleton in Ht. }
  split; wsimpl; try done.
  - intros name st s Hst Hs. destruct (W4 name st s Hst Hs) as (sk & hk' & Hsk & Hh' & Hn).
    destruct (Hk _ _ Hh') as (hk'' & Hh'' & Hn'' & _).
    exists sk, hk''. split; [done|]. split; [done|congruence].
  - intros s sk Hs Hr. destruct (W5 s sk Hs Hr) as (hk' & Hh' & Hsock).
    destruct (Hk _ _ Hh') as (hk'' & Hh'' & _ & Hs'').
    exists hk''. split; [done|congruence].
  - intros h' hk'' s Hh' Hs. destruct (Hk' _ _ Hh') as [[-> ->]|[Hne Hh'']].
    + by eapply W6.
    + by eapply W6.
  - intros t h' Ht Hr. rewrite length_insert.
    destruct (Tm t Ht) as [Ht' | ->]; [by eapply W7|].
    cbn [task] in Hr. inversion Hr; subst h'. done.
  - intros h'. rewrite filter_app.
    destruct (decide (h' = h)) as [->|Hne].
    + rewrite (filter_none (fun t => task t = Reconnect h) (timers w)) by done.
      rewrite filter_cons_True by done. simpl. lia.
    + rewrite filter_cons_False by (cbn [task]; congruence).
      rewrite filter_nil, app_nil_r. apply W8.
  - intros t h' hk'' Ht Hr Hh'. destruct (Tm t Ht) as [Ht' | ->].
    + destruct (Hk' _ _ Hh') as [[-> ->]|[Hne Hh'']]; [by destruct (Hnone t Ht')|].
      by eapply W9.
    + cbn [task] in Hr. inversion Hr; subst h'. cbn [timerId].
      destruct (Hk' _ _ Hh') as [[_ ->]|[Hne _]]; [|done].
      split; [done|]. unfold id. lia.
  - lia.
Qed.

(** A new hook. *)
Lemma wired_mounted hk0 w :
  Hook.socket hk0 = None → wired w → wired (set_hooks (fun hs => hs ++ [hk0]) w).
Proof.
  intros Hnew [W1 W2 W3 W4 W5 W6 W7 W8 W9 W10].
  assert (Hk : ∀ h hk, hooks w !! h = Some hk → (hooks w ++ [hk0]) !! h = Some hk).
  { intros h hk Hh. rewrite lookup_app_l; [done|]. by eapply lookup_lt_Some. }
  assert (Hk' : ∀ h hk, (hooks w ++ [hk0]) !! h = Some hk →
            hooks w !! h = Some hk ∨ (h = length (hooks w) ∧ hk = hk0)).
  { intros h hk Hh. apply lookup_app_Some in Hh as [Hh|[Hge Hh]]; [by left|right].
    destruct (h - length (hooks w)) as [|k] eqn:Ek; simpl in Hh; [|done].
    inversion Hh; subst. split; [lia|done]. }
  split; wsimpl; try done.
  - intros name st s Hst Hs. destruct (W4 name st s Hst Hs) as (sk & hk & Hsk & Hh & Hn).
    exists sk, hk. auto.
  - intros s sk Hs Hr. destruct (W5 s sk Hs Hr) as (hk & Hh & Hsock). exists hk. auto.
  - intros h hk s Hh Hs. destruct (Hk' _ _ Hh) as [Hh'|[-> ->]]; [by eapply W6|congruence].
  - intros t h Ht Hr. destruct (W7 t h Ht Hr) as [Hlt Hcl]. rewrite length_app. simpl.
    split; [lia|done].
  - intros t h hk Ht Hr Hh. destruct (Hk' _ _ Hh) as [Hh'|[-> ->]]; [by eapply W9|].
    destruct (W7 t _ Ht Hr) as [Hlt _]. lia.
Qed.

(** *** What leaves the wiring alone *)

Lemma settles_fields w w' :
  state w' = state w → sockets w' = sockets w → hooks w' = hooks w →
  timers w' = timers w → nextTimer w' = nextTimer w → settles w w'.
Proof.
  intros St Sk Hk Tm Nx. repeat split; try done; [by rewrite Hk|by rewrite Tm|lia].
Qed.

Lemma settles_parts w w' :
  state w' = state w → sockets w' = sockets w →
  wiring_of <$> hooks w' = wiring_of <$> hooks w →
  filter is_reconnect (timers w') `sublist_of` filter is_reconnect (timers w) →
  nextTimer w ≤ nextTimer w' → settles w w'.
Proof. by repeat split. Qed.

Lemma settles_modify f : (∀ w, settles w (f w)) → moves settles (modify f).
Proof. apply moves_modify. Qed.

Lemma settles_emit e : moves settles (emit e).
Proof. apply settles_modify. intros w. by apply settles_fields. Qed.

Lemma settles_getListeners name : moves settles (getListeners name).
Proof.
  intros w r w' H. rewrite getListeners_eq in H. inversion H; subst.
  destruct (with_set_fields name w) as (? & ? & ? & ? & ? & ? & ? & ?).
  by apply settles_fields.
Qed.

Lemma settles_update_hook h f :
  (∀ hk, wiring_of (f hk) = wiring_of hk) → moves settles (update_hook h f).
Proof.
  intros Hf. apply settles_modify. intros w. unfold set_hooks.
  destruct (hooks w !! h) as [hk|] eqn:Hh; [|by apply settles_fields].
  apply settles_parts; wsimpl; try done.
  rewrite list_fmap_insert, Hf. apply list_insert_id. by rewrite list_lookup_fmap, Hh.
Qed.

Lemma settles_setTimeout_heartbeat h d : moves settles (setTimeout (Heartbeat h) d).
Proof.
  unfold setTimeout. moves_cases.
  - apply settles_modify. intros w. apply settles_parts; wsimpl; try done.
    rewrite filter_app, filter_cons_False by (by intros []).
    by rewrite filter_nil, app_nil_r.
  - apply settles_modify. intros w. apply settles_parts; wsimpl; try done. lia.
Qed.

Lemma settles_clearTimeout id : moves settles (clearTimeout id).
Proof.
  apply settles_modify. intros w. apply settles_parts; wsimpl; try done.
  apply filter_sublist_mono, sublist_filter.
Qed.

Lemma settles_heartbeat_effect h : moves settles (heartbeat_effect h).
Proof.
  unfold heartbeat_effect. moves_cases;
    first [apply settles_setTimeout_heartbeat | by apply settles_update_hook].
Qed.

Lemma settles_heartbeat_cleanup h : moves settles (heartbeat_cleanup h).
Proof.
  unfold heartbeat_cleanup. moves_cases;
    first [apply settles_clearTimeout | by apply settles_update_hook].
Qed.

Lemma settles_setLastMessageTime h t : moves settles (setLastMessageTime h t).
Proof.
  unfold setLastMessageTime. moves_cases;
    first [by apply settles_update_hook | apply settles_heartbeat_cleanup
          | apply settles_heartbeat_effect].
Qed.

Lemma settles_decode parse data : moves settles (decode parse data).
Proof. unfold decode. moves_cases. apply settles_emit. Qed.

Lemma settles_subscribe name l : moves settles (subscribeWebSocket name l).
Proof.
  unfold subscribeWebSocket. moves_cases; [apply settles_getListeners|].
  apply settles_modify. intros w. by apply settles_fields.
Qed.

Lemma settles_unsubscribe handle : moves settles (unsubscribe handle).
Proof. intros w r w' [= <- <-]. by apply settles_fields. Qed.

Lemma settles_send stringify name msg :
  moves settles (sendWebSocketMessage stringify name msg).
Proof.
  unfold sendWebSocketMessage, getWebSocketState, socket_send.
  moves_cases; apply settles_emit.
Qed.

Lemma keeps_settles {A} (m : M A) : moves settles m → moves (keeps wired) m.
Proof. intros H w r w' E W. eapply wired_settles; [|exact W]. by eapply H. Qed.

Section Wired.

Variable fuel : nat.
Variable listener_body : Listener → World → Result unit * World.
Variable JSON_parse : string → Result JsValue.
Variable JSON_stringify : JsValue → Result string.
Hypothesis observers : ∀ l w, snd (listener_body l w) = w.

Lemma settles_notified name evs w : settles w (notified name evs w).
Proof.
  apply settles_fields;
    [apply state_notified|apply sockets_notified|apply hooks_notified
    |apply timers_notified|apply nextTimer_notified].
Qed.

Lemma settles_notify name : moves settles (notifyListeners fuel listener_body name).
Proof.
  intros w r w' H.
  destruct (notify_cases fuel listener_body observers name w) as [E|(evs & F & E)];
    rewrite E in H; [done|]. inversion H; subst. apply settles_notified.
Qed.

Lemma settles_addMessage name msg : moves settles (addMessage fuel listener_body name msg).
Proof.
  unfold addMessage. moves_cases; [|apply settles_notify].
  apply settles_modify. intros w. by apply settles_fields.
Qed.

Lemma settles_heartbeat_fired h : moves settles (heartbeat_fired fuel listener_body h).
Proof.
  unfold heartbeat_fired. moves_cases; [apply settles_emit|apply settles_addMessage].
Qed.

Lemma settles_clear name : moves settles (clearWebSocketMessage fuel listener_body name).
Proof.
  unfold clearWebSocketMessage. moves_cases; [|apply settles_notify].
  apply settles_modify. intros w0. by apply settles_fields.
Qed.

Lemma wired_written name p evs w :
  wired (set_state <[name := spread (read name w) p]> w) → wired (written name p evs w).
Proof. apply wired_settles, settles_notified. Qed.

Lemma keeps_write_harmless name p :
  harmless p → moves (keeps wired) (setWebSocketState fuel listener_body name p).
Proof.
  intros Hp w r w' H W.
  destruct (setWebSocketState_written fuel listener_body observers name p w)
    as (evs & _ & E); [right; by rewrite H|].
  rewrite E in H. inversion H; subst.
  by apply wired_written, wired_write_harmless.
Qed.

Lemma keeps_onmessage h data :
  moves (keeps wired) (onmessage fuel listener_body JSON_parse h data).
Proof.
  unfold onmessage. moves_cases.
  - apply keeps_settles, settles_decode.
  - apply keeps_settles, settles_addMessage.
  - apply keeps_settles, settles_setLastMessageTime.
  - apply keeps_settles. intros w r w' [= <- <-]. reflexivity.
  - apply keeps_write_harmless, harmless_messages.
  - apply keeps_settles, settles_emit.
Qed.

End Wired.

Lemma closing_alter s w :
  sockets (closing (Some s) w) = alter close_called s (sockets w).
Proof.
  unfold closing. wsimpl. apply list_eq. intros j.
  destruct (decide (j = s)) as [->|Hne].
  - rewrite list_lookup_alter_eq. destruct (sockets w !! s) as [sk|] eqn:Hs; [|by rewrite Hs].
    unfold close_called. cbn [fmap option_fmap option_map].
    destruct (readyState sk); try done;
      apply list_lookup_insert_eq; by eapply lookup_lt_Some.
  - rewrite list_lookup_alter_ne by done.
    destruct (sockets w !! s) as [sk|]; [|done].
    destruct (readyState sk); try done; by apply list_lookup_insert_ne.
Qed.

Lemma close_called_handlers sk : handlers (close_called sk) = handlers sk.
Proof. unfold close_called. by destruct (readyState sk). Qed.

Lemma close_called_closed sk :
  readyState sk = CLOSED → readyState (close_called sk) = CLOSED.
Proof. unfold close_called. intros H. by rewrite H. Qed.

Lemma insert_alter_const {A} (xs : list A) i x y :
  xs !! i = Some x → <[i := y]> xs = alter (fun _ => y) i xs.
Proof. intros _. apply list_insert_alter. Qed.

(** A write that says "not connected" to the name that owns socket [s],
    together with a change of [s] that opens nothing. *)
Lemma wired_write_close (g : Socket → Socket) name p s w :
  (∀ sk, handlers (g sk) = handlers sk) →
  (∀ sk, readyState sk = CLOSED → readyState (g sk) = CLOSED) →
  harmless p → Partial.connected p = Some false →
  (∀ sk, sockets w !! s = Some sk →
     ∃ hk, hooks w !! handlers sk = Some hk ∧ Hook.name hk = name) →
  wired w →
  wired (set_sockets (alter g s) (set_state <[name := spread (read name w) p]> w)).
Proof.
  intros Gh Gc Hp Hc Own W.
  apply wired_alter; [done|done| |by apply wired_write_harmless].
  wsimpl. intros name' st Hst Hs.
  destruct (decide (name' = name)) as [->|Hne].
  - rewrite lookup_insert_eq in Hst. inversion Hst; subst st.
    cbn [spread WebSocketState.connected]. by rewrite Hc.
  - rewrite lookup_insert_ne in Hst by done.
    destruct (handle_of_name w W name' st s Hst Hs) as (sk & hk & Hsk & Hh & Hn).
    destruct (Own sk Hsk) as (hk' & Hh' & Hn'). congruence.
Qed.

Section WiredSteps.

Variable fuel : nat.
Variable listener_body : Listener → World → Result unit * World.
Variable JSON_parse : string → Result JsValue.
Variable JSON_stringify : JsValue → Result string.
Hypothesis observers : ∀ l w, snd (listener_body l w) = w.

Lemma wired_connect_any h w r w' :
  h < length (hooks w) →
  (∀ s sk, sockets w !! s = Some sk → handlers sk = h → readyState sk = CLOSED) →
  (∀ t, t ∈ timers w → task t ≠ Reconnect h) →
  connect fuel listener_body h w = Some (r, w') →
  wired w → wired w'.
Proof.
  intros Hlt Hdead Hnone H W.
  destruct (lookup_lt_is_Some_2 _ _ Hlt) as [hk Hh].
  destruct (WebSocketState.connected (read (Hook.name hk) w)
            || WebSocketState.connecting (read (Hook.name hk) w)) eqn:Hbusy.
  - unfold connect in H. rewrite (in_hook_eq _ _ _ _ _ Hh) in H.
    unfold bind in H. rewrite getWebSocketState_eq, Hbusy in H. by inversion H; subst.
  - destruct (connect_observers fuel listener_body observers h hk w Hh Hbusy)
      as (evs & _ & E); [right; by rewrite H|].
    rewrite E in H. inversion H; subst. clear H E.
    eapply wired_ext; [| | | | |exact (wired_connect h hk w Hh Hbusy Hdead Hnone W)].
    all: unfold after_connect; wsimpl;
      destruct (written_fields (Hook.name hk) (connecting_partial hk) evs w)
        as (St & Lm & Nw & Sk & Tm & Nx & Hk & Lg); congruence.
Qed.

Lemma keeps_connect_cleanup h : moves (keeps wired) (connect_cleanup fuel listener_body h).
Proof.
  intros w r w' H W.
  destruct (hooks w !! h) as [hk|] eqn:Hh.
  2: { unfold connect_cleanup in H. rewrite in_hook_none in H by done.
       by inversion H; subst. }
  destruct (connect_cleanup_observers fuel listener_body observers h hk w Hh)
    as (evs & _ & E); [right; by rewrite H|].
  rewrite E in H. inversion H; subst. clear H E.
  set (wa := cancelled (Hook.reconnectTimeout hk) w).
  assert (Wa : wired wa).
  { eapply wired_settles; [|exact W].
    pose proof (cancelled_eq (Hook.reconnectTimeout hk) w) as E.
    eapply (moves_bind (R := settles) (match Hook.reconnectTimeout hk with
              | Some id => when (negb (bool_decide (id = 0))) (clearTimeout id)
              | None => ret tt end) (fun _ => ret tt)).
    - destruct (Hook.reconnectTimeout hk);
        [apply moves_when, settles_clearTimeout|apply moves_ret].
    - intros _. apply moves_ret.
    - unfold bind. rewrite E. reflexivity. }
  assert (Fa : state wa = state w ∧ sockets wa = sockets w ∧ hooks wa = hooks w).
  { unfold wa, cancelled. destruct (Hook.reconnectTimeout hk); [case_bool_decide|]; done. }
  destruct Fa as (Sa & Ka & Ha).
  assert (Ra : read (Hook.name hk) wa = read (Hook.name hk) w)
    by (unfold read; by rewrite Sa).
  unfold after_cleanup.
  destruct (written_fields (Hook.name hk) idle evs
              (cancelled (Hook.reconnectTimeout hk) (closing (Hook.socket hk) w)))
    as (St & Lm & Nw & Sk & Tm & Nx & Hk & Lg).
  assert (Rc : read (Hook.name hk)
                 (cancelled (Hook.reconnectTimeout hk) (closing (Hook.socket hk) w))
               = read (Hook.name hk) w).
  { unfold read, cancelled. destruct (Hook.reconnectTimeout hk); [case_bool_decide|];
      wsimpl; by destruct (closing_fields (Hook.socket hk) w) as (-> & _). }
  assert (Cf : ∀ x, state (cancelled (Hook.reconnectTimeout hk) x) = state x
               ∧ sockets (cancelled (Hook.reconnectTimeout hk) x) = sockets x
               ∧ hooks (cancelled (Hook.reconnectTimeout hk) x) = hooks x
               ∧ nextTimer (cancelled (Hook.reconnectTimeout hk) x) = nextTimer x).
  { intros x. unfold cancelled.
    destruct (Hook.reconnectTimeout hk); [case_bool_decide|]; done. }
  assert (Ct : timers (cancelled (Hook.reconnectTimeout hk) (closing (Hook.socket hk) w))
               = timers wa).
  { unfold wa, cancelled. destruct (Hook.reconnectTimeout hk); [case_bool_decide|];
      wsimpl; by destruct (closing_fields (Hook.socket hk) w) as (_ & _ & _ & -> & _). }
  destruct (closing_fields (Hook.socket hk) w) as (cS & cL & cN & cT & cX & cH & cG & _).
  destruct (Hook.socket hk) as [s|] eqn:Hs.
  - assert (Own : ∀ sk, sockets wa !! s = Some sk →
              ∃ hk0, hooks wa !! handlers sk = Some hk0 ∧ Hook.name hk0 = Hook.name hk).
    { intros sk Hsk. rewrite Ka in Hsk.
      destruct (hook_of_socket w W h hk s Hh Hs) as (sk' & Hsk' & Hhd).
      rewrite Hsk in Hsk'. inversion Hsk'; subst sk'. exists hk. by rewrite Ha, Hhd. }
    eapply wired_ext;
      [| | | | |exact (wired_write_close close_called (Hook.name hk) idle s wa
                         close_called_handlers close_called_closed harmless_idle eq_refl
                         Own Wa)].
    + rewrite St, Rc. wsimpl. destruct (Cf (closing (Some s) w)) as (-> & _).
      by rewrite cS, Ra, Sa.
    + rewrite Sk. wsimpl. destruct (Cf (closing (Some s) w)) as (_ & -> & _).
      by rewrite closing_alter, Ka.
    + rewrite Hk. wsimpl. destruct (Cf (closing (Some s) w)) as (_ & _ & -> & _).
      by rewrite cH, Ha.
    + rewrite Tm. wsimpl. exact Ct.
    + rewrite Nx. wsimpl. destruct (Cf (closing (Some s) w)) as (_ & _ & _ & ->).
      destruct (Cf w) as (_ & _ & _ & E). fold wa in E. by rewrite cX, E.
  - eapply wired_ext; [| | | | |exact (wired_write_harmless (Hook.name hk) idle wa
                                        harmless_idle Wa)].
    + rewrite St, Rc. wsimpl. by rewrite Ra.
    + by rewrite Sk.
    + by rewrite Hk.
    + by rewrite Tm.
    + by rewrite Nx.
Qed.

Lemma keeps_unmount h : moves (keeps wired) (unmount fuel listener_body h).
Proof.
  unfold unmount. moves_cases.
  - apply keeps_connect_cleanup.
  - apply keeps_settles, settles_heartbeat_cleanup.
  - by apply keeps_settles, settles_update_hook.
Qed.

Lemma keeps_mount options :
  moves (keeps wired) (useWebSocketConnect fuel listener_body options).
Proof.
  intros w r w' H W.
  unfold useWebSocketConnect, bind at 1 2, get at 1, modify in H.
  set (w1 := set_hooks _ w) in H.
  assert (W1 : wired w1) by (by apply wired_mounted).
  unfold bind in H.
  destruct (connect fuel listener_body (length (hooks w)) w1) as [[[[]|e] w2]|] eqn:E;
    [| |done].
  2: { inversion H; subst. eapply wired_connect_any; [| | |exact E|exact W1].
       - unfold w1. wsimpl. rewrite length_app. simpl. lia.
       - intros s sk Hs Hhd. destruct (readyState sk) eqn:Hr; try done.
         all: destruct (socket_of_hook w W s sk Hs) as (hk & Hh & _); [by rewrite Hr|];
           apply lookup_lt_Some in Hh; lia.
       - intros t Ht Hr. destruct (reconnect_after_close w W t _ Ht Hr) as [Hlt _]. lia. }
  assert (W2 : wired w2).
  { eapply wired_connect_any; [| | |exact E|exact W1].
    - unfold w1. wsimpl. rewrite length_app. simpl. lia.
    - intros s sk Hs Hhd. destruct (readyState sk) eqn:Hr; try done.
      all: destruct (socket_of_hook w W s sk Hs) as (hk & Hh & _); [by rewrite Hr|];
        apply lookup_lt_Some in Hh; lia.
    - intros t Ht Hr. destruct (reconnect_after_close w W t _ Ht Hr) as [Hlt _]. lia. }
  destruct (heartbeat_effect (length (hooks w)) w2) as [[[[]|e] w3]|] eqn:E3; [| |done].
  - inversion H; subst. eapply wired_settles; [|exact W2].
    by eapply settles_heartbeat_effect.
  - inversion H; subst. eapply wired_settles; [|exact W2].
    by eapply settles_heartbeat_effect.
Qed.

Lemma set_socket_state_eq s r sk w :
  sockets w !! s = Some sk →
  set_socket_state s r w = Some (Ok tt, set_sockets <[s := set_readyState r sk]> w).
Proof. intros Hs. unfold set_socket_state, modify, set_sockets. by rewrite Hs. Qed.

Lemma insert_as_alter (g : Socket → Socket) (ss : list Socket) s sk :
  ss !! s = Some sk → <[s := g sk]> ss = alter g s ss.
Proof.
  intros Hs. apply list_eq. intros j.
  destruct (decide (j = s)) as [->|Hne].
  - rewrite list_lookup_alter_eq, Hs, list_lookup_insert_eq by (by eapply lookup_lt_Some).
    done.
  - by rewrite list_lookup_alter_ne, list_lookup_insert_ne.
Qed.

Lemma closed_or_not (rs : ReadyState) : rs = CLOSED ∨ rs ≠ CLOSED.
Proof. destruct rs; auto. Qed.

Lemma one_reconnect (ts : list Timer) h t1 t2 :
  length (filter (fun t => task t = Reconnect h) ts) ≤ 1 →
  t1 ∈ ts → t2 ∈ ts → task t1 = Reconnect h → task t2 = Reconnect h → t1 = t2.
Proof.
  intros Hlen H1 H2 R1 R2.
  assert (F1 : t1 ∈ filter (fun t => task t = Reconnect h) ts)
    by (by apply list_elem_of_filter).
  assert (F2 : t2 ∈ filter (fun t => task t = Reconnect h) ts)
    by (by apply list_elem_of_filter).
  destruct (filter _ ts) as [|x [|y rest]]; simpl in Hlen; [|  |lia].
  - by apply elem_of_nil in F1.
  - apply list_elem_of_singleton in F1, F2. congruence.
Qed.

(** Every step keeps the wiring. *)
Lemma wired_step i w r w' :
  step fuel listener_body JSON_parse JSON_stringify i w = Some (r, w') →
  wired w → wired w'.
Proof.
  intros H W. unfold step, bind at 1, get at 1 in H.
  destruct i as [options|h|s|s data|s|s|id|ms|name|name msg|name|name l|name l|s].
  - (* Mount *)
    unfold bind in H.
    destruct (useWebSocketConnect fuel listener_body options w) as [[[h|e] w1]|] eqn:E;
      [| |done]; inversion H; subst; by eapply keeps_mount.
  - (* Unmount *) by eapply keeps_unmount.
  - (* SocketOpen *)
    destruct (sockets w !! s) as [[u rs h]|] eqn:Hs; [|by inversion H; subst].
    destruct rs; try (by inversion H; subst).
    unfold bind in H. rewrite (set_socket_state_eq _ _ _ _ Hs) in H.
    change (set_readyState OPEN (mkSocket u CONNECTING h)) with (mkSocket u OPEN h) in H.
    set (w0 := set_sockets _ w) in H.
    assert (W0 : wired w0) by (by eapply wired_opened).
    destruct (socket_of_hook w W s _ Hs) as (hk & Hh & Hsock); [done|].
    cbn [handlers] in Hh.
    destruct (onopen_observers fuel listener_body observers h hk w0 Hh)
      as (evs & _ & E); [right; by rewrite H|].
    rewrite E in H. inversion H; subst. clear H E.
    apply wired_written. eapply (wired_write_open h hk s (mkSocket u OPEN h)); try done.
    unfold w0. wsimpl. apply list_lookup_insert_eq. by eapply lookup_lt_Some.
  - (* SocketMessage *)
    destruct (sockets w !! s) as [[u rs h]|] eqn:Hs; [|by inversion H; subst].
    destruct rs; try (by inversion H; subst). by eapply keeps_onmessage.
  - (* SocketError *)
    destruct (sockets w !! s) as [[u rs h]|] eqn:Hs; [|by inversion H; subst].
    assert (H' : rs ≠ CLOSED → onerror fuel listener_body h w = Some (r, w'))
      by (by destruct rs).
    destruct (closed_or_not rs) as [->|Hr]; [by inversion H; subst|].
    specialize (H' Hr). clear H.
    destruct (socket_of_hook w W s _ Hs) as (hk & Hh & Hsock); [done|].
    cbn [handlers] in Hh.
    destruct (onerror_observers fuel listener_body observers h hk w Hh)
      as (evs & _ & E); [right; by rewrite H'|].
    rewrite E in H'. inversion H'; subst. clear H' E.
    unfold after_error. rewrite Hsock.
    set (w0 := add_log _ w).
    destruct (written_fields (Hook.name hk) error_partial evs w0)
      as (St & Lm & Nw & Sk & Tm & Nx & Hk & Lg).
    destruct (closing_fields (Some s) (written (Hook.name hk) error_partial evs w0))
      as (cS & cL & cN & cT & cX & cH & cG & _).
    assert (Own : ∀ sk, sockets w !! s = Some sk →
              ∃ hk0, hooks w !! handlers sk = Some hk0 ∧ Hook.name hk0 = Hook.name hk).
    { intros sk Hsk. rewrite Hs in Hsk. inversion Hsk; subst. by exists hk. }
    eapply wired_ext;
      [| | | | |exact (wired_write_close close_called (Hook.name hk) error_partial s w
                         close_called_handlers close_called_closed harmless_error eq_refl
                         Own W)].
    + by rewrite cS, St.
    + by rewrite closing_alter, Sk.
    + by rewrite cH, Hk.
    + by rewrite cT, Tm.
    + by rewrite cX, Nx.
  - (* SocketClose *)
    destruct (sockets w !! s) as [[u rs h]|] eqn:Hs; [|by inversion H; subst].
    assert (H' : rs ≠ CLOSED →
              (do _ <~ set_socket_state s CLOSED; onclose fuel listener_body h) w
              = Some (r, w')) by (by destruct rs).
    destruct (closed_or_not rs) as [->|Hr]; [by inversion H; subst|].
    specialize (H' Hr). clear H.
    unfold bind in H'. rewrite (set_socket_state_eq _ _ _ _ Hs) in H'.
    change (set_readyState CLOSED (mkSocket u rs h)) with (mkSocket u CLOSED h) in H'.
    set (w0 := set_sockets _ w) in H'.
    destruct (socket_of_hook w W s _ Hs) as (hk & Hh & Hsock); [done|].
    cbn [handlers] in Hh.
    assert (Hh0 : hooks w0 !! h = Some hk) by exact Hh.
    destruct (onclose_observers fuel listener_body observers h hk w0 Hh0)
      as (evs & _ & E); [right; by rewrite H'|].
    rewrite E in H'. inversion H'; subst. clear H' E.
    destruct (written_fields (Hook.name hk) idle evs w0)
      as (St & Lm & Nw & Sk & Tm & Nx & Hk & Lg).
    assert (Own : ∀ sk, sockets w !! s = Some sk →
              ∃ hk0, hooks w !! handlers sk = Some hk0 ∧ Hook.name hk0 = Hook.name hk).
    { intros sk Hsk. rewrite Hs in Hsk. inversion Hsk; subst. by exists hk. }
    assert (W1 : wired (written (Hook.name hk) idle evs w0)).
    { eapply wired_ext;
        [| | | | |exact (wired_write_close (set_readyState CLOSED) (Hook.name hk) idle s w
                           (fun _ => eq_refl) (fun _ _ => eq_refl) harmless_idle eq_refl
                           Own W)].
      - by rewrite St.
      - rewrite Sk. unfold w0. wsimpl.
        exact (insert_as_alter (set_readyState CLOSED) (sockets w) s _ Hs).
      - by rewrite Hk.
      - by rewrite Tm.
      - by rewrite Nx. }
    unfold after_close. destruct (Hook.autoReconnect hk); [|exact W1].
    change (nextTimer w0) with (nextTimer w) in *. change (now w0) with (now w).
    rewrite <- Nx.
    apply wired_reconnect_armed; [by rewrite Hk| | |exact W1].
    + rewrite Sk. unfold w0. wsimpl. intros s' sk' Hs' Hhd.
      destruct (decide (s' = s)) as [->|Hne].
      * rewrite list_lookup_insert_eq in Hs' by (by eapply lookup_lt_Some).
        by inversion Hs'.
      * rewrite list_lookup_insert_ne in Hs' by done.
        destruct (readyState sk') eqn:Hr'; try done.
        all: destruct (socket_of_hook w W s' sk' Hs') as (hk' & Hh' & Hsock');
          [by rewrite Hr'|]; rewrite Hhd in Hh'; congruence.
    + rewrite Tm. intros t Ht Htask.
      destruct (reconnect_after_close w W t h Ht Htask) as [_ Hcl].
      specialize (Hcl s _ Hs eq_refl). done.
  - (* TimerFires *)
    destruct (find_timer id (timers w)) as [t|] eqn:Hf; [|by inversion H; subst].
    destruct (bool_decide (due t ≤ now w)%Z); [|by inversion H; subst].
    apply find_timer_Some in Hf as [Hin Hid].
    unfold bind, clearTimeout, modify in H.
    set (w0 := set_timers _ w) in H.
    assert (W0 : wired w0).
    { eapply wired_settles; [|exact W].
      by eapply (settles_clearTimeout id w (Ok tt) w0). }
    destruct (task t) as [h|h] eqn:Htask; unfold run_task in H.
    + destruct (reconnect_after_close w W t h Hin Htask) as [Hlt Hcl].
      eapply (wired_connect_any h w0); [exact Hlt|exact Hcl| |exact H|exact W0].
      unfold w0. wsimpl. intros t' Ht' Htask'.
      apply list_elem_of_filter in Ht' as [Hne Ht'].
      pose proof (one_reconnect (timers w) h t t' (reconnect_once w W h) Hin Ht'
                    Htask Htask'). congruence.
    + eapply wired_settles; [|exact W0]. by eapply settles_heartbeat_fired.
  - (* Elapse *)
    unfold modify in H. inversion H; subst. by apply (wired_ext w).
  - (* Disconnect *)
    destruct (disconnect_observers fuel listener_body observers name w)
      as (evs & _ & E); [right; by rewrite H|].
    rewrite E in H. inversion H; subst. clear H E.
    unfold after_disconnect.
    destruct (WebSocketState.socket (read name w)) as [s|] eqn:Hs.
    * set (w0 := closing (Some s) w).
      destruct (written_fields name idle evs w0) as (St & Lm & Nw & Sk & Tm & Nx & Hk & Lg).
      destruct (closing_fields (Some s) w) as (cS & cL & cN & cT & cX & cH & cG & _).
      assert (Own : ∀ sk, sockets w !! s = Some sk →
                ∃ hk0, hooks w !! handlers sk = Some hk0 ∧ Hook.name hk0 = name).
      { intros sk Hsk. destruct (read_cases name w) as [Hr|[_ Hr]];
          [|by rewrite Hr in Hs].
        destruct (handle_of_name w W name _ s Hr Hs) as (sk' & hk & Hsk' & Hh & Hn).
        rewrite Hsk in Hsk'. inversion Hsk'; subst. by exists hk. }
      eapply wired_ext;
        [| | | | |exact (wired_write_close close_called name idle s w
                           close_called_handlers close_called_closed harmless_idle eq_refl
                           Own W)].
      -- rewrite St. unfold w0. by rewrite read_closing, cS.
      -- rewrite Sk. apply closing_alter.
      -- by rewrite Hk.
      -- by rewrite Tm.
      -- by rewrite Nx.
    * apply wired_written. apply (wired_write_harmless name idle w harmless_idle W).
  - (* Send *)
    eapply wired_settles; [|exact W]. by eapply settles_send.
  - (* ClearMessage *)
    eapply wired_settles; [|exact W]. by eapply settles_clear.
  - (* Subscribe *)
    eapply wired_settles; [|exact W].
    eapply (moves_bind (R := settles) (subscribeWebSocket name l) (fun _ => ret tt));
      [apply settles_subscribe|intros _; apply moves_ret|exact H].
  - (* Unsubscribe *)
    eapply wired_settles; [|exact W].
    eapply (moves_bind (R := settles) (unsubscribe (name, l)) (fun _ => ret tt));
      [apply settles_unsubscribe|intros _; apply moves_ret|exact H].
  - (* PeerCloses *)
    destruct (sockets w !! s) as [[u rs h]|] eqn:Hs; [|by inversion H; subst].
    destruct rs; try (by inversion H; subst).
    rewrite (set_socket_state_eq _ _ _ _ Hs) in H. inversion H; subst.
    by apply wired_peer_closes.
Qed.

Lemma wired_run inputs : ∀ w w',
  run fuel listener_body JSON_parse JSON_stringify inputs w = Some w' →
  wired w → wired w'.
Proof.
  induction inputs as [|i inputs IH]; intros w w' H W; simpl in H.
  - by inversion H; subst.
  - destruct (step _ _ _ _ i w) as [[r w1]|] eqn:E; [|done].
    eapply IH; [exact H|]. by eapply wired_step.
Qed.

End WiredSteps.

Lemma wired_initial t0 : wired (initial t0).
Proof.
  split; simpl; try done.
  - intros t h Ht. by apply elem_of_nil in Ht.
  - intros _. lia.
  - lia.
Qed.

(** ** What the wiring says about every reachable world *)

(** X18: in every world the program can reach, no record is both
    connected and connecting; its name field is null or the key it is
    stored under; a connected record holds a socket; and the socket that
    a record holds was created by a hook of that name. *)
Theorem record_has_one_phase fuel lb parse stringify (t0 : Z) (inputs : list Input)
    (w : World) (name : string) (st : WebSocketState) :
  (∀ l w0, snd (lb l w0) = w0) →
  run fuel lb parse stringify inputs (initial t0) = Some w →
  state w !! name = Some st →
  WebSocketState.connected st && WebSocketState.connecting st = false
  ∧ (WebSocketState.name st = None ∨ WebSocketState.name st = Some name)
  ∧ (WebSocketState.connected st = true → WebSocketState.socket st ≠ None)
  ∧ (∀ s, WebSocketState.socket st = Some s →
       ∃ sk hk, sockets w !! s = Some sk ∧ hooks w !! handlers sk = Some hk
                ∧ Hook.name hk = name).
Proof.
  intros Hobs Hrun Hst.
  pose proof (wired_run fuel lb parse stringify Hobs inputs _ _ Hrun (wired_initial t0))
    as W.
  repeat split.
  - destruct (WebSocketState.connected st) eqn:Hc; [|done].
    by rewrite (one_phase w W name st Hst Hc).
  - destruct (WebSocketState.name st) as [n|] eqn:Hn; [right|by left].
    by rewrite (name_is_key w W name st n Hst Hn).
  - intros Hc. destruct (connected_is_open w W name st Hst Hc) as (s & sk & Hs & _).
    by rewrite Hs.
  - intros s Hs. by eapply handle_of_name.
Qed.

Lemma record_has_one_phase_witness :
  let st := read "x" connected_world in
  WebSocketState.connected st && WebSocketState.connecting st = false
  ∧ (WebSocketState.name st = None ∨ WebSocketState.name st = Some "x"%string)
  ∧ (WebSocketState.connected st = true → WebSocketState.socket st ≠ None)
  ∧ (∀ s, WebSocketState.socket st = Some s →
       ∃ sk hk, sockets connected_world !! s = Some sk
                ∧ hooks connected_world !! handlers sk = Some hk
                ∧ Hook.name hk = "x"%string).
Proof.
  intros st.
  apply (record_has_one_phase 8 quiet Json.parse Json.stringify 0
           [Mount (opts "x"); SocketOpen 0] connected_world "x" st).
  - intros l w0. reflexivity.
  - vm_compute. reflexivity.
  - vm_compute. reflexivity.
Defined.

(** X19: in every world the program can reach, a hook has at most one
    socket that is not closed, and that socket is the one in its [socket]
    variable; it has at most one pending reconnect timer, and none while
    one of its sockets is not closed. *)
Theorem hook_has_one_live_socket fuel lb parse stringify (t0 : Z) (inputs : list Input)
    (w : World) :
  (∀ l w0, snd (lb l w0) = w0) →
  run fuel lb parse stringify inputs (initial t0) = Some w →
  (∀ s1 s2 sk1 sk2,
     sockets w !! s1 = Some sk1 → sockets w !! s2 = Some sk2 →
     handlers sk1 = handlers sk2 →
     readyState sk1 ≠ CLOSED → readyState sk2 ≠ CLOSED → s1 = s2)
  ∧ (∀ s sk, sockets w !! s = Some sk → readyState sk ≠ CLOSED →
       ∃ hk, hooks w !! handlers sk = Some hk ∧ Hook.socket hk = Some s)
  ∧ (∀ h, length (filter (fun t => task t = Reconnect h) (timers w)) ≤ 1)
  ∧ (∀ t h s sk, t ∈ timers w → task t = Reconnect h →
       sockets w !! s = Some sk → handlers sk = h → readyState sk = CLOSED).
Proof.
  intros Hobs Hrun.
  pose proof (wired_run fuel lb parse stringify Hobs inputs _ _ Hrun (wired_initial t0))
    as W.
  repeat split.
  - intros s1 s2 sk1 sk2 H1 H2 Hh R1 R2.
    destruct (socket_of_hook w W s1 sk1 H1 R1) as (hk1 & Hk1 & E1).
    destruct (socket_of_hook w W s2 sk2 H2 R2) as (hk2 & Hk2 & E2).
    rewrite Hh in Hk1. congruence.
  - by apply socket_of_hook.
  - by apply reconnect_once.
  - intros t h s sk Ht Hr Hs Hh.
    destruct (reconnect_after_close w W t h Ht Hr) as [_ Hcl]. by eapply Hcl.
Qed.

Lemma hook_has_one_live_socket_witness :
  let w := after [Mount (reconnecting "x"); SocketOpen 0; SocketClose 0; Elapse 5000;
                  TimerFires 1] in
  (∀ s1 s2 sk1 sk2,
     sockets w !! s1 = Some sk1 → sockets w !! s2 = Some sk2 →
     handlers sk1 = handlers sk2 →
     readyState sk1 ≠ CLOSED → readyState sk2 ≠ CLOSED → s1 = s2)
  ∧ (∀ s sk, sockets w !! s = Some sk → readyState sk ≠ CLOSED →
       ∃ hk, hooks w !! handlers sk = Some hk ∧ Hook.socket hk = Some s)
  ∧ (∀ h, length (filter (fun t => task t = Reconnect h) (timers w)) ≤ 1)
  ∧ (∀ t h s sk, t ∈ timers w → task t = Reconnect h →
       sockets w !! s = Some sk → handlers sk = h → readyState sk = CLOSED).
Proof.
  intros w.
  apply (hook_has_one_live_socket 8 quiet Json.parse Json.stringify 0
           [Mount (reconnecting "x"); SocketOpen 0; SocketClose 0; Elapse 5000;
            TimerFires 1] w).
  - intros l w0. reflexivity.
  - vm_compute. reflexivity.
Defined.

(** X20: in every world the program can reach, a record that says
    connected holds a socket that has opened and whose close event has
    not arrived: the socket is open, or the server has started the
    closing handshake.  [sendWebSocketMessage] hands the payload (the
    string itself, or the text that [JSON.stringify] returns for the
    message) to that socket and neither warns nor fails: the payload goes
    on the wire while the socket is open, and the platform discards it
    without a sign once the server has started closing. *)
Theorem connected_record_sends fuel lb parse stringify (t0 : Z) (inputs : list Input)
    (w : World) (name : string) :
  (∀ l w0, snd (lb l w0) = w0) →
  run fuel lb parse stringify inputs (initial t0) = Some w →
  WebSocketState.connected (read name w) = true →
  ∃ s sk,
    WebSocketState.socket (read name w) = Some s
    ∧ sockets w !! s = Some sk
    ∧ (readyState sk = OPEN ∨ readyState sk = CLOSING)
    ∧ ∀ msg payload,
        payload_of stringify msg = Some payload →
        sendWebSocketMessage stringify name msg w
        = Some (Ok tt, match readyState sk with
                       | OPEN => add_log [Sent s payload] w
                       | _ => w
                       end).
Proof.
  intros Hobs Hrun Hc.
  pose proof (wired_run fuel lb parse stringify Hobs inputs _ _ Hrun (wired_initial t0))
    as W.
  destruct (read_cases name w) as [Hr|[_ Hr]]; [|by rewrite Hr in Hc].
  destruct (connected_is_open w W name _ Hr Hc) as (s & sk & Hs & Hsk & Hopen).
  exists s, sk. repeat split; try done.
  intros msg payload Hp.
  unfold sendWebSocketMessage, bind. rewrite getWebSocketState_eq, Hc, Hs.
  unfold payload_of in Hp.
  assert (Send : try_catch (socket_send s payload)
                   (fun err => console_error "Failed to send WebSocket message:" (Some err)) w
                 = Some (Ok tt, match readyState sk with
                                | OPEN => add_log [Sent s payload] w
                                | _ => w
                                end)).
  { unfold try_catch, socket_send, bind, get. rewrite Hsk. simpl.
    by destruct Hopen as [-> | ->]. }
  destruct (is_string msg) as [text|].
  - inversion Hp; subst. exact Send.
  - destruct (stringify msg) as [text|e]; [|done]. inversion Hp; subst. exact Send.
Qed.

Lemma connected_record_sends_witness :
  let w := after [Mount (opts "x"); SocketOpen 0; PeerCloses 0] in
  ∃ s sk,
    WebSocketState.socket (read "x" w) = Some s
    ∧ sockets w !! s = Some sk
    ∧ (readyState sk = OPEN ∨ readyState sk = CLOSING)
    ∧ ∀ msg payload,
        payload_of Json.stringify msg = Some payload →
        sendWebSocketMessage Json.stringify "x" msg w
        = Some (Ok tt, match readyState sk with
                       | OPEN => add_log [Sent s payload] w
                       | _ => w
                       end).
Proof.
  intros w.
  apply (connected_record_sends 8 quiet Json.parse Json.stringify 0
           [Mount (opts "x"); SocketOpen 0; PeerCloses 0] w "x").
  - intros l w0. reflexivity.
  - vm_compute. reflexivity.
  - vm_compute. reflexivity.
Defined.

(** A message sent while the socket is open goes on the wire; one sent
    after the server has started the closing handshake leaves no trace,
    and the record still says connected until the close event. *)
Example send_while_the_peer_closes :
  let w := after [Mount (opts "x"); SocketOpen 0; Send "x" (VStr "a"); PeerCloses 0;
                  Send "x" (VStr "b")] in
  log w = [Sent 0 "a"]
  ∧ WebSocketState.connected (read "x" w) = true
  ∧ (readyState <$> sockets w) = [CLOSING]
  ∧ WebSocketState.connected
      (read "x" (after [Mount (opts "x"); SocketOpen 0; PeerCloses 0; SocketClose 0]))
    = false.
Proof. vm_compute. repeat split; reflexivity. Qed.

Lemma view_hook h hk w :
  hooks w !! h = Some hk → v_hooks (view w) !! h = Some (Hook.with_socket None hk).
Proof. intros H. unfold view. cbn [v_hooks]. by rewrite list_lookup_fmap, H. Qed.

Lemma timers_cancelled id w :
  timers (cancelled id w)
  = match id with
    | Some id => if bool_decide (id = 0) then timers w
                 else filter (fun t => timerId t ≠ id) (timers w)
    | None => timers w
    end.
Proof. destruct id as [id|]; [|done]. unfold cancelled. by case_bool_decide. Qed.

Lemma timers_after_unmount h hk evs w :
  timers (after_unmount h hk evs w)
  = (match Hook.timer hk with
     | Some id => filter (fun t => timerId t ≠ id)
     | None => fun ts => ts
     end)
      (match Hook.reconnectTimeout hk with
       | Some id => if bool_decide (id = 0) then timers w
                    else filter (fun t => timerId t ≠ id) (timers w)
       | None => timers w
       end).
Proof.
  unfold after_unmount. wsimpl.
  assert (T : timers (after_cleanup h hk evs w)
              = match Hook.reconnectTimeout hk with
                | Some id => if bool_decide (id = 0) then timers w
                             else filter (fun t => timerId t ≠ id) (timers w)
                | None => timers w
                end).
  { unfold after_cleanup.
    destruct (written_fields (Hook.name hk) idle evs
                (cancelled (Hook.reconnectTimeout hk) (closing (Hook.socket hk) w)))
      as (_ & _ & _ & _ & -> & _).
    rewrite timers_cancelled.
    by destruct (closing_fields (Hook.socket hk) w) as (_ & _ & _ & -> & _). }
  unfold disarmed. destruct (Hook.timer hk); wsimpl; by rewrite T.
Qed.

(** X14: in every world the program can reach, unmounting a hook cancels
    its pending reconnect timer and its watchdog timer, and no timer of
    any other hook; it calls [close()] on the hook's socket and resets the
    record of its name to idle. *)
Theorem unmount_cancels_the_timers fuel lb parse stringify (t0 : Z) (inputs : list Input)
    (w : World) (h : HookId) (hk : Hook.t) :
  (∀ l w0, snd (lb l w0) = w0) →
  run fuel lb parse stringify inputs (initial t0) = Some w →
  hooks w !! h = Some hk →
  Hook.mounted hk = true →
  length (entries (Hook.name hk) w) < fuel →
  ∃ w',
    step fuel lb parse stringify (Unmount h) w = Some (Ok tt, w')
    ∧ (∀ t, t ∈ timers w' → t ∈ timers w ∧ task t ≠ Reconnect h ∧ task t ≠ Heartbeat h)
    ∧ (∀ t, t ∈ timers w → task t ≠ Reconnect h → task t ≠ Heartbeat h → t ∈ timers w')
    ∧ read (Hook.name hk) w' = spread (read (Hook.name hk) w) idle
    ∧ sockets w' = sockets (closing (Hook.socket hk) w)
    ∧ (Hook.mounted <$> hooks w' !! h) = Some false.
Proof.
  intros Hobs Hrun Hh Hm Hfuel.
  pose proof (wired_run fuel lb parse stringify Hobs inputs _ _ Hrun (wired_initial t0))
    as W.
  pose proof (reachable_sound fuel lb parse stringify Hobs t0 inputs w Hrun) as S.
  pose proof (view_hook h hk w Hh) as Hv.
  assert (E0 : step fuel lb parse stringify (Unmount h) w = unmount fuel lb h w) by done.
  rewrite E0. clear E0.
  destruct (unmount_observers fuel lb Hobs h hk w Hh Hm (or_introl Hfuel))
    as (evs & F & E).
  rewrite E. eexists. split; [reflexivity|].
  rewrite timers_after_unmount.
  assert (Rec : ∀ t, t ∈ timers w → task t = Reconnect h →
            Hook.reconnectTimeout hk = Some (timerId t) ∧ timerId t ≠ 0).
  { intros t Ht Hr. by eapply (reconnect_known w W). }
  assert (Hb : ∀ t, t ∈ timers w → task t = Heartbeat h → Hook.timer hk = Some (timerId t)).
  { intros t Ht Hr.
    destruct (armed_by_message _ S t h Ht Hr) as (hk' & l & Hk' & Ht' & _).
    rewrite Hv in Hk'. inversion Hk'; subst hk'. exact Ht'. }
  assert (RecOwn : ∀ id t, Hook.reconnectTimeout hk = Some id → t ∈ timers w →
            timerId t = id → task t = Reconnect h).
  { intros id t Hid Ht Hti.
    destruct (reconnect_owned _ S h _ id Hv Hid) as [_ Ho]. by apply Ho. }
  assert (HbOwn : ∀ id t, Hook.timer hk = Some id → t ∈ timers w →
            timerId t = id → task t = Heartbeat h).
  { intros id t Hid Ht Hti.
    destruct (timer_owned _ S h _ id Hv Hid) as [_ Ho]. by apply Ho. }
  set (ts1 := match Hook.reconnectTimeout hk with
              | Some id => if bool_decide (id = 0) then timers w
                           else filter (fun t => timerId t ≠ id) (timers w)
              | None => timers w
              end).
  assert (In1 : ∀ t, t ∈ ts1 ↔ t ∈ timers w ∧ task t ≠ Reconnect h).
  { intros t. unfold ts1. destruct (Hook.reconnectTimeout hk) as [id|] eqn:Hid.
    - case_bool_decide as Hz.
      + subst id. split; [|by intros [? _]]. intros Ht. split; [done|].
        intros Hr. destruct (Rec t Ht Hr) as [E1 E2]. congruence.
      + rewrite list_elem_of_filter. split.
        * intros [Hne Ht]. split; [done|]. intros Hr.
          destruct (Rec t Ht Hr) as [E1 _]. congruence.
        * intros [Ht Hnr]. split; [|done]. intros Heq. apply Hnr. by eapply RecOwn.
    - split; [|by intros [? _]]. intros Ht. split; [done|].
      intros Hr. destruct (Rec t Ht Hr) as [E1 _]. congruence. }
  assert (In2 : ∀ t, t ∈ (match Hook.timer hk with
                           | Some id => filter (fun t => timerId t ≠ id)
                           | None => fun ts => ts
                           end) ts1
                     ↔ t ∈ timers w ∧ task t ≠ Reconnect h ∧ task t ≠ Heartbeat h).
  { intros t. destruct (Hook.timer hk) as [id|] eqn:Hid.
    - rewrite list_elem_of_filter, In1. split.
      + intros [Hne [Ht Hnr]]. repeat split; try done. intros Hr.
        pose proof (Hb t Ht Hr). congruence.
      + intros (Ht & Hnr & Hnh). repeat split; try done. intros Heq. apply Hnh.
        by eapply HbOwn.
    - rewrite In1. split.
      + intros [Ht Hnr]. repeat split; try done. intros Hr.
        pose proof (Hb t Ht Hr). congruence.
      + intros (Ht & Hnr & _). done. }
  split; [intros t Ht; by apply In2|].
  split; [intros t Ht Hnr Hnh; by apply In2|].
  unfold after_unmount.
  assert (H1 : hooks (after_cleanup h hk evs w) !! h = Some hk)
    by (by rewrite hooks_after_cleanup).
  pose proof (hooks_disarmed h hk _ H1) as H2.
  split.
  { change (read (Hook.name hk) (set_hooks ?f ?x)) with (read (Hook.name hk) x).
    assert (Rd : ∀ x, read (Hook.name hk) (disarmed h hk x) = read (Hook.name hk) x).
    { intros x. unfold disarmed. by destruct (Hook.timer hk). }
    rewrite Rd. unfold after_cleanup. rewrite read_written.
    unfold read. assert (St : state (cancelled (Hook.reconnectTimeout hk)
                                       (closing (Hook.socket hk) w)) = state w).
    { unfold cancelled. destruct (Hook.reconnectTimeout hk); [case_bool_decide|];
        wsimpl; by destruct (closing_fields (Hook.socket hk) w) as (-> & _). }
    by rewrite St. }
  split.
  { wsimpl.
    assert (Sd : ∀ x, sockets (disarmed h hk x) = sockets x).
    { intros x. unfold disarmed. by destruct (Hook.timer hk). }
    rewrite Sd. unfold after_cleanup.
    destruct (written_fields (Hook.name hk) idle evs
                (cancelled (Hook.reconnectTimeout hk) (closing (Hook.socket hk) w)))
      as (_ & _ & _ & -> & _).
    unfold cancelled. destruct (Hook.reconnectTimeout hk); [case_bool_decide|]; done. }
  wsimpl. rewrite list_lookup_insert_eq by (by eapply lookup_lt_Some). done.
Qed.

Lemma unmount_cancels_witness :
  let inputs := [Mount (reconnecting "x"); SocketOpen 0; SocketMessage 0 (VStr "a");
                 Mount (reconnecting "y"); SocketOpen 1; SocketClose 1] in
  let w := after inputs in
  let hk := Hook.mk "x" "wss://example.test" true 5000 false 2 15000 (Some 0) None
                    (Some 0%Z) (Some 1) true in
  ∃ w',
    step 8 quiet Json.parse Json.stringify (Unmount 0) w = Some (Ok tt, w')
    ∧ (∀ t, t ∈ timers w' → t ∈ timers w ∧ task t ≠ Reconnect 0 ∧ task t ≠ Heartbeat 0)
    ∧ (∀ t, t ∈ timers w → task t ≠ Reconnect 0 → task t ≠ Heartbeat 0 → t ∈ timers w')
    ∧ read (Hook.name hk) w' = spread (read (Hook.name hk) w) idle
    ∧ sockets w' = sockets (closing (Hook.socket hk) w)
    ∧ (Hook.mounted <$> hooks w' !! 0) = Some false.
Proof.
  intros inputs w hk.
  apply (unmount_cancels_the_timers 8 quiet Json.parse Json.stringify 0 inputs w 0 hk).
  - intros l w0. reflexivity.
  - vm_compute. reflexivity.
  - vm_compute. reflexivity.
  - reflexivity.
  - vm_compute. lia.
Defined.






Lemma read_insert name name' st w :
  read name' (set_state <[name := st]> w)
  = if bool_decide (name' = name) then st else read name' w.
Proof.
  unfold read. wsimpl. case_bool_decide as H.
  - subst. by rewrite lookup_insert_eq.
  - by rewrite lookup_insert_ne.
Qed.

(** X8: a frame delivered on an open socket replaces the latest message
    of the hook's name by the decoded payload, stamped with the current
    time.  It never changes the name, socket, connected, connecting or
    storeHistory field of any record, changes no record of another name,
    changes no record at all when [storeHistory] is off, and writes
    nothing to a socket. *)
Theorem inbound_frame_keeps_the_phase fuel lb parse stringify
    (s : SocketId) (url : string) (h : HookId) (hk : Hook.t) (data : JsValue) (w : World) :
  (∀ l w0, snd (lb l w0) = w0) →
  sockets w !! s = Some (mkSocket url OPEN h) →
  hooks w !! h = Some hk →
  length (entries (Hook.name hk) w) < fuel →
  ∃ w',
    step fuel lb parse stringify (SocketMessage s data) w = Some (Ok tt, w')
    ∧ latestMessages w'
      = <[Hook.name hk := mkMessage (decoded parse data) (now w)]> (latestMessages w)
    ∧ (∀ name,
         WebSocketState.name (read name w') = WebSocketState.name (read name w)
         ∧ WebSocketState.socket (read name w') = WebSocketState.socket (read name w)
         ∧ WebSocketState.connected (read name w') = WebSocketState.connected (read name w)
         ∧ WebSocketState.connecting (read name w')
           = WebSocketState.connecting (read name w)
         ∧ WebSocketState.storeHistory (read name w')
           = WebSocketState.storeHistory (read name w))
    ∧ (∀ name, name ≠ Hook.name hk → state w' !! name = state w !! name)
    ∧ (Hook.storeHistory hk = false → state w' = state w)
    ∧ sockets w' = sockets w
    ∧ wire (log w') = wire (log w).
Proof.
  intros Hobs Hs Hh Hfuel.
  assert (E0 : step fuel lb parse stringify (SocketMessage s data) w
               = onmessage fuel lb parse h data w).
  { unfold step, bind, get. by rewrite Hs. }
  rewrite E0. clear E0.
  destruct (onmessage_observers fuel lb parse Hobs h hk data w Hh (or_introl Hfuel))
    as (evs1 & evs2 & F1 & F2 & E).
  rewrite E. clear E. eexists. split; [reflexivity|].
  unfold after_message.
  set (msg := mkMessage (decoded parse data) (now w)).
  set (w1 := notified (Hook.name hk) evs1 _).
  set (w2 := if bool_decide _ then w1 else _).
  assert (L1 : latestMessages w1 = <[Hook.name hk := msg]> (latestMessages w)).
  { unfold w1. by rewrite latestMessages_notified. }
  assert (S1 : state w1 = state w) by (unfold w1; by rewrite state_notified).
  assert (K1 : sockets w1 = sockets w) by (unfold w1; by rewrite sockets_notified).
  assert (G1 : wire (log w1) = wire (log w)).
  { unfold w1. rewrite log_notified, wire_app, (wire_fanout _ F1), app_nil_r.
    unfold add_log. wsimpl. rewrite wire_app. unfold decode_events.
    destruct (is_string data) as [text|]; [|by rewrite app_nil_r].
    destruct (parse text); by rewrite app_nil_r. }
  assert (Q2 : latestMessages w2 = <[Hook.name hk := msg]> (latestMessages w)
               ∧ state w2 = state w ∧ sockets w2 = sockets w
               ∧ wire (log w2) = wire (log w)).
  { unfold w2. case_bool_decide; [done|].
    by rewrite latestMessages_touched, state_touched, sockets_touched, log_touched. }
  destruct Q2 as (L2 & S2 & K2 & G2).
  assert (R2 : ∀ name, read name w2 = read name w) by (intros; unfold read; by rewrite S2).
  destruct (Hook.storeHistory hk) eqn:Hstore.
  - rewrite latestMessages_notified, sockets_notified, log_notified, wire_app,
      (wire_fanout _ F2), app_nil_r, !state_notified.
    wsimpl. rewrite L2, K2, G2.
    split; [done|]. split; [|split; [|done]].
    + intros name. rewrite read_notified, read_insert.
      case_bool_decide as Hn; [subst name|]; by rewrite R2.
    + intros name Hne. by rewrite lookup_insert_ne, S2.
  - rewrite L2, K2, G2, S2. repeat split; try done.
    all: by rewrite R2.
Qed.

Lemma inbound_frame_witness :
  let hk := Hook.with_socket (Some 0) (Hook.create (opts "x")) in
  ∃ w',
    step 8 quiet Json.parse Json.stringify (SocketMessage 0 (VStr "[1]")) connected_world
    = Some (Ok tt, w')
    ∧ latestMessages w'
      = <[Hook.name hk := mkMessage (decoded Json.parse (VStr "[1]")) (now connected_world)]>
          (latestMessages connected_world)
    ∧ (∀ name,
         WebSocketState.name (read name w') = WebSocketState.name (read name connected_world)
         ∧ WebSocketState.socket (read name w')
           = WebSocketState.socket (read name connected_world)
         ∧ WebSocketState.connected (read name w')
           = WebSocketState.connected (read name connected_world)
         ∧ WebSocketState.connecting (read name w')
           = WebSocketState.connecting (read name connected_world)
         ∧ WebSocketState.storeHistory (read name w')
           = WebSocketState.storeHistory (read name connected_world))
    ∧ (∀ name, name ≠ Hook.name hk → state w' !! name = state connected_world !! name)
    ∧ (Hook.storeHistory hk = false → state w' = state connected_world)
    ∧ sockets w' = sockets connected_world
    ∧ wire (log w') = wire (log connected_world).
Proof.
  intros hk.
  apply (inbound_frame_keeps_the_phase 8 quiet Json.parse Json.stringify 0
           "wss://example.test" 0 hk (VStr "[1]") connected_world).
  - intros l w0. reflexivity.
  - vm_compute. reflexivity.
  - vm_compute. reflexivity.
  - vm_compute. lia.
Defined.

(** ** Listeners run after the write *)

(** Two families of listener bodies that agree on the worlds where [P]
    holds give the same fan-out from such a world, provided the bodies
    keep [P]. *)
Lemma Set_forEach_agree (P : World → Prop) lb lb' name :
  (∀ evs w0, P w0 → P (add_log evs w0)) →
  (∀ l w0, P w0 → P (snd (lb l w0))) →
  (∀ l w0, P w0 → lb l w0 = lb' l w0) →
  ∀ n i w0, P w0 →
    Set_forEach n name (invoke_listener lb name) i w0
    = Set_forEach n name (invoke_listener lb' name) i w0.
Proof.
  intros Plog Pkeep Hagree. induction n as [|n IH]; intros i w0 Hw; [done|].
  simpl. destruct (entries name w0 !! i) as [[l|]|]; [|by apply IH|done].
  unfold bind. rewrite !invoke_listener_eq.
  rewrite <- (Hagree l (add_log [Invoked name l] w0)) by (by apply Plog).
  pose proof (Pkeep l (add_log [Invoked name l] w0) (Plog _ _ Hw)) as Hk.
  destruct (lb l (add_log [Invoked name l] w0)) as [[[]|e] w1]; simpl in Hk.
  - by apply IH.
  - apply IH. by apply Plog.
Qed.

(** X5: the tables are written before the fan-out.  What a listener does
    in a world where [state[name]] (for [setWebSocketState]) or
    [latestMessages[name]] (for [addMessage]) does not yet hold the new
    value has no bearing on the outcome, for listeners that leave that
    entry alone: they are only ever called once it is there. *)
Theorem listeners_run_after_the_write fuel lb lb' (name : string) (partial : Partial.t)
    (msg : WebSocketMessage) (w : World) :
  (∀ l w0, state w0 !! name = Some (spread (read name w) partial) →
     lb l w0 = lb' l w0
     ∧ state (snd (lb l w0)) !! name = Some (spread (read name w) partial)) →
  (∀ l w0, latestMessages w0 !! name = Some msg →
     lb l w0 = lb' l w0 ∧ latestMessages (snd (lb l w0)) !! name = Some msg) →
  setWebSocketState fuel lb name partial w = setWebSocketState fuel lb' name partial w
  ∧ addMessage fuel lb name msg w = addMessage fuel lb' name msg w.
Proof.
  intros Hst Hlm. split.
  - unfold setWebSocketState, bind. rewrite getWebSocketState_eq. unfold modify.
    unfold notifyListeners, bind. rewrite !getListeners_eq.
    apply (Set_forEach_agree
             (fun w0 => state w0 !! name = Some (spread (read name w) partial))).
    + done.
    + intros l w0 H. by apply Hst.
    + intros l w0 H. by apply Hst.
    + destruct (with_set_fields name
                  (set_state <[name := spread (read name w) partial]> w)) as (-> & _).
      wsimpl. apply lookup_insert_eq.
  - unfold addMessage, bind, modify.
    unfold notifyListeners, bind. rewrite !getListeners_eq.
    apply (Set_forEach_agree (fun w0 => latestMessages w0 !! name = Some msg)).
    + done.
    + intros l w0 H. by apply Hlm.
    + intros l w0 H. by apply Hlm.
    + destruct (with_set_fields name (set_latestMessages <[name := msg]> w))
        as (_ & -> & _).
      wsimpl. apply lookup_insert_eq.
Qed.

Lemma listeners_run_after_the_write_witness :
  setWebSocketState 8 quiet "x" idle two_listeners
  = setWebSocketState 8 needs_x "x" idle two_listeners
  ∧ addMessage 8 quiet "x" (mkMessage (VStr "m") 5) two_listeners
    = addMessage 8 needs_x "x" (mkMessage (VStr "m") 5) two_listeners.
Proof.
  apply (listeners_run_after_the_write 8 quiet needs_x "x" idle (mkMessage (VStr "m") 5)
           two_listeners).
  - intros l w0 H. unfold quiet, needs_x. rewrite H. split; [reflexivity|exact H].
  - intros l w0 H. unfold quiet, needs_x. rewrite H. split; [|exact H].
    by destruct (state w0 !! "x").
Defined.

(** ** The watchdog after the unmount *)

Lemma unmounted_unarmed_insert h hk' v :
  (Hook.mounted hk' = false → Hook.timer hk' = None) →
  unmounted_unarmed v →
  ∀ h0 hk0, <[h := hk']> (v_hooks v) !! h0 = Some hk0 →
            Hook.mounted hk0 = false → Hook.timer hk0 = None.
Proof.
  intros Hnew Hv h0 hk0 Hl Hm.
  destruct (decide (h0 = h)) as [->|Hne].
  - apply list_lookup_insert_Some in Hl as [(_ & <- & _)|(Hc & _)]; [by apply Hnew|done].
  - rewrite list_lookup_insert_ne in Hl by done. by eapply Hv.
Qed.

Lemma unmounted_unarmed_astep k v : unmounted_unarmed v → unmounted_unarmed (astep k v).
Proof.
  intros Hv. destruct k as [|ms|h|h|id|options|h]; cbn [astep]; try done.
  - destruct (v_hooks v !! h) as [hk|] eqn:Hh; [|done].
    destruct (Hook.autoReconnect hk); [|done].
    intros h0 hk0. cbn [v_hooks]. apply unmounted_unarmed_insert; [|done].
    cbn [Hook.mounted Hook.timer Hook.with_reconnectTimeout]. by apply (Hv h hk).
  - destruct (v_hooks v !! h) as [hk|] eqn:Hh; [|done].
    case_bool_decide; [done|]. unfold v_touch. rewrite Hh.
    destruct (Hook.mounted hk) eqn:Hm; [|done]. cbn [negb].
    case_bool_decide; [done|].
    case_bool_decide; intros h0 hk0; cbn [v_hooks];
      (apply unmounted_unarmed_insert; [|done]);
      cbn [Hook.mounted Hook.timer Hook.with_timer Hook.with_lastMessageTime];
      congruence.
  - destruct (find_timer id (v_timers v)) as [t|]; [|done].
    by case_bool_decide.
  - intros h0 hk0. cbn [v_hooks]. intros Hl Hm.
    apply lookup_app_Some in Hl as [Hl|[_ Hl]]; [by eapply Hv|].
    destruct (h0 - length (v_hooks v)) as [|n]; simpl in Hl; [|done].
    inversion Hl; subst. done.
  - destruct (v_hooks v !! h) as [hk|] eqn:Hh; [|done].
    destruct (Hook.mounted hk) eqn:Hm; [|done]. cbn [negb].
    intros h0 hk0. cbn [v_hooks]. apply unmounted_unarmed_insert; [|done]. done.
Qed.

Section AfterUnmount.

Variable fuel : nat.
Variable listener_body : Listener → World → Result unit * World.
Variable JSON_parse : string → Result JsValue.
Variable JSON_stringify : JsValue → Result string.
Hypothesis observers : ∀ l w, snd (listener_body l w) = w.

Lemma unmounted_unarmed_run inputs : ∀ w w',
  run fuel listener_body JSON_parse JSON_stringify inputs w = Some w' →
  unmounted_unarmed (view w) → unmounted_unarmed (view w').
Proof.
  induction inputs as [|i inputs IH]; intros w w' H Hv; simpl in H.
  - by inversion H; subst.
  - destruct (step _ _ _ _ i w) as [[r w1]|] eqn:E; [|done].
    apply (IH w1 w' H).
    rewrite (sim_step fuel listener_body JSON_parse JSON_stringify observers i w r w1 E).
    by apply unmounted_unarmed_astep.
Qed.

End AfterUnmount.

(** X16: in every world the program can reach, a hook that has unmounted
    holds no watchdog timer, whatever has arrived on its sockets since
    ([setLastMessageTime] on an unmounted component does nothing). *)
Theorem unmounted_hook_has_no_watchdog fuel lb parse stringify (t0 : Z)
    (inputs : list Input) (w : World) (h : HookId) (hk : Hook.t) :
  (∀ l w0, snd (lb l w0) = w0) →
  run fuel lb parse stringify inputs (initial t0) = Some w →
  hooks w !! h = Some hk →
  Hook.mounted hk = false →
  Hook.timer hk = None ∧ hb_timers h w = [].
Proof.
  intros Hobs Hrun Hh Hm.
  pose proof (reachable_sound fuel lb parse stringify Hobs t0 inputs w Hrun) as S.
  assert (U : unmounted_unarmed (view w)).
  { eapply (unmounted_unarmed_run fuel lb parse stringify Hobs); [exact Hrun|].
    intros h0 hk0 Hl. by destruct h0. }
  pose proof (U h _ (view_hook h hk w Hh) Hm) as Hn.
  cbn [Hook.timer Hook.with_socket] in Hn. split; [exact Hn|].
  apply filter_none. intros t Ht Hr.
  destruct (armed_by_message _ S t h Ht Hr) as (hk' & l & Hk' & Ht' & _).
  rewrite (view_hook h hk w Hh) in Hk'. inversion Hk'; subst hk'.
  cbn [Hook.timer Hook.with_socket] in Ht'. congruence.
Qed.

Lemma unmounted_hook_witness :
  let inputs := [Mount (reconnecting "x"); SocketOpen 0; SocketMessage 0 (VStr "a");
                 Unmount 0; SocketClose 0; Elapse 5000; TimerFires 2; SocketOpen 1;
                 SocketMessage 1 (VStr "b")] in
  let hk := Hook.mk "x" "wss://example.test" true 5000 false 2 15000 (Some 1) (Some 2)
                    (Some 0%Z) None false in
  Hook.timer hk = None ∧ hb_timers 0 (after inputs) = [].
Proof.
  intros inputs hk.
  apply (unmounted_hook_has_no_watchdog 8 quiet Json.parse Json.stringify 0 inputs
           (after inputs) 0 hk).
  - intros l w0. reflexivity.
  - vm_compute. reflexivity.
  - vm_compute. reflexivity.
  - reflexivity.
Defined.

Example frames_after_the_unmount :
  let w := after [Mount (reconnecting "x"); SocketOpen 0; SocketMessage 0 (VStr "a");
                  Unmount 0; SocketClose 0; Elapse 5000; TimerFires 2; SocketOpen 1;
                  SocketMessage 1 (VStr "b")] in
  latestMessages w !! "x" = Some (mkMessage (VStr "b") 5000)
  ∧ (readyState <$> sockets w) = [CLOSED; OPEN]
  ∧ WebSocketState.connected (read "x" w) = true
  ∧ timers w = [].
Proof. vm_compute. repeat split; reflexivity. Qed.

(** ** The watchdog of the program, armed and expiring *)




(** The run of the witness, continued: the frame "a" armed timer 1, due
    at 15000; it is pending and due, fires, and the synthetic message is
    the latest message; a frame that arrives then arms timer 2. *)
Example watchdog_armed_and_fired :
  let w := after [Mount (opts "x"); SocketOpen 0; SocketMessage 0 (VStr "a");
                  Elapse 15000] in
  hb_timers 0 w = [mkTimer 1 15000 (Heartbeat 0)]
  ∧ now w = 15000%Z
  ∧ hb_timers 0 (after [Mount (opts "x"); SocketOpen 0; SocketMessage 0 (VStr "a");
                        Elapse 15000; TimerFires 1]) = []
  ∧ hb_timers 0 (after [Mount (opts "x"); SocketOpen 0; SocketMessage 0 (VStr "a");
                        Elapse 15000; TimerFires 1; SocketMessage 0 (VStr "b")])
    = [mkTimer 2 30000 (Heartbeat 0)].
Proof. vm_compute. repeat split; reflexivity. Qed.
